(** * kSharp autopilot engine (src/engine.js): compiler and virtual machine

    Shallow embedding of the script lexer ([Compiler.tokenize]), the
    single-pass compiler ([Compiler.compile]), the expression evaluator
    ([VM.eval]) and the tick-driven virtual machine ([VM.run], [VM.tick]).

    JavaScript numbers are IEEE-754 binary64 values, modelled with the
    Standard Library's [spec_float] at precision 53 and maximal exponent 1024.
    Strings are ASCII strings.  The JavaScript builtins the engine relies on
    ([Number.prototype.toString], [parseFloat], [String.prototype.replace]
    with a global regular expression, the [RegExp] constructor and [eval])
    are modelled in module [Js]; [eval] itself is a parameter of the
    evaluator and of the virtual machine, and module [Js] gives a model of it
    on a fragment of ECMAScript expressions. *)

From Stdlib Require Import ZArith List String Ascii Bool Lia.
From Stdlib Require Import Floats.SpecFloat Permutation.
Import ListNotations.

Local Open Scope bool_scope.

Module Js.

Local Open Scope string_scope.

(** ** Numbers *)

Definition prec : Z := 53%Z.
Definition emax : Z := 1024%Z.

Definition number := spec_float.

Definition add := SFadd prec emax.
Definition sub := SFsub prec emax.
Definition mul := SFmul prec emax.
Definition div := SFdiv prec emax.
Definition neg := SFopp.

Definition nan : number := S754_nan.
Definition zero : number := S754_zero false.

(** The binary64 value nearest to the integer [z] (ties to even). *)
Definition of_Z (z : Z) : number := binary_normalize prec emax z 0 false.

Definition one : number := of_Z 1.

(** Number of decimal digits of a positive integer. *)
Fixpoint pos_digits10_aux (fuel : nat) (z : Z) : Z :=
  match fuel with
  | O => 0
  | S f => if (z <? 10)%Z then 1 else (1 + pos_digits10_aux f (z / 10))%Z
  end.

Definition digits10 (z : Z) : Z :=
  pos_digits10_aux (S (Pos.to_nat (Pos.size (Z.to_pos z)))) z.

(** The binary64 value nearest to [d * 10 ^ x] for [d >= 0], rounding to
    nearest, ties to even: the conversion of a decimal literal.  Values of
    at least [10 ^ 309] overflow to infinity, values below [10 ^ -330]
    underflow to zero. *)
Definition of_decimal (d x : Z) : number :=
  if (d =? 0)%Z then zero
  else if (309 <? digits10 d + x)%Z then S754_infinity false
  else if (digits10 d + x <? -330)%Z then zero
  else if (0 <=? x)%Z then binary_normalize prec emax (d * 10 ^ x) 0 false
  else
    let '(m, e, l) := SFdiv_core_binary prec emax d 0 (10 ^ (- x)) 0 in
    binary_round_aux prec emax false m e l.

(** [SFcompare] is [None] when one side is NaN. *)
Definition lt (a b : number) : bool :=
  match SFcompare a b with Some Lt => true | _ => false end.
Definition le (a b : number) : bool :=
  match SFcompare a b with Some Lt | Some Eq => true | _ => false end.
Definition num_eqb (a b : number) : bool :=
  match SFcompare a b with Some Eq => true | _ => false end.

Definition is_nan (a : number) : bool :=
  match a with S754_nan => true | _ => false end.

(** ** Decimal text *)

Definition digit_char (d : Z) : ascii := ascii_of_nat (48 + Z.to_nat d).

Fixpoint digits_of_pos_aux (fuel : nat) (z : Z) (acc : string) : string :=
  match fuel with
  | O => acc
  | S f =>
      let acc' := String (digit_char (z mod 10)) acc in
      if (z <? 10)%Z then acc' else digits_of_pos_aux f (z / 10) acc'
  end.

(** Decimal digits of a non-negative integer. *)
Definition string_of_nonneg (z : Z) : string :=
  digits_of_pos_aux (S (Z.to_nat (digits10 z))) z EmptyString.

Fixpoint zeros (n : nat) : string :=
  match n with O => EmptyString | S k => String "0" (zeros k) end.

(** *** [Number::toString(x)] (ECMAScript 6.1.6.1.20), radix 10

    For a positive finite [x], the shortest decimal [s * 10 ^ (n - k)] with
    [k] digits that converts back to [x] (the closest one, then the even
    one, when several have that length). *)

(** Exact value of a finite positive binary64 as a fraction [num / den]. *)
Definition frac_of (m : positive) (e : Z) : Z * Z :=
  if (0 <=? e)%Z then (Zpos m * 2 ^ e, 1)%Z else (Zpos m, 2 ^ (- e))%Z.

(** The [n] with [10 ^ (n - 1) <= num / den < 10 ^ n]. *)
Definition decimal_exponent (num den : Z) : Z :=
  let q := (num / den)%Z in
  if (1 <=? q)%Z then digits10 q
  else
    (* smallest t >= 1 with num * 10 ^ t >= den *)
    let t0 := Z.max 1 (digits10 den - digits10 num) in
    if (den <=? num * 10 ^ t0)%Z then (1 - t0)%Z else (1 - (t0 + 1))%Z.

(** The candidate digit strings of length [k]: [floor] and [floor + 1] of
    [num / den / 10 ^ (n - k)], with the decimal exponent [n]. *)
Definition scaled_floor (num den n k : Z) : Z :=
  let p := (n - k)%Z in
  if (0 <=? p)%Z then (num / (den * 10 ^ p))%Z else (num * 10 ^ (- p) / den)%Z.

(** Does [s * 10 ^ (n - k)] convert back to [x]? *)
Definition roundtrips (x : number) (s n k : Z) : bool :=
  match of_decimal s (n - k), x with
  | S754_finite sa ma ea, S754_finite sb mb eb =>
      Bool.eqb sa sb && Pos.eqb ma mb && Z.eqb ea eb
  | _, _ => false
  end.

(** Distance comparison of two candidates to [num / den], as
    [|s1 * 10^p - v|] versus [|s2 * 10^p - v|]; the scale is common. *)
Definition closer_or_even (num den n k s1 s2 : Z) : Z :=
  let p := (n - k)%Z in
  let dist s :=
    if (0 <=? p)%Z then Z.abs (s * 10 ^ p * den - num)
    else Z.abs (s * den - num * 10 ^ (- p)) in
  match Z.compare (dist s1) (dist s2) with
  | Lt => s1
  | Gt => s2
  | Eq => if Z.even s1 then s1 else s2
  end.

(** The shortest round-tripping [(s, n, k)] of a positive finite value. *)
Fixpoint shortest_aux (fuel : nat) (x : number) (num den n k : Z)
  : option (Z * Z * Z) :=
  match fuel with
  | O => None
  | S f =>
      let lo := scaled_floor num den n k in
      let hi := (lo + 1)%Z in
      let ok_lo := roundtrips x lo n k in
      (* [hi = 10 ^ k] is the [k]-digit string [10 ^ (k - 1)] at [n + 1] *)
      let '(hi', nhi) := if (hi =? 10 ^ k)%Z then (10 ^ (k - 1), n + 1)%Z
                         else (hi, n) in
      let ok_hi := roundtrips x hi' nhi k in
      if ok_lo && ok_hi && (nhi =? n)%Z then
        Some (closer_or_even num den n k lo hi, n, k)
      else if ok_lo && ok_hi then
        (* [hi] is [10 ^ n] itself; compare distances at scale [n - k] *)
        if (closer_or_even num den n k lo (10 ^ k) =? lo)%Z
        then Some (lo, n, k) else Some (hi', nhi, k)
      else if ok_lo then Some (lo, n, k)
      else if ok_hi then Some (hi', nhi, k)
      else shortest_aux f x num den n (k + 1)
  end.

Definition string_of_Z_abs (z : Z) : string := string_of_nonneg (Z.abs z).

(** Formatting of [s * 10 ^ (n - k)], [s] with [k] digits (steps 6 to 10 of
    [Number::toString]). *)
Definition format_decimal (s n k : Z) : string :=
  let ds := string_of_nonneg s in
  if (k <=? n)%Z && (n <=? 21)%Z then ds ++ zeros (Z.to_nat (n - k))
  else if (0 <? n)%Z && (n <=? 21)%Z then
    substring 0 (Z.to_nat n) ds ++ "." ++
    substring (Z.to_nat n) (Z.to_nat (k - n)) ds
  else if (-6 <? n)%Z && (n <=? 0)%Z then
    "0." ++ zeros (Z.to_nat (- n)) ++ ds
  else
    let e := (n - 1)%Z in
    let sign := if (0 <=? e)%Z then "+" else "-" in
    let mant := if (k =? 1)%Z then ds
                else substring 0 1 ds ++ "." ++ substring 1 (Z.to_nat (k - 1)) ds in
    mant ++ "e" ++ sign ++ string_of_Z_abs e.

Definition to_string_pos (x : number) (m : positive) (e : Z) : string :=
  let '(num, den) := frac_of m e in
  match shortest_aux 17 x num den (decimal_exponent num den) 1 with
  | Some (s, n, k) => format_decimal s n k
  | None => EmptyString (* unreachable: 17 digits always round-trip *)
  end.

Definition to_string (x : number) : string :=
  match x with
  | S754_nan => "NaN"
  | S754_zero _ => "0"
  | S754_infinity false => "Infinity"
  | S754_infinity true => "-Infinity"
  | S754_finite false m e => to_string_pos x m e
  | S754_finite true m e => "-" ++ to_string_pos (S754_finite false m e) m e
  end.

(** ** Characters *)

Definition is_digit (c : ascii) : bool :=
  let n := nat_of_ascii c in (48 <=? n)%nat && (n <=? 57)%nat.
Definition is_upper (c : ascii) : bool :=
  let n := nat_of_ascii c in (65 <=? n)%nat && (n <=? 90)%nat.
Definition is_lower (c : ascii) : bool :=
  let n := nat_of_ascii c in (97 <=? n)%nat && (n <=? 122)%nat.
Definition is_alpha (c : ascii) : bool := is_upper c || is_lower c.

(** Regular-expression word characters [[A-Za-z0-9_]]. *)
Definition is_word_char (c : ascii) : bool :=
  is_alpha c || is_digit c || Ascii.eqb c "_".

(** ECMAScript white space and line terminators in the ASCII range (the
    [\s] class of regular expressions, and the characters [trim] drops). *)
Definition is_space (c : ascii) : bool :=
  let n := nat_of_ascii c in
  (n =? 32)%nat || ((9 <=? n)%nat && (n <=? 13)%nat).

Definition is_line_terminator (c : ascii) : bool :=
  let n := nat_of_ascii c in (n =? 10)%nat || (n =? 13)%nat.

Definition digit_val (c : ascii) : Z := Z.of_nat (nat_of_ascii c - 48).

(** ** Values *)

(** The values of the model: the primitives other than Symbol.  [eval]
    can also return a Symbol, an object or a function; the statements
    below that involve values are about machines whose variables hold
    values of this type. *)
Inductive value :=
| VNum (n : number)
| VStr (s : string)
| VBool (b : bool)
| VUndef
| VNull.

(** Exceptions, with their message. *)
Inductive error :=
| TypeError (msg : string)
| SyntaxError (msg : string)
| ReferenceError (msg : string).

Definition message (e : error) : string :=
  match e with TypeError m | SyntaxError m | ReferenceError m => m end.

(** Completion of a call that may throw. *)
Inductive completion (A : Type) :=
| Normal (a : A)
| Throw (e : error).
Arguments Normal {A} a.
Arguments Throw {A} e.

(** ToString on primitives. *)
Definition to_str (v : value) : string :=
  match v with
  | VNum n => to_string n
  | VStr s => s
  | VBool true => "true"
  | VBool false => "false"
  | VUndef => "undefined"
  | VNull => "null"
  end.

(** ToBoolean: [0], [-0], [NaN], the empty string, [undefined], [null] and [false] are
    falsy. *)
Definition truthy (v : value) : bool :=
  match v with
  | VNum (S754_zero _) | VNum S754_nan => false
  | VNum _ => true
  | VStr s => negb (String.eqb s EmptyString)
  | VBool b => b
  | VUndef | VNull => false
  end.

(** *** Decimal literals (StrUnsignedDecimalLiteral)

    [decimal_prefix cs] reads the longest prefix [digits [. digits] [e [+-]
    digits]] (or [. digits ...]) with at least one mantissa digit; it returns
    the digits as an integer, the decimal exponent and the rest. *)
Fixpoint take_digits (cs : list ascii) (acc : Z) (n : nat)
  : Z * nat * list ascii :=
  match cs with
  | c :: r => if is_digit c then take_digits r (acc * 10 + digit_val c)%Z (S n)
              else (acc, n, cs)
  | [] => (acc, n, cs)
  end.

Definition exponent_part (cs : list ascii) : Z * list ascii :=
  match cs with
  | e :: r =>
      if Ascii.eqb e "e" || Ascii.eqb e "E" then
        let '(sgn, r') := match r with
                          | c :: r2 => if Ascii.eqb c "+" then (1%Z, r2)
                                       else if Ascii.eqb c "-" then ((-1)%Z, r2)
                                       else (1%Z, r)
                          | [] => (1%Z, r)
                          end in
        let '(v, nd, r'') := take_digits r' 0 0 in
        if (nd =? 0)%nat then (0%Z, cs) else ((sgn * v)%Z, r'')
      else (0%Z, cs)
  | [] => (0%Z, cs)
  end.

Definition decimal_prefix (cs : list ascii) : option (Z * Z * list ascii) :=
  let '(ip, ni, r1) := take_digits cs 0 0 in
  let '(fp, nf, r2) :=
    match r1 with
    | c :: r => if Ascii.eqb c "." then take_digits r ip 0 else (ip, 0%nat, r1)
    | [] => (ip, 0%nat, r1)
    end in
  if (ni + nf =? 0)%nat then None
  else let '(ex, r3) := exponent_part r2 in
       Some (fp, (ex - Z.of_nat nf)%Z, r3).

Fixpoint starts_with (p cs : list ascii) : bool :=
  match p, cs with
  | [], _ => true
  | a :: p', b :: cs' => Ascii.eqb a b && starts_with p' cs'
  | _ :: _, [] => false
  end.

Definition infinity_chars : list ascii := list_ascii_of_string "Infinity".

(** A signed decimal literal or [Infinity] at the front of [cs]. *)
Definition signed_decimal_prefix (cs : list ascii) : option (number * list ascii) :=
  let '(negative, r) :=
    match cs with
    | c :: r => if Ascii.eqb c "-" then (true, r)
                else if Ascii.eqb c "+" then (false, r) else (false, cs)
    | [] => (false, cs)
    end in
  let apply_sign (x : number) := if negative then neg x else x in
  if starts_with infinity_chars r then
    Some (apply_sign (S754_infinity false), skipn 8 r)
  else match decimal_prefix r with
       | Some (d, x, r') => Some (apply_sign (of_decimal d x), r')
       | None => None
       end.

Fixpoint drop_spaces (cs : list ascii) : list ascii :=
  match cs with
  | c :: r => if is_space c then drop_spaces r else cs
  | [] => []
  end.

(** [parseFloat(s)]: the longest decimal prefix after leading white space,
    [NaN] when there is none. *)
Definition parse_float (s : string) : number :=
  match signed_decimal_prefix (drop_spaces (list_ascii_of_string s)) with
  | Some (x, _) => x
  | None => nan
  end.

(** Integer in radix [b] from its digits ([0x], [0o], [0b] literals). *)
Definition radix_digit (b : Z) (c : ascii) : option Z :=
  let n := Z.of_nat (nat_of_ascii c) in
  let v := if is_digit c then Some (n - 48)%Z
           else if is_lower c then Some (n - 87)%Z
           else if is_upper c then Some (n - 55)%Z else None in
  match v with Some d => if (d <? b)%Z then Some d else None | None => None end.

Fixpoint radix_value (b : Z) (cs : list ascii) (acc : Z) : option Z :=
  match cs with
  | [] => Some acc
  | c :: r => match radix_digit b c with
              | Some d => radix_value b r (acc * b + d)%Z
              | None => None
              end
  end.

(** StringToNumber: the whole string, white space trimmed, must be a
    numeric literal; the empty string is [0]. *)
Definition string_to_number (s : string) : number :=
  let cs := rev (drop_spaces (rev (drop_spaces (list_ascii_of_string s)))) in
  match cs with
  | [] => zero
  | z :: x :: r =>
      if Ascii.eqb z "0" && (negb (is_digit x)) && (negb (Ascii.eqb x ".")) &&
         (negb (Ascii.eqb x "e")) && (negb (Ascii.eqb x "E")) then
        let b := if Ascii.eqb x "x" || Ascii.eqb x "X" then 16%Z
                 else if Ascii.eqb x "o" || Ascii.eqb x "O" then 8%Z
                 else if Ascii.eqb x "b" || Ascii.eqb x "B" then 2%Z else 0%Z in
        match b, r with
        | 0%Z, _ | _, [] => nan
        | _, _ => match radix_value b r 0 with
                  | Some v => of_Z v
                  | None => nan
                  end
        end
      else match signed_decimal_prefix cs with
           | Some (x, []) => x
           | _ => nan
           end
  | _ => match signed_decimal_prefix cs with
         | Some (x, []) => x
         | _ => nan
         end
  end.

(** ToNumber on primitives. *)
Definition to_number (v : value) : number :=
  match v with
  | VNum n => n
  | VStr s => string_to_number s
  | VBool true => one
  | VBool false => zero
  | VUndef => nan
  | VNull => zero
  end.

(** [Math.max(a, b)] and [Math.min(a, b)] on numbers: NaN wins, and [+0] is
    larger than [-0]. *)
Definition math_max (a b : number) : number :=
  if is_nan a || is_nan b then nan
  else match a, b with
       | S754_zero sa, S754_zero sb => S754_zero (andb sa sb)
       | _, _ => if lt a b then b else a
       end.
Definition math_min (a b : number) : number :=
  if is_nan a || is_nan b then nan
  else match a, b with
       | S754_zero sa, S754_zero sb => S754_zero (orb sa sb)
       | _, _ => if lt b a then b else a
       end.

(** ** [String.prototype.replace] with a global regular expression *)

(** Captures of a match ([undefined] ones are [None]). *)
Definition captures := list (option (list ascii)).

(** A compiled regular expression: at position [p] of the input, the match
    chosen by the backtracking semantics, as its List.length and captures. *)
Definition matcher := list ascii -> nat -> option (nat * captures).

(** First match at a position [>= p] (RegExpBuiltinExec with [lastIndex = p]). *)
Fixpoint find_match (m : matcher) (s : list ascii) (p fuel : nat)
  : option (nat * nat * captures) :=
  match fuel with
  | O => None
  | S f =>
      if (List.length s <? p)%nat then None
      else match m s p with
           | Some (len, caps) => Some (p, len, caps)
           | None => find_match m s (S p) f
           end
  end.

(** All matches of a global regular expression, in order; an empty match
    advances [lastIndex] by one. *)
Fixpoint all_matches (m : matcher) (s : list ascii) (last fuel : nat)
  : list (nat * nat * captures) :=
  match fuel with
  | O => []
  | S f =>
      match find_match m s last (S (List.length s)) with
      | None => []
      | Some (p, len, caps) =>
          (p, len, caps) ::
          all_matches m s (if (len =? 0)%nat then S p else (p + len)%nat) f
      end
  end.

Definition capture_or_empty (caps : captures) (n : nat) : list ascii :=
  match nth_error caps (n - 1) with
  | Some (Some c) => c
  | _ => []
  end.

(** GetSubstitution: the replacement template with [$$], [$&], [$`], [$'],
    [$n] and [$nn] expanded. *)
Fixpoint substitution (tpl matched s : list ascii) (pos tail : nat)
  (caps : captures) : list ascii :=
  let m := List.length caps in
  match tpl with
  | [] => []
  | c :: r =>
      if negb (Ascii.eqb c "$") then c :: substitution r matched s pos tail caps
      else match r with
           | d :: r' =>
               if Ascii.eqb d "$" then "$"%char :: substitution r' matched s pos tail caps
               else if Ascii.eqb d "&" then matched ++ substitution r' matched s pos tail caps
               else if Ascii.eqb d "`" then firstn pos s ++ substitution r' matched s pos tail caps
               else if Ascii.eqb d "'" then skipn tail s ++ substitution r' matched s pos tail caps
               else if is_digit d then
                 let d1 := Z.to_nat (digit_val d) in
                 match r' with
                 | e :: r'' =>
                     let d12 := (d1 * 10 + Z.to_nat (digit_val e))%nat in
                     if is_digit e && (1 <=? d12)%nat && (d12 <=? m)%nat then
                       capture_or_empty caps d12 ++ substitution r'' matched s pos tail caps
                     else if (1 <=? d1)%nat && (d1 <=? m)%nat then
                       capture_or_empty caps d1 ++ substitution r' matched s pos tail caps
                     else c :: substitution r matched s pos tail caps
                 | [] =>
                     if (1 <=? d1)%nat && (d1 <=? m)%nat then
                       capture_or_empty caps d1 ++ substitution r' matched s pos tail caps
                     else c :: substitution r matched s pos tail caps
                 end
               else c :: substitution r matched s pos tail caps
           | [] => [c]
           end
  end.

Fixpoint splice (s tpl : list ascii) (ms : list (nat * nat * captures)) (next : nat)
  : list ascii :=
  match ms with
  | [] => skipn next s
  | (p, len, caps) :: r =>
      firstn (p - next) (skipn next s) ++
      substitution tpl (firstn len (skipn p s)) s p (p + len) caps ++
      splice s tpl r (p + len)
  end.

(** [s.replace(re, replacement)] for a global [re] and a replacement string. *)
Definition replace (m : matcher) (s replacement : string) : string :=
  let cs := list_ascii_of_string s in
  string_of_list_ascii
    (splice cs (list_ascii_of_string replacement)
       (all_matches m cs 0 (S (S (List.length cs)))) 0).

(** *** The regular expressions of [VM.eval] *)

(** A literal pattern such as [/ALTITUDE/g]. *)
Definition literal (pat : string) : matcher :=
  fun s p => let cs := list_ascii_of_string pat in
             if starts_with cs (skipn p s) then Some (List.length cs, []) else None.

(** [\b] at position [p]: exactly one of the neighbouring characters is a
    word character. *)
Definition word_boundary (s : list ascii) (p : nat) : bool :=
  let before := match p with
                | O => false
                | S q => match nth_error s q with Some c => is_word_char c | None => false end
                end in
  let after := match nth_error s p with Some c => is_word_char c | None => false end in
  xorb before after.

(** [/\bkey\b/g] for a key without metacharacters. *)
Definition word_literal (key : list ascii) : matcher :=
  fun s p =>
    if word_boundary s p && starts_with key (skipn p s) &&
       word_boundary s (p + List.length key) then Some (List.length key, []) else None.

Fixpoint span (f : ascii -> bool) (cs : list ascii) : list ascii * list ascii :=
  match cs with
  | c :: r => if f c then let '(a, b) := span f r in (c :: a, b) else ([], cs)
  | [] => ([], [])
  end.

Definition expect (c : ascii) (cs : list ascii) : option (list ascii) :=
  match cs with d :: r => if Ascii.eqb c d then Some r else None | [] => None end.

Definition nonempty {A} (l : list A) : bool :=
  match l with [] => false | _ => true end.

(** [/HEADING\s*\(\s*(\d+)\s*,\s*(\d+)\s*\)/g].  Every quantified class is
    followed by a character outside it, so the greedy match needs no
    backtracking. *)
Definition heading : matcher :=
  fun s p =>
    let r := skipn p s in
    if negb (starts_with (list_ascii_of_string "HEADING") r) then None else
    let r := skipn 7 r in
    let r := snd (span is_space r) in
    match expect "(" r with None => None | Some r =>
    let r := snd (span is_space r) in
    let '(d1, r) := span is_digit r in
    if negb (nonempty d1) then None else
    let r := snd (span is_space r) in
    match expect "," r with None => None | Some r =>
    let r := snd (span is_space r) in
    let '(d2, r) := span is_digit r in
    if negb (nonempty d2) then None else
    let r := snd (span is_space r) in
    match expect ")" r with None => None | Some r =>
      Some (List.length (skipn p s) - List.length r, [Some d1; Some d2])%nat
    end end end.

(** [/ROUND\(([^)]+)\)/g]: [[^)]+] stops at the first [)], which must be
    there. *)
Definition round : matcher :=
  fun s p =>
    let r := skipn p s in
    if negb (starts_with (list_ascii_of_string "ROUND(") r) then None else
    let '(arg, r') := span (fun c => negb (Ascii.eqb c ")")) (skipn 6 r) in
    if negb (nonempty arg) then None else
    match expect ")" r' with
    | Some _ => Some (6 + List.length arg + 1, [Some arg])%nat
    | None => None
    end.

(** Regular-expression metacharacters. *)
Definition is_regex_meta (c : ascii) : bool :=
  existsb (Ascii.eqb c) (list_ascii_of_string "\^$.|?*+()[]{}").

(** [new RegExp("\\b" + key + "\\b", "g")].  A key without metacharacters
    (every identifier, number, operator run of [-/=<>!] and quoted string
    without metacharacters) is matched literally between word boundaries;
    this is the case the model is exact on.  For a key with a metacharacter
    it answers a syntax error, which is what JavaScript reports for the keys
    [(], [)] and the keys starting with [*], [+] or [?]; for the others
    ([.], braces, ...) JavaScript builds a pattern this model does not
    cover, which is why the machine below takes the constructor as a
    parameter. *)
Definition regexp_of_key (key : string) : completion matcher :=
  if existsb is_regex_meta (list_ascii_of_string key) then
    Throw (SyntaxError ("Invalid regular expression: /\b" ++ key ++ "\b/g"))
  else Normal (word_literal (list_ascii_of_string key)).

(** ** [eval] on a fragment of ECMAScript

    The engine calls the builtin [eval] on the text it builds (inside a class
    body, hence in strict mode).  The model below covers scripts made of one
    expression statement over number and double-quoted string literals,
    [true], [false], [null], [undefined], [NaN], [Infinity], parentheses,
    the unary operators [! - +], the binary operators [* / + -], the
    relational operators [< > <= >=] and the equality operators
    [== != === !==]; calls and member accesses are parsed but not evaluated.
    [js_fragment] answers [None] on any other text (other identifiers, other
    operators, regular-expression literals, line breaks, ...): there the
    result depends on the global environment of the page. *)

Inductive jtok :=
| JNum (n : number)
| JStr (s : string)
| JIdent (s : string)
| JPunct (s : string).

Definition dquote : ascii := ascii_of_nat 34.

Definition is_ident_start (c : ascii) : bool :=
  is_alpha c || Ascii.eqb c "_" || Ascii.eqb c "$".
Definition is_ident_part (c : ascii) : bool := is_ident_start c || is_digit c.

Definition next_is (f : ascii -> bool) (cs : list ascii) : bool :=
  match cs with c :: _ => f c | [] => false end.

Definition one_of (chars : string) (c : ascii) : bool :=
  existsb (Ascii.eqb c) (list_ascii_of_string chars).

(** Punctuators of the fragment, each with the characters that would extend
    it into a longer punctuator of the full language. *)
Definition punctuators : list (string * string) :=
  [("===", EmptyString); ("!==", EmptyString); ("==", "="); ("!=", "="); ("<=", EmptyString);
   (">=", EmptyString); ("<", "=<"); (">", "=>"); ("+", "+="); ("-", "-=");
   ("*", "*="); ("/", "/*="); ("!", "="); ("(", EmptyString); (")", EmptyString);
   (",", EmptyString); (".", ".")].

Fixpoint match_punct (ps : list (string * string)) (cs : list ascii)
  : option (string * list ascii) :=
  match ps with
  | [] => None
  | (p, ext) :: ps' =>
      let pc := list_ascii_of_string p in
      if starts_with pc cs then
        let rest := skipn (List.length pc) cs in
        if next_is (one_of ext) rest then None else Some (p, rest)
      else match_punct ps' cs
  end.

(** Lexing: [None] outside the fragment, [Some (Throw _)] on a lexical
    error of the full language. *)
Fixpoint lex (fuel : nat) (cs : list ascii) : option (completion (list jtok)) :=
  match fuel with
  | O => None
  | S f =>
      let cons_tok t r :=
        match lex f r with
        | Some (Normal ts) => Some (Normal (t :: ts))
        | other => other
        end in
      match cs with
      | [] => Some (Normal [])
      | c :: r =>
          if is_line_terminator c then None
          else if is_space c then lex f r
          else if is_digit c || (Ascii.eqb c "." && next_is is_digit r) then
            if Ascii.eqb c "0" && next_is is_digit r then
              Some (Throw (SyntaxError "Decimals with leading zeros are not allowed in strict mode."))
            else if Ascii.eqb c "0" && next_is (one_of "xXoObB") r then None
            else match decimal_prefix cs with
                 | None => None
                 | Some (d, x, r') =>
                     if next_is (Ascii.eqb "_") r' then None
                     else if next_is is_ident_part r' then
                       Some (Throw (SyntaxError "Invalid or unexpected token"))
                     else cons_tok (JNum (of_decimal d x)) r'
                 end
          else if is_ident_start c then
            let '(w, r') := span is_ident_part cs in
            if next_is (fun c => (127 <? nat_of_ascii c)%nat || Ascii.eqb c "\") r'
            then None
            else cons_tok (JIdent (string_of_list_ascii w)) r'
          else if Ascii.eqb c dquote then
            let '(body, r') := span (fun c => negb (Ascii.eqb c dquote)) r in
            if existsb (Ascii.eqb "\") body then None
            else match r' with
                 | _ :: r'' => cons_tok (JStr (string_of_list_ascii body)) r''
                 | [] => Some (Throw (SyntaxError "Invalid or unexpected token"))
                 end
          else match match_punct punctuators cs with
               | Some (p, r') => cons_tok (JPunct p) r'
               | None => None
               end
      end
  end.

Inductive jexpr :=
| ENum (n : number)
| EStr (s : string)
| EIdent (s : string)
| EUnary (op : string) (e : jexpr)
| EBinary (op : string) (a b : jexpr)
| ECall (callee : jexpr)
| EMember (obj : jexpr) (name : string).

(** Outcome of a parsing function: unsupported syntax, a syntax error of
    the full language, or an expression and the remaining tokens. *)
Inductive presult :=
| PUnsupported
| PError
| POk (e : jexpr) (rest : list jtok).

Definition reserved_words : list string :=
  ["break"; "case"; "catch"; "class"; "const"; "continue"; "debugger";
   "default"; "delete"; "do"; "else"; "export"; "extends"; "finally"; "for";
   "function"; "if"; "import"; "in"; "instanceof"; "new"; "return"; "super";
   "switch"; "this"; "throw"; "try"; "typeof"; "var"; "void"; "while"; "with";
   "yield"; "let"; "static"; "implements"; "interface"; "package"; "private";
   "protected"; "public"; "await"; "async"; "of"; "arguments"; "eval"].

Definition is_reserved (w : string) : bool := existsb (String.eqb w) reserved_words.

(** A token that cannot continue an expression: a syntax error, except for
    the comma operator and the [in] and [instanceof] operators, which are
    outside the fragment. *)
Definition unexpected_after (ts : list jtok) : presult :=
  match ts with
  | JPunct "," :: _ | JIdent "in" :: _ | JIdent "instanceof" :: _ => PUnsupported
  | _ => PError
  end.

Definition binop_of (ops : list string) (ts : list jtok) : option (string * list jtok) :=
  match ts with
  | JPunct p :: r => if existsb (String.eqb p) ops then Some (p, r) else None
  | _ => None
  end.

Section Parser.
Variable expression : list jtok -> presult.

(** Call arguments after [(]: expressions separated by commas, a trailing
    comma allowed, up to [)]. *)
Fixpoint call_args (fuel : nat) (ts : list jtok) : option (option (list jtok)) :=
  match fuel with
  | O => None
  | S f =>
      match ts with
      | JPunct ")" :: r => Some (Some r)
      | _ =>
          match expression ts with
          | PUnsupported => None
          | PError => Some None
          | POk _ (JPunct ")" :: r) => Some (Some r)
          | POk _ (JPunct "," :: r) => call_args f r
          | POk _ _ => Some None
          end
      end
  end.
End Parser.

Fixpoint parse_expression (fuel : nat) (ts : list jtok) : presult :=
  match fuel with
  | O => PUnsupported
  | S f =>
      let primary (ts : list jtok) : presult :=
        match ts with
        | JNum n :: r => POk (ENum n) r
        | JStr s :: r => POk (EStr s) r
        | JIdent w :: r =>
            if is_reserved w then PUnsupported else POk (EIdent w) r
        | JPunct "(" :: r =>
            match parse_expression f r with
            | POk e (JPunct ")" :: r') => POk e r'
            | POk _ r' => unexpected_after r'
            | other => other
            end
        | JPunct "/" :: _ => PUnsupported
        | _ => PError
        end in
      let fix postfix (g : nat) (e : jexpr) (ts : list jtok) : presult :=
        match g with
        | O => PUnsupported
        | S g' =>
            match ts with
            | JPunct "(" :: r =>
                match call_args (parse_expression f) (S (List.length r)) r with
                | None => PUnsupported
                | Some None => PError
                | Some (Some r') => postfix g' (ECall e) r'
                end
            | JPunct "." :: JIdent w :: r => postfix g' (EMember e w) r
            | JPunct "." :: _ => PError
            | _ => POk e ts
            end
        end in
      let fix unary (g : nat) (ts : list jtok) : presult :=
        match g with
        | O => PUnsupported
        | S g' =>
            match binop_of ["!"; "-"; "+"] ts with
            | Some (op, r) =>
                match unary g' r with
                | POk e r' => POk (EUnary op e) r'
                | other => other
                end
            | None =>
                match primary ts with
                | POk e r => postfix (S (List.length r)) e r
                | other => other
                end
            end
        end in
      (* left-associative levels, from the tightest *)
      let level (ops : list string) (next : list jtok -> presult) :=
        fix go (g : nat) (acc : jexpr) (ts : list jtok) : presult :=
          match g with
          | O => PUnsupported
          | S g' =>
              match binop_of ops ts with
              | Some (op, r) =>
                  match next r with
                  | POk e r' => go g' (EBinary op acc e) r'
                  | other => other
                  end
              | None => POk acc ts
              end
          end in
      let chain (ops : list string) (next : list jtok -> presult) (ts : list jtok) :=
        match next ts with
        | POk e r => level ops next (S (List.length r)) e r
        | other => other
        end in
      let unary_top ts := unary (S (List.length ts)) ts in
      let multiplicative := chain ["*"; "/"] unary_top in
      let additive := chain ["+"; "-"] multiplicative in
      let relational := chain ["<"; ">"; "<="; ">="] additive in
      chain ["==="; "!=="; "=="; "!="] relational ts
  end.

(** A script: empty, or one expression statement. *)
Definition parse_script (ts : list jtok) : option (completion (option jexpr)) :=
  match ts with
  | [] => Some (Normal None)
  | _ =>
      match parse_expression (S (List.length ts)) ts with
      | PUnsupported => None
      | PError => Some (Throw (SyntaxError "Unexpected token"))
      | POk e [] => Some (Normal (Some e))
      | POk _ r => match unexpected_after r with
                   | PUnsupported => None
                   | _ => Some (Throw (SyntaxError "Unexpected token"))
                   end
      end
  end.

(** *** Evaluation of the fragment (no side effects, no exceptions) *)

Definition strict_equals (a b : value) : bool :=
  match a, b with
  | VNum x, VNum y => num_eqb x y
  | VStr x, VStr y => String.eqb x y
  | VBool x, VBool y => Bool.eqb x y
  | VUndef, VUndef | VNull, VNull => true
  | _, _ => false
  end.

(** IsLooselyEqual on primitives: between different types other than
    [null] and [undefined], both sides are compared as numbers. *)
Definition loose_equals (a b : value) : bool :=
  match a, b with
  | VUndef, VNull | VNull, VUndef => true
  | VUndef, _ | VNull, _ | _, VUndef | _, VNull => strict_equals a b
  | VNum _, VNum _ | VStr _, VStr _ | VBool _, VBool _ => strict_equals a b
  | _, _ => num_eqb (to_number a) (to_number b)
  end.

Fixpoint string_lt (a b : list ascii) : bool :=
  match a, b with
  | _, [] => false
  | [], _ :: _ => true
  | x :: a', y :: b' =>
      if (nat_of_ascii x <? nat_of_ascii y)%nat then true
      else if (nat_of_ascii y <? nat_of_ascii x)%nat then false
      else string_lt a' b'
  end.

(** IsLessThan: [None] stands for [undefined] (a NaN operand). *)
Definition less_than (a b : value) : option bool :=
  match a, b with
  | VStr x, VStr y => Some (string_lt (list_ascii_of_string x) (list_ascii_of_string y))
  | _, _ =>
      let x := to_number a in let y := to_number b in
      if is_nan x || is_nan y then None else Some (lt x y)
  end.

Definition binary (op : string) (a b : value) : option value :=
  let arith f := Some (VNum (f (to_number a) (to_number b))) in
  if String.eqb op "+" then
    match a, b with
    | VStr _, _ | _, VStr _ => Some (VStr (to_str a ++ to_str b))
    | _, _ => arith add
    end
  else if String.eqb op "-" then arith sub
  else if String.eqb op "*" then arith mul
  else if String.eqb op "/" then arith div
  else if String.eqb op "<" then Some (VBool (match less_than a b with Some true => true | _ => false end))
  else if String.eqb op ">" then Some (VBool (match less_than b a with Some true => true | _ => false end))
  else if String.eqb op "<=" then Some (VBool (match less_than b a with Some false => true | _ => false end))
  else if String.eqb op ">=" then Some (VBool (match less_than a b with Some false => true | _ => false end))
  else if String.eqb op "===" then Some (VBool (strict_equals a b))
  else if String.eqb op "!==" then Some (VBool (negb (strict_equals a b)))
  else if String.eqb op "==" then Some (VBool (loose_equals a b))
  else if String.eqb op "!=" then Some (VBool (negb (loose_equals a b)))
  else None.

Fixpoint eval_jexpr (e : jexpr) : option value :=
  match e with
  | ENum n => Some (VNum n)
  | EStr s => Some (VStr s)
  | EIdent w =>
      if String.eqb w "true" then Some (VBool true)
      else if String.eqb w "false" then Some (VBool false)
      else if String.eqb w "null" then Some VNull
      else if String.eqb w "undefined" then Some VUndef
      else if String.eqb w "NaN" then Some (VNum nan)
      else if String.eqb w "Infinity" then Some (VNum (S754_infinity false))
      else None
  | EUnary op e =>
      match eval_jexpr e with
      | Some v =>
          if String.eqb op "!" then Some (VBool (negb (truthy v)))
          else if String.eqb op "-" then Some (VNum (neg (to_number v)))
          else Some (VNum (to_number v))
      | None => None
      end
  | EBinary op a b =>
      match eval_jexpr a, eval_jexpr b with
      | Some x, Some y => binary op x y
      | _, _ => None
      end
  | ECall _ | EMember _ _ => None
  end.

(** [eval(src)] in strict mode, on the fragment. *)
Definition js_fragment (src : string) : option (completion value) :=
  let cs := list_ascii_of_string src in
  match lex (S (List.length cs)) cs with
  | None => None
  | Some (Throw e) => Some (Throw e)
  | Some (Normal ts) =>
      match parse_script ts with
      | None => None
      | Some (Throw e) => Some (Throw e)
      | Some (Normal None) => Some (Normal VUndef)
      | Some (Normal (Some e)) =>
          match eval_jexpr e with
          | Some v => Some (Normal v)
          | None => None
          end
      end
  end.

(** A total [eval] built on [js_fragment]: outside the fragment it answers
    [undefined].  Every concrete fact about a run of the engine below states
    that the texts it evaluates lie inside the fragment, so none depends on
    that default. *)
Definition eval_model (src : string) : completion value :=
  match js_fragment src with
  | Some c => c
  | None => Normal VUndef
  end.

End Js.

Local Open Scope string_scope.
Local Open Scope list_scope.

(** ** [Compiler.tokenize] *)

Inductive token_type := KEYWORD | ATOM.

Record token := { type : token_type; val : string }.

Definition keywords : list string :=
  ["PRINT"; "WAIT"; "LOCK"; "TO"; "STAGE"; "CLEARSCREEN"; "IF"; "ELSE";
   "UNTIL"; "AT"; "DECLARE"; "PARAMETER"; "SET"].

(** [v => ({ type: keywords.includes(v) ? 'KEYWORD' : 'ATOM', val: v })] *)
Definition mk_token (v : string) : token :=
  {| type := if existsb (String.eqb v) keywords then KEYWORD else ATOM; val := v |}.

(** [/\/\/.*/g]: [.] stops at line terminators. *)
Definition comment_re : Js.matcher :=
  fun s p =>
    let r := skipn p s in
    if Js.starts_with ["/"; "/"]%char r then
      Some (2 + List.length (fst (Js.span (fun c => negb (Js.is_line_terminator c)) (skipn 2 r))), [])%nat
    else None.

Definition is_name_char (c : ascii) : bool :=
  Js.is_alpha c || Js.is_digit c || Ascii.eqb c "_" || Ascii.eqb c ":".
Definition is_op_char (c : ascii) : bool := Js.one_of "-+*/=<>!" c.

(** The token expression of [tokenize]: a run of [[a-zA-Z0-9_:]], a
    double-quoted string, a run of operator characters [[-+*/=<>!]], or one
    of the marks [{ } ( ) , .]; the alternatives start with disjoint
    characters. *)
Definition token_re : Js.matcher :=
  fun s p =>
    match skipn p s with
    | [] => None
    | c :: r =>
        if is_name_char c then Some (List.length (fst (Js.span is_name_char (c :: r))), [])
        else if Ascii.eqb c Js.dquote then
          let '(body, r') := Js.span (fun c => negb (Ascii.eqb c Js.dquote)) r in
          match r' with
          | _ :: _ => Some (List.length body + 2, [])%nat
          | [] => None
          end
        else if is_op_char c then Some (List.length (fst (Js.span is_op_char (c :: r))), [])
        else if Js.one_of "{}(),." c then Some (1%nat, [])
        else None
    end.

(** [src.match(regex)]: the matched texts, [null] (here [[]]) if none. *)
Definition match_all (m : Js.matcher) (s : string) : list string :=
  let cs := list_ascii_of_string s in
  map (fun '(p, len, _) => string_of_list_ascii (firstn len (skipn p cs)))
      (Js.all_matches m cs 0 (S (S (List.length cs)))).

Definition tokenize (src : string) : list token :=
  let src := Js.replace comment_re src EmptyString in
  map mk_token (match_all token_re src).

(** ** Instructions *)

Inductive instr :=
| PRINT (expr : list string) (at_ : option (string * string))
| LOCK (target : string) (expr : list string)
| SET_VAR (target : string) (expr : list string)
| WAIT (time : Js.number)
| YIELD
| STAGE
| CLEAR
| JMP (dest : Z)
| JMP_TRUE (dest : Z) (expr : list string)
| JMP_FALSE (dest : Z) (expr : list string).

(** [instructions[k].dest = d]; only jump instructions are ever patched. *)
Definition set_dest (d : Z) (i : instr) : instr :=
  match i with
  | JMP _ => JMP d
  | JMP_TRUE _ e => JMP_TRUE d e
  | JMP_FALSE _ e => JMP_FALSE d e
  | other => other
  end.

Fixpoint patch (k : nat) (d : Z) (l : list instr) : list instr :=
  match l, k with
  | [], _ => []
  | i :: r, O => set_dest d i :: r
  | i :: r, S k' => i :: patch k' d r
  end.

(** ** [Compiler.compile] *)

(** Block-stack entries [{type:'IF', idx}], [{type:'ELSE', idx}] and
    [{type:'UNTIL', idx, start}]. *)
Inductive block :=
| IfBlock (idx : nat)
| ElseBlock (idx : nat)
| UntilBlock (idx start : nat).

Definition block_idx (b : block) : nat :=
  match b with IfBlock i | ElseBlock i | UntilBlock i _ => i end.

(** The compiler's locals: [instructions], [stack] (top first) and
    [lastClosedIf]. *)
Record cstate := {
  instructions : list instr;
  stack : list block;
  lastClosedIf : option block
}.

Definition cinit : cstate := {| instructions := []; stack := []; lastClosedIf := None |}.

Definition emit (i : instr) (st : cstate) : cstate :=
  {| instructions := instructions st ++ [i]; stack := stack st;
     lastClosedIf := lastClosedIf st |}.

Definition patch_at (k : nat) (d : nat) (st : cstate) : cstate :=
  {| instructions := patch k (Z.of_nat d) (instructions st); stack := stack st;
     lastClosedIf := lastClosedIf st |}.

Definition set_stack (s : list block) (st : cstate) : cstate :=
  {| instructions := instructions st; stack := s; lastClosedIf := lastClosedIf st |}.

Definition set_last (l : option block) (st : cstate) : cstate :=
  {| instructions := instructions st; stack := stack st; lastClosedIf := l |}.

Definition pc_of (st : cstate) : nat := List.length (instructions st).

(** [gather(idx)] on the tokens from [idx]: the values up to the first [{],
    [.] or [AT], and how many were taken ([end - idx]). *)
Fixpoint gather (ts : list token) : list string * nat :=
  match ts with
  | [] => ([], O)
  | t :: r =>
      if String.eqb (val t) "{" || String.eqb (val t) "." || String.eqb (val t) "AT"
      then ([], O)
      else let '(sub, n) := gather r in (val t :: sub, S n)
  end.

Definition undefined_val : Js.error :=
  Js.TypeError "Cannot read properties of undefined (reading 'val')".

(** [tokens[i + k].val], the tokens seen from [i]. *)
Definition val_at (ts : list token) (k : nat) : Js.completion string :=
  match nth_error ts k with
  | Some t => Js.Normal (val t)
  | None => Js.Throw undefined_val
  end.

Notation "x <- c ;; k" :=
  (match c with Js.Normal x => k | Js.Throw e => Js.Throw e end)
  (at level 61, c at next level, right associativity).

(** One iteration of the [for] loop, with [ts] the tokens from [i]: the
    new value of [i] as an offset from [i] (before the loop's [i++]) and the
    new locals. *)
Definition compile_step (ts : list token) (st : cstate) : Js.completion (nat * cstate) :=
  match ts with
  | [] => Js.Normal (O, st)
  | t :: _ =>
      if (match type t with KEYWORD => false | ATOM => true end) &&
         negb (String.eqb (val t) "}") then Js.Normal (O, st)
      else if String.eqb (val t) "PRINT" then
        let '(sub, n) := gather (skipn 1 ts) in
        let j := S n in
        match nth_error ts j with
        | Some tk =>
            if String.eqb (val tk) "AT" then
              x <- val_at ts (j + 2) ;;
              y <- val_at ts (j + 4) ;;
              Js.Normal (j + 5, emit (PRINT sub (Some (x, y))) st)%nat
            else Js.Normal (j, emit (PRINT sub None) st)
        | None => Js.Normal (j, emit (PRINT sub None) st)
        end
      else if String.eqb (val t) "LOCK" then
        target <- val_at ts 1 ;;
        let '(sub, n) := gather (skipn 3 ts) in
        Js.Normal (3 + n, emit (LOCK target sub) st)%nat
      else if String.eqb (val t) "SET" then
        target <- val_at ts 1 ;;
        let '(sub, n) := gather (skipn 3 ts) in
        Js.Normal (3 + n, emit (SET_VAR target sub) st)%nat
      else if String.eqb (val t) "DECLARE" then
        match nth_error ts 1 with
        | Some t1 =>
            if String.eqb (val t1) "PARAMETER" then
              param <- val_at ts 2 ;;
              Js.Normal (2%nat, emit (SET_VAR param ["0"]) st)
            else Js.Normal (O, st)
        | None => Js.Normal (O, st)
        end
      else if String.eqb (val t) "WAIT" then
        w <- val_at ts 1 ;;
        if String.eqb w "UNTIL" then
          let startPc := pc_of st in
          let '(sub, n) := gather (skipn 2 ts) in
          Js.Normal (2 + n,
            emit (JMP (Z.of_nat startPc))
              (emit YIELD (emit (JMP_TRUE (Z.of_nat (startPc + 3)) sub) st)))%nat
        else Js.Normal (1%nat, emit (WAIT (Js.parse_float w)) st)
      else if String.eqb (val t) "STAGE" then Js.Normal (O, emit STAGE st)
      else if String.eqb (val t) "CLEARSCREEN" then Js.Normal (O, emit CLEAR st)
      else if String.eqb (val t) "IF" then
        let '(sub, n) := gather (skipn 1 ts) in
        let idx := pc_of st in
        let st1 := emit (JMP_FALSE (-1) sub) st in
        Js.Normal (S n, set_stack (IfBlock idx :: stack st1) st1)
      else if String.eqb (val t) "ELSE" then
        match lastClosedIf st with
        | Some info =>
            let jmpIdx := pc_of st in
            let st1 := emit (JMP (-1)) st in
            let st2 := patch_at (block_idx info) (pc_of st1) st1 in
            let st3 := set_stack (ElseBlock jmpIdx :: stack st2) st2 in
            Js.Normal (1%nat, set_last None st3)
        | None => Js.Normal (1%nat, st)
        end
      else if String.eqb (val t) "UNTIL" then
        let start := pc_of st in
        let '(sub, n) := gather (skipn 1 ts) in
        let idx := pc_of st in
        let st1 := emit (JMP_TRUE (-1) sub) st in
        Js.Normal (S n, set_stack (UntilBlock idx start :: stack st1) st1)
      else if String.eqb (val t) "}" then
        match stack st with
        | [] => Js.Normal (O, st)
        | info :: rest =>
            let st0 := set_stack rest st in
            match info with
            | UntilBlock idx start =>
                let st1 := emit (JMP (Z.of_nat start)) (emit YIELD st0) in
                Js.Normal (O, patch_at idx (pc_of st1) st1)
            | IfBlock idx =>
                Js.Normal (O, set_last (Some info) (patch_at idx (pc_of st0) st0))
            | ElseBlock idx =>
                Js.Normal (O, patch_at idx (pc_of st0) st0)
            end
        end
      else Js.Normal (O, st)
  end.

(** The [for (i = 0; i < tokens.length; i++)] loop; each iteration moves
    [i] forward, so [length ts] iterations suffice. *)
Fixpoint compile_loop (fuel : nat) (ts : list token) (st : cstate) : Js.completion cstate :=
  match fuel with
  | O => Js.Normal st
  | S f =>
      match ts with
      | [] => Js.Normal st
      | _ :: _ =>
          r <- compile_step ts st ;;
          let '(d, st') := r in
          compile_loop f (skipn (S d) ts) st'
      end
  end.

Definition compile_tokens_state (ts : list token) : Js.completion cstate :=
  compile_loop (List.length ts) ts cinit.

Definition compile_tokens (ts : list token) : Js.completion (list instr) :=
  st <- compile_tokens_state ts ;; Js.Normal (instructions st).

Definition compile (source : string) : Js.completion (list instr) :=
  compile_tokens (tokenize source).

(** The iterations of the loop: from the tokens [ts] (those from [i]) and
    the locals [st], the loop goes on with the tokens from the new [i + 1]
    and the new locals. *)
Inductive reaches : list token -> cstate -> list token -> cstate -> Prop :=
| reaches_here ts st : reaches ts st ts st
| reaches_next t r st d st' ts'' st'' :
    compile_step (t :: r) st = Js.Normal (d, st') ->
    reaches (skipn (S d) (t :: r)) st' ts'' st'' ->
    reaches (t :: r) st ts'' st''.

(** ** The virtual machine *)

(** The physics collaborator: the fields the machine reads and writes, and
    [getOrbit()] of its current state (the fields [VM.eval] reads). *)
Record telemetry := { alt : Js.number; ap : Js.number; pe : Js.number; eta : Js.number }.

Record physics := {
  massDry : Js.number;
  fuelStart : Js.number;
  stages : Js.number;
  fuel : Js.number;
  throttle : Js.number;
  steeringTarget : Js.value;
  orbit : telemetry
}.

(** A call of the log sink [log(msg, level, at)]. *)
Record log_entry := {
  msg : Js.value;
  level : option string;
  log_at : option (string * string)
}.

(** [this.vars]: its own properties in insertion order, and whether its
    prototype is still [Object.prototype] ([proto_null = false]) or was set
    to [null] by a write of [null] to [__proto__].  Neither prototype has
    enumerable properties.  The values are those of [Js.value]; a
    prototype set to an object (which [eval] can return) is outside the
    development. *)
Record store := {
  own : list (string * Js.value);
  proto_null : bool
}.

(** [{}] *)
Definition empty_store : store := {| own := []; proto_null := false |}.

(** An object literal with these properties. *)
Definition store_of (l : list (string * Js.value)) : store :=
  {| own := l; proto_null := false |}.

Record vm := {
  phys : physics;
  prog : list instr;        (* [this.instructions] *)
  pc : Z;
  running : bool;
  waitTimer : Js.number;
  vars : store;
  logs : list log_entry     (* the calls of [this.log], oldest first *)
}.

Definition set_phys (p : physics) (st : vm) : vm :=
  {| phys := p; prog := prog st; pc := pc st; running := running st;
     waitTimer := waitTimer st; vars := vars st; logs := logs st |}.
Definition set_pc (n : Z) (st : vm) : vm :=
  {| phys := phys st; prog := prog st; pc := n; running := running st;
     waitTimer := waitTimer st; vars := vars st; logs := logs st |}.
Definition set_running (b : bool) (st : vm) : vm :=
  {| phys := phys st; prog := prog st; pc := pc st; running := b;
     waitTimer := waitTimer st; vars := vars st; logs := logs st |}.
Definition set_waitTimer (w : Js.number) (st : vm) : vm :=
  {| phys := phys st; prog := prog st; pc := pc st; running := running st;
     waitTimer := w; vars := vars st; logs := logs st |}.
Definition set_vars (v : store) (st : vm) : vm :=
  {| phys := phys st; prog := prog st; pc := pc st; running := running st;
     waitTimer := waitTimer st; vars := v; logs := logs st |}.
Definition set_prog (p : list instr) (st : vm) : vm :=
  {| phys := phys st; prog := p; pc := pc st; running := running st;
     waitTimer := waitTimer st; vars := vars st; logs := logs st |}.

Definition log (m : Js.value) (lvl : option string) (a : option (string * string))
  (st : vm) : vm :=
  {| phys := phys st; prog := prog st; pc := pc st; running := running st;
     waitTimer := waitTimer st; vars := vars st;
     logs := logs st ++ [{| msg := m; level := lvl; log_at := a |}] |}.

(** *** The variable store as a JavaScript object *)

(** Array-index keys: canonical decimal integers below [2^32 - 1]. *)
Definition array_index (k : string) : option Z :=
  match list_ascii_of_string k with
  | [] => None
  | c :: r =>
      if Ascii.eqb c "0" then (match r with [] => Some 0%Z | _ => None end)
      else if forallb Js.is_digit (c :: r) then
        let v := fst (fst (Js.take_digits (c :: r) 0 0)) in
        if (v <? 4294967295)%Z then Some v else None
      else None
  end.

(** [obj[k] = v] on the own properties: replaces the value in place or adds
    the key last. *)
Fixpoint set_own (k : string) (v : Js.value) (l : list (string * Js.value))
  : list (string * Js.value) :=
  match l with
  | [] => [(k, v)]
  | (k', v') :: r =>
      if String.eqb k k' then (k, v) :: r else (k', v') :: set_own k v r
  end.

Fixpoint get_own (k : string) (l : list (string * Js.value)) : Js.value :=
  match l with
  | [] => Js.VUndef
  | (k', v) :: r => if String.eqb k k' then v else get_own k r
  end.

(** [obj[k] = v] with a primitive [v].  While the prototype is
    [Object.prototype], [__proto__] is its accessor: [null] replaces the
    prototype, any other primitive is ignored.  Once the prototype is
    [null], [__proto__] is a plain key. *)
Definition store_set (k : string) (v : Js.value) (s : store) : store :=
  if String.eqb k "__proto__" && negb (proto_null s) then
    match v with
    | Js.VNull => {| own := own s; proto_null := true |}
    | _ => s
    end
  else {| own := set_own k v (own s); proto_null := proto_null s |}.

(** [obj[k]] for a key the store has, or one neither prototype has. *)
Definition store_get (k : string) (s : store) : Js.value := get_own k (own s).


Fixpoint insert_index (k : string) (i : Z) (l : list (string * Z)) : list (string * Z) :=
  match l with
  | [] => [(k, i)]
  | (k', i') :: r => if (i <? i')%Z then (k, i) :: l else (k', i') :: insert_index k i r
  end.

(** [for (let key in obj)]: array indices in increasing order, then the
    other keys in insertion order. *)
Definition keys_in_order (s : store) : list string :=
  let idx := fold_left (fun acc '(k, _) =>
                match array_index k with Some i => insert_index k i acc | None => acc end)
                (own s) [] in
  map fst idx ++
  map fst (filter (fun '(k, _) => match array_index k with Some _ => false | None => true end)
             (own s)).

(** [tokens.join(' ')] *)
Fixpoint join_space (l : list string) : string :=
  match l with
  | [] => EmptyString
  | [x] => x
  | x :: r => x ++ " " ++ join_space r
  end.

(** The literal [0.6]. *)
Definition retention : Js.number := Js.of_decimal 6 (-1).

Definition op_error : Js.error :=
  Js.TypeError "Cannot read properties of undefined (reading 'op')".

(** [this.instructions[this.pc]] *)
Definition fetch (p : list instr) (n : Z) : option instr :=
  if (n <? 0)%Z then None else nth_error p (Z.to_nat n).

(** Result of [tick]: the machine state reached, and the positions of the
    instructions the call executed, in order (a ghost record of the loop's
    iterations); when the call throws, the state at the throw. *)
Inductive outcome :=
| Done (st : vm) (trace : list Z)
| Raised (e : Js.error) (st : vm) (trace : list Z).

Section Machine.

(** The builtin [eval], applied to the text [VM.eval] builds.  It is a
    direct [eval] inside a method of the machine: the text sees [this] (the
    machine) and the page's globals, so it can read and write [pc], the
    program, [running], the variables or the physics.  [js_eval str st] is
    the completion of the call and the machine it leaves, also when it
    throws.  Its values range over [Js.value]; the state it leaves over
    [vm].  Writes to parts of the page the record [vm] does not hold are
    not represented; nor is a call of [tick] from the text, whose
    instructions count as part of that one evaluation. *)
Variable js_eval : string -> vm -> Js.completion Js.value * vm.

(** [new RegExp("\\b" + key + "\\b", "g")] for a variable name [key];
    [Js.regexp_of_key] models it on names without metacharacters. *)
Variable new_RegExp : string -> Js.completion Js.matcher.

(** The text [VM.eval(tokens)] hands to [eval]: the telemetry
    substitutions, then one per variable.  The [RegExp] built from a
    variable name may throw.  The replacement value is a primitive other
    than a Symbol, whose ToString does not throw. *)
Definition vm_subst (st : vm) (tokens : list string) : Js.completion string :=
  let p := phys st in
  let o := orbit p in
  let str := join_space tokens in
  let str := Js.replace Js.heading str "$2" in
  let str := Js.replace (Js.literal "ALTITUDE") str (Js.to_string (alt o)) in
  let str := Js.replace (Js.literal "APOAPSIS") str (Js.to_string (ap o)) in
  let str := Js.replace (Js.literal "PERIAPSIS") str (Js.to_string (pe o)) in
  let str := Js.replace (Js.literal "ETA:APOAPSIS") str (Js.to_string (eta o)) in
  let str := Js.replace (Js.literal "FUEL") str
               (Js.to_string (Js.div (fuel p) (fuelStart p))) in
  let str := Js.replace (Js.literal "THROTTLE") str (Js.to_string (throttle p)) in
  let str := Js.replace Js.round str "Math.round($1)" in
  let fix subst_vars (ks : list string) (str : string) : Js.completion string :=
    match ks with
    | [] => Js.Normal str
    | key :: ks' =>
        re <- new_RegExp key ;;
        subst_vars ks' (Js.replace re str (Js.to_str (store_get key (vars st))))
    end in
  subst_vars (keys_in_order (vars st)) str.

(** [VM.eval(tokens)]: [eval] of that text, exceptions turned into [0];
    the value and the machine after the call. *)
Definition vm_eval (st : vm) (tokens : list string) : Js.completion (Js.value * vm) :=
  str <- vm_subst st tokens ;;
  match js_eval str st with
  | (Js.Normal v, st') => Js.Normal (v, st')
  | (Js.Throw _, st') => Js.Normal (Js.VNum Js.zero, st')
  end.

Definition advance (st : vm) : vm := set_pc (pc st + 1) st.

(** One instruction other than [YIELD] and [WAIT] (the [if]/[else if]
    chain of the loop body).  [cmd] was read before the evaluation; what
    follows it ([this.log], [this.phys], [this.vars], [this.pc]) reads the
    machine the evaluation left. *)
Definition exec (cmd : instr) (st : vm) : Js.completion vm :=
  match cmd with
  | PRINT expr a =>
      r <- vm_eval st expr ;;
      let '(v, st) := r in
      Js.Normal (advance (log v (Some "info") a st))
  | LOCK target expr =>
      r <- vm_eval st expr ;;
      let '(v, st) := r in
      let p := phys st in
      let p := if String.eqb target "THROTTLE" then
                 {| massDry := massDry p; fuelStart := fuelStart p; stages := stages p;
                    fuel := fuel p;
                    throttle := Js.math_min (Js.math_max (Js.to_number v) Js.zero) Js.one;
                    steeringTarget := steeringTarget p; orbit := orbit p |}
               else p in
      let p := if String.eqb target "STEERING" then
                 {| massDry := massDry p; fuelStart := fuelStart p; stages := stages p;
                    fuel := fuel p; throttle := throttle p;
                    steeringTarget := v; orbit := orbit p |}
               else p in
      Js.Normal (advance (set_phys p st))
  | SET_VAR target expr =>
      r <- vm_eval st expr ;;
      let '(v, st) := r in
      Js.Normal (advance (set_vars (store_set target v (vars st)) st))
  | STAGE =>
      let p := phys st in
      if Js.lt Js.zero (stages p) then
        let p' := {| massDry := Js.mul (massDry p) retention;
                     fuelStart := fuelStart p;
                     stages := Js.sub (stages p) Js.one;
                     fuel := fuelStart p;
                     throttle := throttle p;
                     steeringTarget := steeringTarget p;
                     orbit := orbit p |} in
        Js.Normal (advance (log (Js.VStr "STAGED") (Some "warn") None (set_phys p' st)))
      else Js.Normal (advance st)
  | CLEAR => Js.Normal (advance (log (Js.VStr "CLEAR") None None st))
  | JMP dest => Js.Normal (set_pc dest st)
  | JMP_FALSE dest expr =>
      r <- vm_eval st expr ;;
      let '(v, st) := r in
      Js.Normal (set_pc (if Js.truthy v then pc st + 1 else dest) st)
  | JMP_TRUE dest expr =>
      r <- vm_eval st expr ;;
      let '(v, st) := r in
      Js.Normal (set_pc (if Js.truthy v then dest else pc st + 1) st)
  | YIELD | WAIT _ => Js.Normal st
  end.

(** The [while (steps < 20 && this.pc < this.instructions.length)] loop,
    [budget] being [20 - steps]. *)
Fixpoint batch (budget : nat) (st : vm) (tr : list Z) : outcome :=
  match budget with
  | O => Done st tr
  | S b =>
      if (pc st <? Z.of_nat (List.length (prog st)))%Z then
        let tr' := tr ++ [pc st] in
        match fetch (prog st) (pc st) with
        | None => Raised op_error st tr'
        | Some YIELD => Done (advance st) tr'
        | Some (WAIT t) => Done (advance (set_waitTimer t st)) tr'
        | Some cmd =>
            match exec cmd st with
            | Js.Normal st' => batch b st' tr'
            | Js.Throw e => Raised e st tr'
            end
        end
      else Done st tr
  end.

Definition step_budget : nat := 20.

(** [VM.tick(dt)] *)
Definition tick (dt : Js.number) (st : vm) : outcome :=
  if negb (running st) then Done st []
  else if Js.lt Js.zero (waitTimer st) then
    Done (set_waitTimer (Js.sub (waitTimer st) dt) st) []
  else
    match batch step_budget st [] with
    | Done st' tr =>
        if (Z.of_nat (List.length (prog st')) <=? pc st')%Z && running st' then
          Done (log (Js.VStr "Program Ended.") (Some "sys") None (set_running false st')) tr
        else Done st' tr
    | Raised e st' tr => Raised e st' tr
    end.

(** One iteration of the loop of [tick] that does not throw: the
    instruction at [pc] runs and the machine goes from [st] to [st']. *)
Definition vm_step (st st' : vm) : Prop :=
  (0 <= pc st < Z.of_nat (List.length (prog st)))%Z /\
  match fetch (prog st) (pc st) with
  | Some YIELD => st' = advance st
  | Some (WAIT t) => st' = advance (set_waitTimer t st)
  | Some cmd => exec cmd st = Js.Normal st'
  | None => False
  end.

(** What happens to the machine between two instructions other than an
    instruction: the host's physics updates, [tick]'s countdown of
    [waitTimer] and its end-of-program check, logging.  None of them moves
    [pc] or replaces the program. *)
Definition host_move (st st' : vm) : Prop :=
  pc st' = pc st /\ prog st' = prog st.

(** Executions: instructions and host moves, every instruction run from a
    position in [[lo, hi)]. *)
Inductive path (lo hi : Z) : vm -> vm -> Prop :=
| path_refl st : path lo hi st st
| path_step st st' st'' :
    (lo <= pc st < hi)%Z -> vm_step st st' -> path lo hi st' st'' -> path lo hi st st''
| path_host st st' st'' :
    host_move st st' -> path lo hi st' st'' -> path lo hi st st''.

End Machine.

(** Evaluations that leave [pc] and the program as they found them (the
    text may still read the machine, and write its other fields). *)
Definition eval_keeps_control (js_eval : string -> vm -> Js.completion Js.value * vm)
  : Prop :=
  forall str st, pc (snd (js_eval str st)) = pc st /\ prog (snd (js_eval str st)) = prog st.

(** The [eval] of the examples: [Js.eval_model] on the text, leaving the
    machine as it is. *)
Definition text_eval (str : string) (st : vm) : Js.completion Js.value * vm :=
  (Js.eval_model str, st).

(** [VM.run(code)] *)
Definition run (code : string) (st : vm) : vm :=
  let st := set_vars empty_store st in
  match compile code with
  | Js.Normal p =>
      log (Js.VStr "Program Loaded.") (Some "sys") None
        (set_waitTimer Js.zero (set_running true (set_pc 0 (set_prog p st))))
  | Js.Throw e =>
      log (Js.VStr ("Compile Error: " ++ Js.message e)) (Some "err") None st
  end.

(** ** Well-formed scripts

    A grammar of scripts as their authors write them: simple statements
    ended by [.], and [IF], [IF]/[ELSE] and [UNTIL] with braced bodies.
    An expression is any token sequence without [{], [.] and [AT] (the
    tokens at which [gather] stops). *)

Inductive stmt :=
| SPrint (e : list string)
| SPrintAt (e : list string) (x y : string)
| SLock (x : string) (e : list string)
| SSet (x : string) (e : list string)
| SDeclare (x : string)
| SWait (t : string)
| SWaitUntil (e : list string)
| SStage
| SClear
| SIf (e : list string) (b : body)
| SIfElse (e : list string) (b1 b2 : body)
| SUntil (e : list string) (b : body)
with body :=
| BNil
| BCons (s : stmt) (b : body).

Definition expr_ok (e : list string) : bool :=
  forallb (fun v => negb (String.eqb v "{" || String.eqb v "." || String.eqb v "AT")) e.

Fixpoint stmt_ok (s : stmt) : bool :=
  match s with
  | SPrint e | SPrintAt e _ _ | SLock _ e | SSet _ e | SWaitUntil e => expr_ok e
  | SWait t => negb (String.eqb t "UNTIL")
  | SDeclare _ | SStage | SClear => true
  | SIf e b | SUntil e b => expr_ok e && body_ok b
  | SIfElse e b1 b2 => expr_ok e && body_ok b1 && body_ok b2
  end
with body_ok (b : body) : bool :=
  match b with
  | BNil => true
  | BCons s b' => stmt_ok s && body_ok b'
  end.

(** The token values of a statement. *)
Fixpoint render (s : stmt) : list string :=
  match s with
  | SPrint e => "PRINT" :: e ++ ["."]
  | SPrintAt e x y => "PRINT" :: e ++ ["AT"; "("; x; ","; y; ")"]
  | SLock x e => "LOCK" :: x :: "TO" :: e ++ ["."]
  | SSet x e => "SET" :: x :: "TO" :: e ++ ["."]
  | SDeclare x => ["DECLARE"; "PARAMETER"; x; "."]
  | SWait t => ["WAIT"; t; "."]
  | SWaitUntil e => "WAIT" :: "UNTIL" :: e ++ ["."]
  | SStage => ["STAGE"; "."]
  | SClear => ["CLEARSCREEN"; "."]
  | SIf e b => "IF" :: e ++ ["{"] ++ render_body b ++ ["}"]
  | SIfElse e b1 b2 =>
      "IF" :: e ++ ["{"] ++ render_body b1 ++ ["}"; "ELSE"; "{"] ++ render_body b2 ++ ["}"]
  | SUntil e b => "UNTIL" :: e ++ ["{"] ++ render_body b ++ ["}"]
  end
with render_body (b : body) : list string :=
  match b with
  | BNil => []
  | BCons s b' => render s ++ render_body b'
  end.

(** The tokens of a script of the grammar, as [tokenize] returns them. *)
Definition script_tokens (b : body) : list token := map mk_token (render_body b).

(** The code of a statement compiled at position [n]. *)
Fixpoint ccomp (n : nat) (s : stmt) : list instr :=
  match s with
  | SPrint e => [PRINT e None]
  | SPrintAt e x y => [PRINT e (Some (x, y))]
  | SLock x e => [LOCK x e]
  | SSet x e => [SET_VAR x e]
  | SDeclare x => [SET_VAR x ["0"]]
  | SWait t => [WAIT (Js.parse_float t)]
  | SWaitUntil e => [JMP_TRUE (Z.of_nat (n + 3)) e; YIELD; JMP (Z.of_nat n)]
  | SStage => [STAGE]
  | SClear => [CLEAR]
  | SIf e b =>
      let cb := ccomp_body (S n) b in
      JMP_FALSE (Z.of_nat (S n + List.length cb)) e :: cb
  | SIfElse e b1 b2 =>
      let c1 := ccomp_body (S n) b1 in
      let k := (S n + List.length c1)%nat in
      let c2 := ccomp_body (S k) b2 in
      JMP_FALSE (Z.of_nat (S k)) e :: c1 ++ JMP (Z.of_nat (S k + List.length c2)) :: c2
  | SUntil e b =>
      let cb := ccomp_body (S n) b in
      JMP_TRUE (Z.of_nat (S n + List.length cb + 2)) e :: cb ++ [YIELD; JMP (Z.of_nat n)]
  end
with ccomp_body (n : nat) (b : body) : list instr :=
  match b with
  | BNil => []
  | BCons s b' => let c := ccomp n s in c ++ ccomp_body (n + List.length c) b'
  end.

(** Every statement of a script, nested ones included, with the position of
    its code. *)
Fixpoint layout (n : nat) (s : stmt) : list (nat * stmt) :=
  (n, s) ::
  match s with
  | SIf _ b | SUntil _ b => layout_body (S n) b
  | SIfElse _ b1 b2 =>
      layout_body (S n) b1 ++
      layout_body (S (S n + List.length (ccomp_body (S n) b1))) b2
  | _ => []
  end
with layout_body (n : nat) (b : body) : list (nat * stmt) :=
  match b with
  | BNil => []
  | BCons s b' => layout n s ++ layout_body (n + List.length (ccomp n s)) b'
  end.

(** Jump destinations of a program. *)
Definition dest_of (i : instr) : option Z :=
  match i with
  | JMP d | JMP_TRUE d _ | JMP_FALSE d _ => Some d
  | _ => None
  end.

Definition dests_within (lo hi : Z) (p : list instr) : Prop :=
  Forall (fun i => match dest_of i with Some d => (lo <= d <= hi)%Z | None => True end) p.

(** The compiler's loop from a suffix of the tokens, with as many
    iterations as there are tokens left. *)
Definition compile_from (ts : list token) (st : cstate) : Js.completion cstate :=
  compile_loop (List.length ts) ts st.

Scheme stmt_mut := Induction for stmt Sort Prop
with body_mut := Induction for body Sort Prop.
Combined Scheme stmt_body_mut from stmt_mut, body_mut.

(** The positions the machine can go to from instruction [ins] at [i]. *)
Definition succs (i : Z) (ins : instr) : list Z :=
  match ins with
  | JMP d => [d]
  | JMP_TRUE d _ | JMP_FALSE d _ => [(i + 1)%Z; d]
  | _ => [(i + 1)%Z]
  end.

(** The parts of [IF cond { A } ELSE { B }] compiled at [n]: the guard is
    at [n], A's code starts at [then_start n], the jump over B is at
    [else_jump n b1], B's code starts at [else_start n b1], and the
    statement's code ends at [if_end n b1 b2]. *)
Definition then_start (n : nat) : nat := S n.
Definition else_jump (n : nat) (b1 : body) : nat :=
  (S n + List.length (ccomp_body (S n) b1))%nat.
Definition else_start (n : nat) (b1 : body) : nat := S (else_jump n b1).
Definition if_end (n : nat) (b1 b2 : body) : nat :=
  (else_start n b1 + List.length (ccomp_body (else_start n b1) b2))%nat.

(** ** The frontend's terminal *)

(** [Number.prototype.toFixed(2)] (ECMAScript 21.1.3.3) on a finite value
    [(-1) ^ neg * num / den]: the sign, then, below [10 ^ 21], the integer
    [n] nearest to [100 * num / den] (the larger one on a tie) written with
    a point before its last two digits, after padding with zeros to three
    digits; from [10 ^ 21] on, [ToString] of the magnitude. *)
Definition fixed2_of (neg : bool) (num den : Z) (big : string) : string :=
  let sign := if neg then "-" else EmptyString in
  if (10 ^ 21 * den <=? num)%Z then (sign ++ big)%string
  else
    let n := ((200 * num + den) / (2 * den))%Z in
    let m := Js.string_of_nonneg n in
    let k := String.length m in
    let '(m, k) := if (k <=? 2)%nat then ((Js.zeros (3 - k) ++ m)%string, 3%nat)
                   else (m, k) in
    (sign ++ substring 0 (k - 2) m ++ "." ++ substring (k - 2) 2 m)%string.

Definition to_fixed2 (x : Js.number) : string :=
  match x with
  | S754_nan | S754_infinity _ => Js.to_string x
  | S754_zero _ => fixed2_of false 0 1 EmptyString
  | S754_finite neg m e =>
      let '(num, den) := Js.frac_of m e in
      fixed2_of neg num den (Js.to_string (S754_finite false m e))
  end.

(** The last two digits of [n], from [r = n mod 100]. *)
Definition two_digits (r : Z) : string :=
  String (Js.digit_char (r / 10)) (String (Js.digit_char (r mod 10)) EmptyString).

(** A line of the terminal: [className] and [innerText]. *)
Definition term_line : Type := (string * string)%type.

(** The text after ["> "]: numbers through [toFixed(2)]. *)
Definition log_text (m : Js.value) : string :=
  match m with
  | Js.VNum x => to_fixed2 x
  | v => Js.to_str v
  end.

(** [logTerminal(msg, type = "info", at = null)] on the terminal's lines;
    a missing [type] ([undefined]) takes the default. *)
Definition logTerminal (m : Js.value) (type : option string) (term : list term_line)
  : list term_line :=
  let line := (("term-line log-" ++ match type with Some t => t | None => "info" end)%string,
               ("> " ++ log_text m)%string) in
  match m with
  | Js.VUndef | Js.VNull => term
  | Js.VStr s => if String.eqb s "CLEAR" then [] else term ++ [line]
  | _ => term ++ [line]
  end.

(** The machine's log sink [(msg, type, at) => logTerminal(msg, type, at)]
    applied to its calls, oldest first. *)
Definition show_logs (ls : list log_entry) (term : list term_line) : list term_line :=
  fold_left (fun t l => logTerminal (msg l) (level l) t) ls term.

(** ** The physics engine *)

Module Physics.

(** The vectors of [vec]: [{x, y}] objects of numbers. *)
Record vec := { x : Js.number; y : Js.number }.

(** [{x: 0, y: 0}] *)
Definition vzero : vec := {| x := Js.zero; y := Js.zero |}.

(** [Math.sqrt] and [Math.abs]. *)
Definition sqrt : Js.number -> Js.number := SFsqrt Js.prec Js.emax.
Definition abs : Js.number -> Js.number := SFabs.

(** [Math.sign]: NaN and the zeros are returned as they are. *)
Definition sign (a : Js.number) : Js.number :=
  match a with
  | S754_nan => Js.nan
  | S754_zero s => S754_zero s
  | S754_infinity s | S754_finite s _ _ => if s then Js.neg Js.one else Js.one
  end.

Definition add (v1 v2 : vec) : vec :=
  {| x := Js.add (x v1) (x v2); y := Js.add (y v1) (y v2) |}.
Definition mul (v : vec) (s : Js.number) : vec :=
  {| x := Js.mul (x v) s; y := Js.mul (y v) s |}.
Definition mag (v : vec) : Js.number :=
  sqrt (Js.add (Js.mul (x v) (x v)) (Js.mul (y v) (y v))).
Definition dot (v1 v2 : vec) : Js.number :=
  Js.add (Js.mul (x v1) (x v2)) (Js.mul (y v1) (y v2)).
Definition cross2d (v1 v2 : vec) : Js.number :=
  Js.sub (Js.mul (x v1) (y v2)) (Js.mul (y v1) (x v2)).
Definition norm (v : vec) : vec :=
  let m := sqrt (Js.add (Js.mul (x v) (x v)) (Js.mul (y v) (y v))) in
  if Js.num_eqb m Js.zero then vzero
  else {| x := Js.div (x v) m; y := Js.div (y v) m |}.

(** [Math.PI], the binary64 value nearest to pi, and [DEG2RAD]. *)
Definition PI : Js.number := S754_finite false 7074237752028440 (-51).
Definition DEG2RAD : Js.number := Js.div PI (Js.of_Z 180).

(** [PLANET] *)
Definition radius : Js.number := Js.of_Z 600000.
Definition mass : Js.number := Js.of_decimal 52915 18.
Definition atmHeight : Js.number := Js.of_Z 70000.
Definition G : Js.number := Js.of_decimal 6674 (-14).

(** The fields of a [Physics] object.  [angle] holds whatever
    [steeringTarget] held when it was copied, and [+=] on it is the
    JavaScript [+]. *)
Record state := {
  massDry : Js.number;
  fuelStart : Js.number;
  thrustMax : Js.number;
  stages : Js.number;
  pos : vec;
  vel : vec;
  angle : Js.value;
  fuel : Js.number;
  throttle : Js.number;
  steeringTarget : Js.value;
  crashed : bool;
  landed : bool;
  trail : list vec
}.

(** The argument of [reset(config)]: each field a number or [undefined]
    ([None]). *)
Record config := {
  cfg_mass : option Js.number;
  cfg_fuel : option Js.number;
  cfg_thrust : option Js.number;
  cfg_stages : option Js.number
}.

(** [config.f || d] *)
Definition or_default (v : option Js.number) (d : Js.number) : Js.number :=
  match v with
  | Some n => if Js.truthy (Js.VNum n) then n else d
  | None => d
  end.

(** [reset(config)] overwrites every field. *)
Definition reset (c : config) : state :=
  let fuelStart := or_default (cfg_fuel c) (Js.of_Z 600) in
  {| massDry := Js.mul (or_default (cfg_mass c) (Js.of_Z 25)) (Js.of_Z 1000);
     fuelStart := fuelStart;
     thrustMax := Js.mul (or_default (cfg_thrust c) (Js.of_Z 500)) (Js.of_Z 1000);
     stages := match cfg_stages c with Some s => s | None => Js.of_Z 2 end;
     pos := {| x := Js.zero; y := radius |};
     vel := vzero;
     angle := Js.VNum (Js.of_Z 90);
     fuel := fuelStart;
     throttle := Js.zero;
     steeringTarget := Js.VNum (Js.of_Z 90);
     crashed := false;
     landed := true;
     trail := [] |}.

(** [while (err > 180) err -= 360;] and [while (err < -180) err += 360;],
    each given [n] iterations: [None] when the loop is still running after
    them. *)
Fixpoint wrap_down (n : nat) (err : Js.number) : option Js.number :=
  if Js.lt (Js.of_Z 180) err then
    match n with
    | O => None
    | S n' => wrap_down n' (Js.sub err (Js.of_Z 360))
    end
  else Some err.

Fixpoint wrap_up (n : nat) (err : Js.number) : option Js.number :=
  if Js.lt err (Js.neg (Js.of_Z 180)) then
    match n with
    | O => None
    | S n' => wrap_up n' (Js.add err (Js.of_Z 360))
    end
  else Some err.


Section Step.

(** [Math.exp], [Math.cos] and [Math.sin]. *)
Variables exp cos sin : Js.number -> Js.number.

(** The steering part of [step(dt)]: the new [angle], or [None] when one of
    the two [while] loops, given [n] iterations each, is still running. *)
Definition steer (n : nat) (dt : Js.number) (p : state) : option Js.value :=
  let err := Js.sub (Js.to_number (steeringTarget p)) (Js.to_number (angle p)) in
  match wrap_down n err with None => None | Some err =>
  match wrap_up n err with None => None | Some err =>
  let turnRate := Js.mul (Js.of_Z 50) dt in
  if Js.lt (abs err) turnRate then Some (steeringTarget p)
  else Js.binary "+" (angle p) (Js.VNum (Js.mul (sign err) turnRate))
  end end.

(** [step(dt)], where [rnd] is the value [Math.random()] returns in this
    call. *)
Definition step (n : nat) (rnd dt : Js.number) (p : state) : option state :=
  if crashed p then Some p else
  let dist := mag (pos p) in
  let alt := Js.sub dist radius in
  let upVec := norm (pos p) in
  (* 1. Steering *)
  match steer n dt p with
  | None => None
  | Some angle' =>
  (* 2. Forces *)
  let acc := vzero in
  (* Gravity *)
  let gMag := Js.div (Js.mul G mass) (Js.mul dist dist) in
  let acc := add acc (mul upVec (Js.neg gMag)) in
  (* Thrust *)
  let currentMass := Js.add (massDry p) (Js.mul (fuel p) (Js.of_Z 5)) in
  let currentMass := if Js.le currentMass Js.zero then Js.of_Z 1000 else currentMass in
  let '(fuel', acc) :=
    if Js.lt Js.zero (fuel p) && Js.lt Js.zero (throttle p) then
      let consumption := Js.mul (Js.mul (throttle p) (Js.of_Z 2)) dt in
      if Js.le consumption (fuel p) then
        let rad := Js.mul (Js.to_number angle') DEG2RAD in
        let tVec := {| x := Js.mul (Js.mul (cos rad) (throttle p)) (thrustMax p);
                       y := Js.mul (Js.mul (sin rad) (throttle p)) (thrustMax p) |} in
        (Js.sub (fuel p) consumption, add acc (mul tVec (Js.div Js.one currentMass)))
      else (Js.zero, acc)
    else (fuel p, acc) in
  (* Drag *)
  let acc :=
    if Js.lt alt atmHeight && Js.lt Js.zero alt then
      let density := Js.mul (Js.of_decimal 12 (-1))
                       (exp (Js.div (Js.neg alt) (Js.of_Z 5000))) in
      let vMag := mag (vel p) in
      if Js.lt Js.zero vMag then
        let dragMag := Js.mul (Js.mul (Js.mul (Js.mul (Js.of_decimal 5 (-1)) density)
                                        vMag) vMag) (Js.of_decimal 8 (-3)) in
        let dragVec := mul (norm (vel p)) (Js.div (Js.neg dragMag) currentMass) in
        add acc dragVec
      else acc
    else acc in
  (* Integration *)
  let '(landed', vel', pos') :=
    if negb (landed p) || Js.lt Js.zero (throttle p) then
      let vel' := add (vel p) (mul acc dt) in
      (false, vel', add (pos p) (mul vel' dt))
    else (landed p, vel p, pos p) in
  (* Collision *)
  let '(crashed', landed', vel', pos') :=
    if Js.lt dist radius then
      (if Js.lt (Js.of_Z 10) (mag vel') then true else crashed p,
       true, vzero, mul (norm pos') radius)
    else (crashed p, landed', vel', pos') in
  (* Trail Buffer *)
  let trail' :=
    if Js.lt rnd (Js.of_decimal 1 (-1)) then
      let t := trail p ++ [pos'] in
      if (500 <? List.length t)%nat then List.tl t else t
    else trail p in
  Some {| massDry := massDry p; fuelStart := fuelStart p; thrustMax := thrustMax p;
          stages := stages p; pos := pos'; vel := vel'; angle := angle';
          fuel := fuel'; throttle := throttle p; steeringTarget := steeringTarget p;
          crashed := crashed'; landed := landed'; trail := trail' |}
  end.

End Step.

(** What [getOrbit()] returns. *)
Record orbit_info := { o_ap : Js.number; o_pe : Js.number; o_alt : Js.number;
                       o_eta : Js.number; o_vel : Js.number }.

(** [getOrbit()] *)
Definition getOrbit (p : state) : orbit_info :=
  let r := mag (pos p) in
  let v := mag (vel p) in
  let mu := Js.mul G mass in
  let E := Js.sub (Js.div (Js.mul v v) (Js.of_Z 2)) (Js.div mu r) in
  let a := Js.div (Js.neg mu) (Js.mul (Js.of_Z 2) E) in
  let a := if Js.lt (abs E) (Js.of_decimal 1 (-3)) then Js.of_Z 9999999999 else a in
  let h := abs (cross2d (pos p) (vel p)) in
  let term := Js.div (Js.mul (Js.mul (Js.mul (Js.of_Z 2) E) h) h) (Js.mul mu mu) in
  let e := sqrt (Js.math_max Js.zero (Js.add Js.one term)) in
  let ap := Js.sub (Js.mul a (Js.add Js.one e)) radius in
  let pe := Js.sub (Js.mul a (Js.sub Js.one e)) radius in
  let radialVel := dot (vel p) (norm (pos p)) in
  let eta := if Js.lt Js.zero radialVel
             then Js.div radialVel (Js.div mu (Js.mul r r)) else Js.zero in
  {| o_ap := ap; o_pe := pe; o_alt := Js.sub r radius; o_eta := eta; o_vel := v |}.

End Physics.

(** ** The frontend's loop *)

(** The [Physics] object as the machine sees it through [this.phys]: the
    fields it reads and writes, and [getOrbit()] of the current state. *)
Definition view (p : Physics.state) : physics :=
  let o := Physics.getOrbit p in
  {| massDry := Physics.massDry p; fuelStart := Physics.fuelStart p;
     stages := Physics.stages p; fuel := Physics.fuel p;
     throttle := Physics.throttle p; steeringTarget := Physics.steeringTarget p;
     orbit := {| alt := Physics.o_alt o; ap := Physics.o_ap o;
                 pe := Physics.o_pe o; eta := Physics.o_eta o |} |}.

(** The same object after the machine wrote [ph] through [this.phys]. *)
Definition sync (ph : physics) (p : Physics.state) : Physics.state :=
  {| Physics.massDry := massDry ph; Physics.fuelStart := fuelStart ph;
     Physics.thrustMax := Physics.thrustMax p; Physics.stages := stages ph;
     Physics.pos := Physics.pos p; Physics.vel := Physics.vel p;
     Physics.angle := Physics.angle p; Physics.fuel := fuel ph;
     Physics.throttle := throttle ph; Physics.steeringTarget := steeringTarget ph;
     Physics.crashed := Physics.crashed p; Physics.landed := Physics.landed p;
     Physics.trail := Physics.trail p |}.

(** The [try] block of [loop()]: [vm.tick(dt)], then [physics.step(dt)] on
    the object the machine shares, with [dt = 0.02]; when [tick] throws,
    [vm.running = false] and [step] does not run.  [None] when a steering
    loop of [step] runs longer than [n] iterations. *)
Definition frame (js_eval : string -> vm -> Js.completion Js.value * vm)
    (new_RegExp : string -> Js.completion Js.matcher)
    (exp cos sin : Js.number -> Js.number) (n : nat) (rnd : Js.number)
    (st : vm) (p : Physics.state) : option (vm * Physics.state) :=
  let dt := Js.of_decimal 2 (-2) in
  match tick js_eval new_RegExp dt (set_phys (view p) st) with
  | Done st' _ =>
      match Physics.step exp cos sin n rnd dt (sync (phys st') p) with
      | Some p' => Some (st', p')
      | None => None
      end
  | Raised _ st' _ => Some (set_running false st', sync (phys st') p)
  end.

(** [getNum(id, def)], [el id] being the [value] of the element with that
    id, if there is one. *)
Definition getNum (el : string -> option string) (id : string) (def : Js.number)
  : Js.number :=
  match el id with
  | None => def
  | Some v => let val := Js.parse_float v in if Js.is_nan val then def else val
  end.

(** [resetSim()] on the physics object, the machine and the terminal's
    lines. *)
Definition resetSim (el : string -> option string) (st : vm)
  : Physics.state * vm * list term_line :=
  let config := {| Physics.cfg_thrust := Some (getNum el "cfg-thrust" (Js.of_Z 500));
                   Physics.cfg_mass := Some (getNum el "cfg-mass" (Js.of_Z 25));
                   Physics.cfg_fuel := Some (getNum el "cfg-fuel" (Js.of_Z 600));
                   Physics.cfg_stages := Some (getNum el "cfg-stages" (Js.of_Z 2)) |} in
  let p := Physics.reset config in
  let st := set_running false st in
  let term := [("term-line log-sys", "System Ready.")] in
  (p, st, logTerminal (Js.VStr "Simulation Reset.") (Some "sys") term).

(** ** Sample states *)

Definition tel0 : telemetry :=
  {| alt := Js.of_Z 100; ap := Js.of_Z 200; pe := Js.of_Z 50; eta := Js.of_Z 7 |}.

Definition ph0 : physics :=
  {| massDry := Js.of_Z 25000; fuelStart := Js.of_Z 600; stages := Js.of_Z 2;
     fuel := Js.of_Z 300; throttle := Js.zero; steeringTarget := Js.VNum (Js.of_Z 90);
     orbit := tel0 |}.

Definition vm0 : vm :=
  {| phys := ph0; prog := []; pc := 0; running := false; waitTimer := Js.zero;
     vars := empty_store; logs := [] |}.

(** [IF 1 { STAGE . } ELSE { CLEARSCREEN . }] *)
Definition ex_ifelse_stmt : stmt := SIfElse ["1"] (BCons SStage BNil) (BCons SClear BNil).
Definition ex_ifelse : body := BCons ex_ifelse_stmt BNil.
Definition ex_ifelse_vm : vm := set_running true (set_prog (ccomp_body 0 ex_ifelse) vm0).

(** [WAIT UNTIL ALTITUDE > 1000 .] *)
Definition ex_wait : body := BCons (SWaitUntil ["ALTITUDE"; ">"; "1000"]) BNil.

(** Nineteen [CLEARSCREEN .] statements, then [WAIT UNTIL 0 .]: the guard
    of the wait is the twentieth instruction. *)
Definition ex_spin_src : string :=
  ("CLEARSCREEN . CLEARSCREEN . CLEARSCREEN . CLEARSCREEN . CLEARSCREEN . " ++
  "CLEARSCREEN . CLEARSCREEN . CLEARSCREEN . CLEARSCREEN . CLEARSCREEN . " ++
  "CLEARSCREEN . CLEARSCREEN . CLEARSCREEN . CLEARSCREEN . CLEARSCREEN . " ++
  "CLEARSCREEN . CLEARSCREEN . CLEARSCREEN . CLEARSCREEN . WAIT UNTIL 0 .")%string.

(** A machine about to run [STAGE] with two stages left, and the machine
    after it. *)
Definition ex_stage_vm : vm := set_running true (set_prog [STAGE] vm0).
Definition ex_stage_next : vm :=
  match exec text_eval Js.regexp_of_key STAGE ex_stage_vm with
  | Js.Normal st => st
  | Js.Throw _ => ex_stage_vm
  end.


(** [LOCK THROTTLE TO 2 .] run on [vm0]. *)
Definition ex_lock_next : vm :=
  match exec text_eval Js.regexp_of_key (LOCK "THROTTLE" ["2"]) vm0 with
  | Js.Normal st => st | Js.Throw _ => vm0 end.

(** [UNTIL ALTITUDE > 1000 { IF 1 { STAGE . } }] *)
Definition ex_until_stmt : stmt :=
  SUntil ["ALTITUDE"; ">"; "1000"] (BCons (SIf ["1"] (BCons SStage BNil)) BNil).
Definition ex_until : body := BCons ex_until_stmt BNil.

(** [PRINT "CLEAR" .] and [CLEARSCREEN .], and the machines after them. *)
Definition clear_lit : string := String Js.dquote ("CLEAR" ++ String Js.dquote EmptyString).
Definition ex_print_vm : vm :=
  set_running true (set_prog [PRINT [clear_lit] None] vm0).
Definition ex_print_next : vm :=
  match exec text_eval Js.regexp_of_key (PRINT [clear_lit] None) ex_print_vm with
  | Js.Normal st => st
  | Js.Throw _ => ex_print_vm
  end.
Definition ex_clear_vm : vm := set_running true (set_prog [CLEAR] vm0).
Definition ex_clear_next : vm :=
  match exec text_eval Js.regexp_of_key CLEAR ex_clear_vm with
  | Js.Normal st => st
  | Js.Throw _ => ex_clear_vm
  end.

(** [new Physics()], that is [reset({})]. *)
Definition cfg_empty : Physics.config :=
  {| Physics.cfg_mass := None; Physics.cfg_fuel := None;
     Physics.cfg_thrust := None; Physics.cfg_stages := None |}.
Definition ph_new : Physics.state := Physics.reset cfg_empty.

(** [ph_new] with its steering target replaced by [v]. *)
Definition ph_target (v : Js.value) : Physics.state :=
  {| Physics.massDry := Physics.massDry ph_new; Physics.fuelStart := Physics.fuelStart ph_new;
     Physics.thrustMax := Physics.thrustMax ph_new; Physics.stages := Physics.stages ph_new;
     Physics.pos := Physics.pos ph_new; Physics.vel := Physics.vel ph_new;
     Physics.angle := Physics.angle ph_new; Physics.fuel := Physics.fuel ph_new;
     Physics.throttle := Physics.throttle ph_new; Physics.steeringTarget := v;
     Physics.crashed := false; Physics.landed := true; Physics.trail := [] |}.

(** A rocket 1 km below the surface, falling at 100 m/s. *)
Definition ph_below : Physics.state :=
  {| Physics.massDry := Physics.massDry ph_new; Physics.fuelStart := Physics.fuelStart ph_new;
     Physics.thrustMax := Physics.thrustMax ph_new; Physics.stages := Physics.stages ph_new;
     Physics.pos := {| Physics.x := Js.zero; Physics.y := Js.of_Z 599000 |};
     Physics.vel := {| Physics.x := Js.zero; Physics.y := Js.of_Z (-100) |};
     Physics.angle := Physics.angle ph_new; Physics.fuel := Physics.fuel ph_new;
     Physics.throttle := Js.zero; Physics.steeringTarget := Physics.steeringTarget ph_new;
     Physics.crashed := false; Physics.landed := false; Physics.trail := [] |}.

(** Stand-ins for [Math.exp], [Math.cos] and [Math.sin] in the examples. *)
Definition fn_one (_ : Js.number) : Js.number := Js.one.

Definition step_or (p : Physics.state) (o : option Physics.state) : Physics.state :=
  match o with Some p' => p' | None => p end.

Definition dt_frame : Js.number := Js.of_decimal 2 (-2).

(** The compiler state around a [WAIT UNTIL]. *)
Definition outside (s : nat) (b : block) : Prop :=
  (block_idx b < s \/ s + 3 <= block_idx b)%nat.

(** The three instructions of a wait at [s] are in place, and no block the
    compiler still tracks points into them. *)
Definition triple_at (s : nat) (e : list string) (st : cstate) : Prop :=
  (s + 3 <= pc_of st)%nat /\
  nth_error (instructions st) s = Some (JMP_TRUE (Z.of_nat (s + 3)) e) /\
  nth_error (instructions st) (s + 1) = Some YIELD /\
  nth_error (instructions st) (s + 2) = Some (JMP (Z.of_nat s)) /\
  Forall (outside s) (stack st) /\
  (forall b, lastClosedIf st = Some b -> outside s b).

(** Every block the compiler tracks points below the instructions emitted
    so far. *)
Definition blocks_below (st : cstate) : Prop :=
  Forall (fun b => (block_idx b < pc_of st)%nat) (stack st) /\
  (forall b, lastClosedIf st = Some b -> (block_idx b < pc_of st)%nat).

(** An [IF]/[ELSE] on a comparison of decimals, as a source text. *)
Definition ex_if_decimal_src : string :=
  "IF 0.7 > 0.5 { PRINT 1 . } ELSE { PRINT 2 . }".

(** A wait as a source text. *)
Definition ex_wait_src : string := "WAIT UNTIL ALTITUDE > 1000 .".

(** * Proofs *)

(** ** The compiler *)

Lemma compile_loop_fuel : forall f1 f2 ts st,
  (List.length ts <= f1)%nat -> (List.length ts <= f2)%nat ->
  compile_loop f1 ts st = compile_loop f2 ts st.
Proof.
  induction f1 as [|f IH]; intros f2 ts st H1 H2.
  - destruct ts; simpl in H1; [|lia]. destruct f2; reflexivity.
  - destruct ts as [|t r]; [destruct f2; reflexivity|].
    destruct f2 as [|g]; simpl in H2; [lia|].
    cbn [compile_loop]. destruct (compile_step (t :: r) st) as [[d st']|e]; [|reflexivity].
    apply IH; rewrite length_skipn; simpl in *; lia.
Qed.

Lemma compile_from_cons : forall t r st,
  compile_from (t :: r) st =
  (x <- compile_step (t :: r) st ;;
   let '(d, st') := x in compile_from (skipn (S d) (t :: r)) st').
Proof.
  intros t r st. unfold compile_from. cbn [compile_loop List.length].
  destruct (compile_step (t :: r) st) as [[d st']|e]; [|reflexivity].
  apply compile_loop_fuel; rewrite length_skipn; simpl; lia.
Qed.

Lemma compile_tokens_state_from : forall ts,
  compile_tokens_state ts = compile_from ts cinit.
Proof. reflexivity. Qed.

Lemma skip_atom : forall v rest st,
  existsb (String.eqb v) keywords = false -> String.eqb v "}" = false ->
  compile_from (mk_token v :: rest) st = compile_from rest st.
Proof.
  intros v rest st Hk Hb. rewrite compile_from_cons.
  unfold compile_step, mk_token. cbn [type val]. rewrite Hk, Hb. reflexivity.
Qed.

Lemma gather_expr : forall e v rest,
  expr_ok e = true ->
  (String.eqb v "{" || String.eqb v "." || String.eqb v "AT") = true ->
  gather (map mk_token e ++ mk_token v :: rest) = (e, List.length e).
Proof.
  induction e as [|a e IH]; intros v rest He Hv.
  - simpl. rewrite Hv. reflexivity.
  - simpl in He. apply andb_prop in He as [Ha He].
    simpl. apply negb_true_iff in Ha. rewrite Ha, (IH v rest He Hv). reflexivity.
Qed.

Lemma patch_app : forall a b k d,
  patch (List.length a + k) d (a ++ b) = a ++ patch k d b.
Proof. induction a as [|x a IH]; intros; simpl; [reflexivity|]. now rewrite IH. Qed.

Lemma patch_here : forall a i b d,
  patch (List.length a) d (a ++ i :: b) = a ++ set_dest d i :: b.
Proof.
  intros. rewrite <- (Nat.add_0_r (List.length a)), patch_app. reflexivity.
Qed.

Lemma nth_after : forall (e : list string) k r,
  nth_error (map mk_token e ++ r) (List.length e + k) = nth_error r k.
Proof. induction e; simpl; auto. Qed.

Lemma nth_after0 : forall (e : list string) r,
  nth_error (map mk_token e ++ r) (List.length e) = nth_error r 0.
Proof. intros. rewrite <- (Nat.add_0_r (List.length e)). apply nth_after. Qed.

Lemma skipn_after_S : forall (e : list string) x r,
  skipn (S (List.length e)) (map mk_token e ++ x :: r) = r.
Proof. induction e; simpl; auto. Qed.

Lemma skipn_after : forall (e : list string) k r,
  skipn (List.length e + k) (map mk_token e ++ r) = skipn k r.
Proof. induction e; simpl; auto. Qed.

Lemma map_render_cons : forall v e r rest,
  map mk_token (v :: e ++ r) ++ rest = mk_token v :: map mk_token e ++ map mk_token r ++ rest.
Proof. intros. simpl. now rewrite map_app, <- app_assoc. Qed.

Lemma skipn_cons_S : forall {A} n (x : A) l, skipn (S n) (x :: l) = skipn n l.
Proof. reflexivity. Qed.

Lemma skipn_after_k : forall (e : list string) k r,
  skipn (List.length e + k) (map mk_token e ++ r) = skipn k r.
Proof. induction e; simpl; auto. Qed.

Lemma map_mk_app : forall (a b : list string) rest,
  map mk_token (a ++ b) ++ rest = map mk_token a ++ (map mk_token b ++ rest).
Proof. intros. now rewrite map_app, <- app_assoc. Qed.

Lemma patch_last : forall a x cb d,
  patch (List.length a) d ((a ++ [x]) ++ cb) = a ++ set_dest d x :: cb.
Proof. intros. rewrite <- app_assoc. apply patch_here. Qed.

Lemma nth_cons_S : forall {A} n (x : A) l, nth_error (x :: l) (S n) = nth_error l n.
Proof. reflexivity. Qed.

Ltac csimp := cbn -[compile_from skipn Z.of_nat].

Lemma length_patch : forall k d l, List.length (patch k d l) = List.length l.
Proof. induction k; destruct l; simpl; auto. Qed.

Ltac cnorm :=
  unfold set_last, patch_at, set_stack, emit, pc_of in *;
  cbn -[Z.of_nat compile_from skipn patch];
  rewrite <- ?app_assoc; cbn [app];
  rewrite ?patch_here, ?length_app, ?length_patch; cbn [List.length set_dest app];
  rewrite ?Nat.add_1_r.

Ltac cfin := repeat (first [reflexivity | lia | f_equal]).

Ltac cstep :=
  rewrite compile_from_cons; unfold compile_step; csimp;
  rewrite ?skipn_cons_S, ?skipn_O.

Ltac cskip :=
  rewrite ?skipn_cons_S, ?plus_n_Sm, ?skipn_after_k, ?skipn_after_S; cbn [skipn].

Lemma compile_structural :
  (forall s, stmt_ok s = true -> forall rest st, exists l,
     compile_from (map mk_token (render s) ++ rest) st =
     compile_from rest {| instructions := instructions st ++ ccomp (pc_of st) s;
                          stack := stack st; lastClosedIf := l |}) /\
  (forall b, body_ok b = true -> forall rest st, exists l,
     compile_from (map mk_token (render_body b) ++ rest) st =
     compile_from rest {| instructions := instructions st ++ ccomp_body (pc_of st) b;
                          stack := stack st; lastClosedIf := l |}).
Proof.
  apply stmt_body_mut.
  - (* SPrint *)
    intros e He rest st. cbn [render]. rewrite map_render_cons. cstep.
    rewrite gather_expr by auto. csimp. rewrite nth_after0.
    csimp. cskip. now exists (lastClosedIf st).
  - (* SPrintAt *)
    intros e x y He rest st. cbn [render]. rewrite map_render_cons. cstep.
    rewrite gather_expr by auto. csimp. rewrite nth_after0.
    csimp. unfold val_at. rewrite !nth_cons_S, !nth_after.
    csimp. cskip. now exists (lastClosedIf st).
  - (* SLock *)
    intros x e He rest st. cbn [render]. cbn [map app]. rewrite map_mk_app. cstep.
    rewrite gather_expr by auto. csimp. cskip.
    now exists (lastClosedIf st).
  - (* SSet *)
    intros x e He rest st. cbn [render]. cbn [map app]. rewrite map_mk_app. cstep.
    rewrite gather_expr by auto. csimp. cskip.
    now exists (lastClosedIf st).
  - (* SDeclare *)
    intros x _ rest st. cbn [render map app]. cstep. cskip.
    rewrite skip_atom by reflexivity. now exists (lastClosedIf st).
  - (* SWait *)
    intros t Ht rest st. cbn [render map app]. cstep.
    cbn in Ht. apply negb_true_iff in Ht. rewrite Ht. csimp. cskip.
    rewrite skip_atom by reflexivity. now exists (lastClosedIf st).
  - (* SWaitUntil *)
    intros e He rest st. cbn [render]. cbn [map app]. rewrite map_mk_app. cstep.
    rewrite gather_expr by auto. csimp. cskip.
    exists (lastClosedIf st). unfold pc_of. unfold emit; cbn. now rewrite <- !app_assoc.
  - (* SStage *)
    intros _ rest st. cbn [render map app]. cstep. cskip.
    rewrite skip_atom by reflexivity. now exists (lastClosedIf st).
  - (* SClear *)
    intros _ rest st. cbn [render map app]. cstep. cskip.
    rewrite skip_atom by reflexivity. now exists (lastClosedIf st).
  - (* SIf *)
    intros e b IHb Hok rest st. cbn [stmt_ok] in Hok. apply andb_prop in Hok as [He Hb].
    cbn [render]. rewrite map_render_cons, !map_app, <- !app_assoc. cbn [map app]. cstep.
    rewrite gather_expr by auto. csimp. cskip. cnorm.
    edestruct IHb as [l1 ->]; [exact Hb|]. cnorm.
    cstep. cskip. cnorm. exists (Some (IfBlock (List.length (instructions st)))).
    cfin.
  - (* SIfElse *)
    intros e b1 IH1 b2 IH2 Hok rest st. cbn [stmt_ok] in Hok.
    apply andb_prop in Hok as [Hok Hb2]. apply andb_prop in Hok as [He Hb1].
    cbn [render]. rewrite map_render_cons, !map_app, <- !app_assoc. cbn [map app]. cstep.
    rewrite gather_expr by auto. csimp. cskip. cnorm.
    edestruct IH1 as [l1 ->]; [exact Hb1|]. cnorm.
    cstep. cskip. cnorm. cstep. cskip. cnorm.
    edestruct IH2 as [l2 ->]; [exact Hb2|]. cnorm.
    cstep. cskip. cnorm. exists l2.
    rewrite patch_app. cbn [patch]. rewrite patch_here. cbn [set_dest]. rewrite ?length_app. cbn [List.length]. cfin.
  - (* SUntil *)
    intros e b IHb Hok rest st. cbn [stmt_ok] in Hok. apply andb_prop in Hok as [He Hb].
    cbn [render]. rewrite map_render_cons, !map_app, <- !app_assoc. cbn [map app]. cstep.
    rewrite gather_expr by auto. csimp. cskip. cnorm.
    edestruct IHb as [l1 ->]; [exact Hb|]. cnorm.
    cstep. cskip. cnorm. exists l1. rewrite ?length_app. cbn [List.length]. cfin.
  - (* BNil *)
    intros _ rest st. exists (lastClosedIf st). destruct st; cbn. now rewrite app_nil_r.
  - (* BCons *)
    intros s IHs b IHb Hok rest st. cbn [body_ok] in Hok. apply andb_prop in Hok as [Hs Hb].
    cbn [render_body]. rewrite map_mk_app.
    edestruct IHs as [l1 ->]; [exact Hs|].
    edestruct IHb as [l2 ->]; [exact Hb|].
    exists l2. unfold pc_of. cbn. rewrite <- app_assoc, length_app. reflexivity.
Qed.

Lemma compile_script_state : forall b, body_ok b = true -> exists l,
  compile_tokens_state (script_tokens b) =
  Js.Normal {| instructions := ccomp_body 0 b; stack := []; lastClosedIf := l |}.
Proof.
  intros b Hb. rewrite compile_tokens_state_from. unfold script_tokens.
  rewrite <- (app_nil_r (map mk_token (render_body b))).
  destruct (proj2 compile_structural b Hb [] cinit) as [l ->].
  exists l. reflexivity.
Qed.

Lemma compile_script : forall b, body_ok b = true ->
  compile_tokens (script_tokens b) = Js.Normal (ccomp_body 0 b).
Proof.
  intros b Hb. unfold compile_tokens. destruct (compile_script_state b Hb) as [l ->].
  reflexivity.
Qed.

(** ** Jump destinations of compiled code *)

Lemma dests_within_mono : forall lo hi lo' hi' p,
  (lo' <= lo)%Z -> (hi <= hi')%Z -> dests_within lo hi p -> dests_within lo' hi' p.
Proof.
  intros lo hi lo' hi' p H1 H2 H. eapply Forall_impl; [|exact H].
  intros i Hi. cbv beta in *. destruct (dest_of i); [lia|auto].
Qed.

Lemma dests_within_app : forall lo hi p q,
  dests_within lo hi p -> dests_within lo hi q -> dests_within lo hi (p ++ q).
Proof. intros. now apply Forall_app. Qed.

Lemma dests_within_cons : forall lo hi i p,
  match dest_of i with Some d => (lo <= d <= hi)%Z | None => True end ->
  dests_within lo hi p -> dests_within lo hi (i :: p).
Proof. intros. now constructor. Qed.

Lemma dests_within_nil : forall lo hi, dests_within lo hi [].
Proof. constructor. Qed.

Ltac dests_tac :=
  repeat first
    [ apply dests_within_nil
    | apply dests_within_cons; [cbn [dest_of]; first [exact I | lia]|]
    | apply dests_within_app ].

(** Compiled code jumps only inside itself or to its end. *)
Lemma ccomp_dests :
  (forall s n, dests_within (Z.of_nat n) (Z.of_nat (n + List.length (ccomp n s))) (ccomp n s)) /\
  (forall b n, dests_within (Z.of_nat n) (Z.of_nat (n + List.length (ccomp_body n b)))
                 (ccomp_body n b)).
Proof.
  apply stmt_body_mut; intros; cbn [ccomp ccomp_body];
    cbn [List.length]; rewrite ?length_app; cbn [List.length]; rewrite ?length_app;
    cbn [List.length]; dests_tac.
  all: try (eapply dests_within_mono; [| |eauto]; lia).
Qed.

(** ** Where a statement's code lies *)

Ltac layout_here H :=
  cbn [In] in H; destruct H as [H|H];
  [injection H as <- <-; exists [], []; split; [now rewrite app_nil_r | cbn; lia] |].

Lemma layout_code :
  (forall s n m s', In (m, s') (layout n s) ->
     exists pre post, ccomp n s = pre ++ ccomp m s' ++ post /\ m = (n + List.length pre)%nat) /\
  (forall b n m s', In (m, s') (layout_body n b) ->
     exists pre post, ccomp_body n b = pre ++ ccomp m s' ++ post /\
                      m = (n + List.length pre)%nat).
Proof.
  apply stmt_body_mut; cbn [layout layout_body].
  all: try solve [intros; match goal with H : In _ _ |- _ => layout_here H; destruct H end].
  - (* SIf *)
    intros e b H n m s' H0. layout_here H0. destruct (H _ _ _ H0) as (pre & post & Hc & Hm).
    exists (JMP_FALSE (Z.of_nat (S n + List.length (ccomp_body (S n) b))) e :: pre), post.
    cbn [ccomp]. rewrite Hc. split; [reflexivity | cbn [List.length]; lia].
  - (* SIfElse *)
    intros e b1 H b2 H0 n m s' H1. layout_here H1. apply in_app_or in H1 as [H1|H1].
    + destruct (H _ _ _ H1) as (pre & post & Hc & Hm).
      cbn [ccomp]. rewrite Hc.
      eexists (_ :: pre), (post ++ _ :: _). split.
      * cbn [app]. rewrite <- !app_assoc. reflexivity.
      * cbn [List.length]. lia.
    + destruct (H0 _ _ _ H1) as (pre & post & Hc & Hm).
      cbn [ccomp]. rewrite Hc.
      eexists (_ :: ccomp_body (S n) b1 ++ [_] ++ pre), post. split.
      * cbn [app]. rewrite <- !app_assoc. reflexivity.
      * cbn [List.length]. rewrite !length_app. cbn [List.length]. lia.
  - (* SUntil *)
    intros e b H n m s' H0. layout_here H0. destruct (H _ _ _ H0) as (pre & post & Hc & Hm).
    cbn [ccomp]. rewrite Hc.
    eexists (_ :: pre), (post ++ _). split.
    + cbn [app]. rewrite <- !app_assoc. reflexivity.
    + cbn [List.length]. lia.
  - (* BNil *)
    intros n m s' H. destruct H.
  - (* BCons *)
    intros s H b H0 n m s' H1. apply in_app_or in H1 as [H1|H1].
    + destruct (H _ _ _ H1) as (pre & post & Hc & Hm).
      cbn [ccomp_body]. rewrite Hc. exists pre, (post ++ ccomp_body (n + List.length (pre ++ ccomp m s' ++ post)) b).
      split; [now rewrite <- !app_assoc | lia].
    + destruct (H0 _ _ _ H1) as (pre & post & Hc & Hm).
      cbn [ccomp_body]. rewrite Hc. exists (ccomp n s ++ pre), post.
      split; [now rewrite <- !app_assoc | rewrite length_app; lia].
Qed.

(** ** Instructions and their successors *)

Lemma fetch_mid : forall pre c post j, (j < List.length c)%nat ->
  fetch (pre ++ c ++ post) (Z.of_nat (List.length pre + j)) = nth_error c j.
Proof.
  intros pre c post j Hj. unfold fetch.
  rewrite (proj2 (Z.ltb_ge _ _)) by lia.
  rewrite Nat2Z.id, nth_error_app2 by lia.
  replace (List.length pre + j - List.length pre)%nat with j by lia.
  now rewrite nth_error_app1.
Qed.

(** From inside compiled code [c] placed after [pre], the machine moves to
    a position of [c] or to its end. *)
Lemma code_succs : forall pre c post (i : Z) ins,
  dests_within (Z.of_nat (List.length pre)) (Z.of_nat (List.length pre + List.length c)) c ->
  (Z.of_nat (List.length pre) <= i < Z.of_nat (List.length pre + List.length c))%Z ->
  fetch (pre ++ c ++ post) i = Some ins ->
  Forall (fun z => Z.of_nat (List.length pre) <= z <= Z.of_nat (List.length pre + List.length c))%Z
    (succs i ins).
Proof.
  intros pre c post i ins Hd Hi Hf.
  set (j := Z.to_nat (i - Z.of_nat (List.length pre))).
  assert (Hij : i = Z.of_nat (List.length pre + j)) by (unfold j; lia).
  rewrite Hij, fetch_mid in Hf by (unfold j; lia).
  apply nth_error_In in Hf. unfold dests_within in Hd. rewrite Forall_forall in Hd.
  specialize (Hd ins Hf).
  destruct ins; cbn [succs dest_of] in *; repeat constructor; lia.
Qed.

Section MachineFacts.

Variable js_eval : string -> vm -> Js.completion Js.value * vm.
Variable new_RegExp : string -> Js.completion Js.matcher.

(** Splits the evaluations of an instruction that did not throw. *)
Ltac split_eval H :=
  repeat match type of H with
  | context [match ?x with Js.Normal _ => _ | Js.Throw _ => _ end] =>
      let E := fresh "E" in
      destruct x as [[? ?]|] eqn:E; [|discriminate H]
  end.

(** The guard [JMP_FALSE dest cond]: the condition is evaluated once, and
    the machine goes to the instruction after the one at the [pc] the
    evaluation left when the value is truthy, to [dest] otherwise. *)
Lemma jmp_false_step : forall st st' dest cond,
  fetch (prog st) (pc st) = Some (JMP_FALSE dest cond) ->
  vm_step js_eval new_RegExp st st' ->
  exists v st1, vm_eval js_eval new_RegExp st cond = Js.Normal (v, st1) /\
            st' = set_pc (if Js.truthy v then pc st1 + 1 else dest)%Z st1.
Proof.
  intros st st' dest cond Hf [_ Hs]. rewrite Hf in Hs. cbn [exec] in Hs.
  destruct (vm_eval js_eval new_RegExp st cond) as [[v st1]|err]; [|discriminate].
  injection Hs as <-. eauto.
Qed.

(** The same for [JMP_TRUE dest cond], which goes to [dest] on a truthy
    value. *)
Lemma jmp_true_step : forall st st' dest cond,
  fetch (prog st) (pc st) = Some (JMP_TRUE dest cond) ->
  vm_step js_eval new_RegExp st st' ->
  exists v st1, vm_eval js_eval new_RegExp st cond = Js.Normal (v, st1) /\
            st' = set_pc (if Js.truthy v then dest else pc st1 + 1)%Z st1.
Proof.
  intros st st' dest cond Hf [_ Hs]. rewrite Hf in Hs. cbn [exec] in Hs.
  destruct (vm_eval js_eval new_RegExp st cond) as [[v st1]|err]; [|discriminate].
  injection Hs as <-. eauto.
Qed.

(** The loop of [tick] adds at most [budget] positions to the trace. *)
Lemma batch_trace : forall budget st tr,
  match batch js_eval new_RegExp budget st tr with
  | Done _ tr' | Raised _ _ tr' =>
      exists new, tr' = tr ++ new /\ (List.length new <= budget)%nat
  end.
Proof.
  induction budget as [|b IH]; intros st tr; cbn [batch].
  - exists []. rewrite app_nil_r. auto.
  - destruct (pc st <? Z.of_nat (List.length (prog st)))%Z.
    2: { exists []. rewrite app_nil_r. split; [reflexivity | cbn; lia]. }
    assert (Hone : exists new, tr ++ [pc st] = tr ++ new /\ (List.length new <= S b)%nat)
      by (exists [pc st]; cbn; split; [reflexivity | cbn; lia]).
    destruct (fetch (prog st) (pc st)) as [ins|]; [|exact Hone].
    destruct ins; try exact Hone.
    all: destruct (exec js_eval new_RegExp _ st) as [st1|e]; try exact Hone.
    all: specialize (IH st1 (tr ++ [pc st]));
         destruct (batch js_eval new_RegExp b st1 (tr ++ [pc st]));
         destruct IH as (new & -> & Hl);
         exists (pc st :: new); rewrite <- app_assoc; cbn;
         (split; [reflexivity | lia]).
Qed.

(** From here on, evaluations keep [pc] and the program. *)
Hypothesis keeps : eval_keeps_control js_eval.

Lemma vm_eval_control : forall st e v st1,
  vm_eval js_eval new_RegExp st e = Js.Normal (v, st1) ->
  pc st1 = pc st /\ prog st1 = prog st.
Proof.
  intros st e v st1 H. unfold vm_eval in H.
  destruct (vm_subst new_RegExp st e) as [str|]; [|discriminate].
  destruct (keeps str st) as [Hp Hq].
  destruct (js_eval str st) as [[v'|e'] st'] eqn:E; injection H as <- <-;
    cbn [snd] in Hp, Hq; auto.
Qed.

(** An instruction moves the machine to one of its successors and keeps
    the program. *)
Lemma vm_step_succs : forall st st',
  vm_step js_eval new_RegExp st st' ->
  exists ins, fetch (prog st) (pc st) = Some ins /\
              In (pc st') (succs (pc st) ins) /\ prog st' = prog st.
Proof.
  intros st st' [Hr Hs]. destruct (fetch (prog st) (pc st)) as [ins|]; [|contradiction].
  exists ins. split; [reflexivity|].
  destruct ins; cbn [exec] in Hs; split_eval Hs;
    try (injection Hs as <-); try subst st'; cbn [succs].
  all: try match goal with
       | E : vm_eval _ _ _ _ = Js.Normal _ |- _ =>
           destruct (vm_eval_control _ _ _ _ E) as [Hp1 Hq1]
       end.
  all: try (cbn; auto; fail).
  all: try (cbn; rewrite Hp1, Hq1; auto; fail).
  - (* STAGE *)
    destruct (Js.lt Js.zero (stages (phys st))); injection Hs as <-; cbn; auto.
  - (* JMP_TRUE *)
    cbn; rewrite Hp1, Hq1; destruct (Js.truthy _); cbn; auto.
  - (* JMP_FALSE *)
    cbn; rewrite Hp1, Hq1; destruct (Js.truthy _); cbn; auto.
Qed.

(** Executions that run instructions only from [[lo, hi)] stay in any set
    of positions closed under the successors of those instructions. *)
Lemma path_inv : forall (R : Z -> Prop) lo hi p st st',
  (forall i ins, (lo <= i < hi)%Z -> fetch p i = Some ins -> Forall R (succs i ins)) ->
  path js_eval new_RegExp lo hi st st' -> prog st = p -> R (pc st) ->
  R (pc st') /\ prog st' = p.
Proof.
  intros R lo hi p st st' Hcl Hp. induction Hp as [st|st st1 st2 Hi Hs Hp IH|st st1 st2 [Hpc Hpr] Hp IH];
    intros Hprog HR.
  - auto.
  - destruct (vm_step_succs st st1 Hs) as (ins & Hf & Hin & Hpr).
    apply IH; [congruence|].
    rewrite Hprog in Hf. specialize (Hcl _ _ Hi Hf). rewrite Forall_forall in Hcl. auto.
  - apply IH; congruence.
Qed.

(** Instructions keep the program. *)
Lemma exec_prog : forall cmd st st',
  exec js_eval new_RegExp cmd st = Js.Normal st' -> prog st' = prog st.
Proof.
  intros cmd st st' Hs.
  destruct cmd; cbn [exec] in Hs; split_eval Hs; try (injection Hs as <-); try reflexivity.
  all: try match goal with
       | E : vm_eval _ _ _ _ = Js.Normal _ |- _ =>
           destruct (vm_eval_control _ _ _ _ E) as [Hp1 Hq1]; cbn; exact Hq1
       end.
  destruct (Js.lt Js.zero (stages (phys st))); injection Hs as <-; reflexivity.
Qed.

(** The loop of [tick] keeps the program. *)
Lemma batch_prog : forall budget st tr,
  match batch js_eval new_RegExp budget st tr with
  | Done st' _ | Raised _ st' _ => prog st' = prog st
  end.
Proof.
  induction budget as [|b IH]; intros st tr; cbn [batch]; [reflexivity|].
  destruct (pc st <? Z.of_nat (List.length (prog st)))%Z; [|reflexivity].
  destruct (fetch (prog st) (pc st)) as [ins|]; [|reflexivity].
  destruct ins; try reflexivity.
  all: destruct (exec js_eval new_RegExp _ st) as [st1|e] eqn:He; try reflexivity.
  all: pose proof (exec_prog _ _ _ He) as Hp1;
       specialize (IH st1 (tr ++ [pc st]));
       destruct (batch js_eval new_RegExp b st1 (tr ++ [pc st])); congruence.
Qed.

(** A [YIELD] the loop runs is the last instruction it runs, and the machine
    stops right after it. *)
Lemma batch_yield : forall budget st tr i,
  fetch (prog st) i = Some YIELD ->
  match batch js_eval new_RegExp budget st tr with
  | Done st' tr' =>
      forall new, tr' = tr ++ new -> In i new ->
      (exists pre, new = pre ++ [i]) /\ pc st' = (i + 1)%Z
  | Raised _ _ tr' => forall new, tr' = tr ++ new -> ~ In i new
  end.
Proof.
  induction budget as [|b IH]; intros st tr i Hy; cbn [batch].
  - intros new Hn Hi. apply (f_equal (@List.length Z)) in Hn.
    rewrite length_app in Hn. destruct new; [contradiction | cbn in Hn; lia].
  - destruct (pc st <? Z.of_nat (List.length (prog st)))%Z.
    2: { intros new Hn Hi. apply (f_equal (@List.length Z)) in Hn.
         rewrite length_app in Hn. destruct new; [contradiction | cbn in Hn; lia]. }
    assert (Hone : forall new, tr ++ [pc st] = tr ++ new -> In i new -> pc st = i).
    { intros new Hn Hi. apply app_inv_head in Hn. subst new. destruct Hi as [<-|[]]. reflexivity. }
    destruct (fetch (prog st) (pc st)) as [ins|] eqn:Hf.
    2: { intros new Hn Hi. specialize (Hone new Hn Hi). subst i. congruence. }
    destruct ins.
    all: try (intros new Hn Hi; specialize (Hone new Hn Hi); subst i; congruence).
    (* YIELD *)
    4: { intros new Hn Hi. specialize (Hone new Hn Hi). subst i.
         apply app_inv_head in Hn. subst new. split; [exists []; reflexivity | reflexivity]. }
    all: destruct (exec js_eval new_RegExp _ st) as [st1|e] eqn:He.
    all: try (intros new Hn Hi; specialize (Hone new Hn Hi); subst i; congruence).
    all: pose proof (exec_prog _ _ _ He) as Hp1;
         pose proof (batch_trace b st1 (tr ++ [pc st])) as Ht;
         assert (Hy1 : fetch (prog st1) i = Some YIELD) by congruence;
         specialize (IH st1 (tr ++ [pc st]) i Hy1);
         destruct (batch js_eval new_RegExp b st1 (tr ++ [pc st]));
         destruct Ht as (new' & -> & _);
         intros new Hn Hi; rewrite <- app_assoc in Hn; apply app_inv_head in Hn; subst new.
    all: destruct Hi as [Hi|Hi]; [subst i; congruence|].
    all: specialize (IH new' eq_refl Hi).
    all: try exact IH.
    all: destruct IH as [[pre ->] Hpc]; split; [exists (pc st :: pre); reflexivity | exact Hpc].
Qed.

End MachineFacts.

(** The [eval] of the examples keeps [pc] and the program. *)
Lemma text_eval_keeps : eval_keeps_control text_eval.
Proof. intros str st. split; reflexivity. Qed.

(** The keys [for ... in] visits are keys of the store. *)
Lemma insert_index_keys : forall k i l x,
  In x (map fst (insert_index k i l)) -> x = k \/ In x (map fst l).
Proof.
  intros k i l x. induction l as [|[k' i'] r IH]; cbn.
  - intros [H|[]]. auto.
  - destruct (i <? i')%Z; cbn.
    + intros [H|H]; auto.
    + intros [H|H]; auto. destruct (IH H); auto.
Qed.

Lemma fold_keys : forall (f : list (string * Z) -> string * Js.value -> list (string * Z))
  (s l : list (string * Js.value)) acc x,
  (forall acc k v y, In y (map fst (f acc (k, v))) -> y = k \/ In y (map fst acc)) ->
  (forall y, In y (map fst acc) -> In y (map fst s)) ->
  (forall y, In y (map fst l) -> In y (map fst s)) ->
  In x (map fst (fold_left f l acc)) -> In x (map fst s).
Proof.
  intros f s l. induction l as [|[k v] l IH]; intros acc x Hf Hacc Hl Hx; cbn in Hx.
  - auto.
  - apply (IH (f acc (k, v)) x Hf); [| intros y Hy; apply Hl; cbn; auto | exact Hx].
    intros y Hy. destruct (Hf _ _ _ _ Hy) as [->|Hy']; [apply Hl; cbn; auto | auto].
Qed.

Lemma keys_in_order_keys : forall s x, In x (keys_in_order s) -> In x (map fst (own s)).
Proof.
  intros s x. unfold keys_in_order. rewrite in_app_iff. intros [H|H].
  - refine (fold_keys _ (own s) (own s) [] x _ _ _ H); [| intros y [] | auto].
    intros acc k v y Hy. destruct (array_index k); [|auto].
    exact (insert_index_keys _ _ _ _ Hy).
  - rewrite in_map_iff in H. destruct H as ([k v] & <- & Hin).
    apply filter_In in Hin. apply in_map_iff. exists (k, v). tauto.
Qed.





(** The only error the compiler raises: reading [.val] of a missing
    token. *)
Lemma val_at_error : forall ts k e, val_at ts k = Js.Throw e -> e = undefined_val.
Proof.
  intros ts k e H. unfold val_at in H. destruct (nth_error ts k); congruence.
Qed.

Lemma compile_step_error : forall ts st e,
  compile_step ts st = Js.Throw e -> e = undefined_val.
Proof.
  intros ts st e H. unfold compile_step in H. destruct ts as [|t r]; [discriminate H|].
  repeat match type of H with
  | context [match val_at ?l ?k with Js.Normal _ => _ | Js.Throw _ => _ end] =>
      let E := fresh "E" in destruct (val_at l k) eqn:E;
      [| injection H as <-; exact (val_at_error _ _ _ E)]
  | context [if ?b then _ else _] => destruct b
  | context [match ?x with _ => _ end] => destruct x
  end; discriminate H.
Qed.

Lemma compile_loop_error : forall n ts st e,
  compile_loop n ts st = Js.Throw e -> e = undefined_val.
Proof.
  induction n as [|n IH]; intros ts st e H; cbn [compile_loop] in H; [discriminate H|].
  destruct ts as [|t r]; [discriminate H|].
  destruct (compile_step (t :: r) st) as [[d st']|e'] eqn:E.
  - exact (IH _ _ _ H).
  - injection H as <-. exact (compile_step_error _ _ _ E).
Qed.

(** ** The claims *)

Ltac app_norm := repeat (rewrite <- app_assoc || rewrite <- app_comm_cons); reflexivity.

(** C1.  [IF 0.7 > 0.5 { PRINT 1 . } ELSE { PRINT 2 . }] runs the [ELSE]
    branch, although [0.7 > 0.5] is true.  The tokenizer splits [0.7] into
    [0], [.] and [7], and [gather] stops the condition at that [.]: the
    guard tests [0] alone, which is falsy, and jumps to the [ELSE] body
    (position 3).  The tokens [. 7 > 0 . 5] are skipped as atoms.  The
    first [tick] logs 2, not 1. *)
Theorem if_decimal_runs_else :
  Js.js_fragment "0.7 > 0.5" = Some (Js.Normal (Js.VBool true)) /\
  compile ex_if_decimal_src =
    Js.Normal [JMP_FALSE 3 ["0"]; PRINT ["1"] None; JMP 4; PRINT ["2"] None] /\
  match tick text_eval Js.regexp_of_key Js.one (run ex_if_decimal_src vm0) with
  | Done st tr =>
      tr = [0%Z; 3%Z] /\
      map msg (logs st) =
        [Js.VStr "Program Loaded."; Js.VNum (Js.of_Z 2); Js.VStr "Program Ended."]
  | Raised _ _ _ => False
  end.
Proof. vm_compute. repeat split; reflexivity. Qed.

(** An [IF]/[ELSE] of the grammar runs exactly one branch.  Take a
    well-formed script and an [IF cond { A } ELSE { B }] statement in it
    whose code starts at [n], and evaluations that keep [pc] and the
    program.  When an execution runs the guard at [n], [cond] is evaluated
    once and the machine goes to the start of A's code if the value is
    truthy and to the start of B's code otherwise.  In the first case, as
    long as it runs instructions of A (or the jump that ends A), it stays
    within A's code or that jump, or reaches the end of the whole
    statement, and never enters B's code; in the second case it stays
    within B's code or reaches the end of the statement, and never enters
    A's code or the jump after it.  Executions interleave instructions with
    host moves, which change neither [pc] nor the program. *)
Theorem if_else_exactly_one :
  forall js_eval new_RegExp b e b1 b2 n st st1,
  body_ok b = true ->
  In (n, SIfElse e b1 b2) (layout_body 0 b) ->
  compile_tokens (script_tokens b) = Js.Normal (prog st) ->
  pc st = Z.of_nat n ->
  eval_keeps_control js_eval ->
  vm_step js_eval new_RegExp st st1 ->
  exists v st', vm_eval js_eval new_RegExp st e = Js.Normal (v, st') /\
   (Js.truthy v = true ->
      pc st1 = Z.of_nat (then_start n) /\
      forall st2,
        path js_eval new_RegExp (Z.of_nat (then_start n)) (Z.of_nat (else_start n b1)) st1 st2 ->
        ((Z.of_nat (then_start n) <= pc st2 <= Z.of_nat (else_jump n b1))%Z \/
         pc st2 = Z.of_nat (if_end n b1 b2)) /\
        ~ (Z.of_nat (else_start n b1) <= pc st2 < Z.of_nat (if_end n b1 b2))%Z) /\
   (Js.truthy v = false ->
      pc st1 = Z.of_nat (else_start n b1) /\
      forall st2,
        path js_eval new_RegExp (Z.of_nat (else_start n b1)) (Z.of_nat (if_end n b1 b2)) st1 st2 ->
        (Z.of_nat (else_start n b1) <= pc st2 <= Z.of_nat (if_end n b1 b2))%Z /\
        ~ (Z.of_nat (then_start n) <= pc st2 <= Z.of_nat (else_jump n b1))%Z).
Proof.
  intros js_eval new_RegExp b e b1 b2 n st st1 Hok Hin Hcomp Hpc Hkeep Hstep.
  destruct (proj2 layout_code b 0 n _ Hin) as (pre & post & Hc & Hn). cbn in Hn.
  rewrite compile_script in Hcomp by exact Hok. injection Hcomp as Hp.
  unfold if_end, else_start, else_jump, then_start.
  cbn [ccomp] in Hc.
  set (c1 := ccomp_body (S n) b1) in *.
  set (c2 := ccomp_body (S (S n + List.length c1)) b2) in *.
  set (k := (S n + List.length c1)%nat) in *.
  set (m := (S k + List.length c2)%nat) in *.
  assert (Hd1 := proj2 ccomp_dests b1 (S n)). fold c1 in Hd1.
  assert (Hd2 := proj2 ccomp_dests b2 (S k)). fold c2 in Hd2.
  (* the guard *)
  assert (Hf : fetch (prog st) (pc st) = Some (JMP_FALSE (Z.of_nat (S k)) e)).
  { rewrite <- Hp, Hc, Hpc, Hn, <- (Nat.add_0_r (List.length pre)).
    rewrite fetch_mid by (cbn; lia). reflexivity. }
  destruct (jmp_false_step js_eval new_RegExp st st1 _ _ Hf Hstep) as (v & st' & Hv & ->).
  destruct (vm_eval_control js_eval new_RegExp Hkeep _ _ _ _ Hv) as [Hpc' Hprog'].
  exists v, st'. split; [exact Hv|]. split; intros Ht; rewrite Ht; cbn [pc set_pc]; rewrite ?Hpc'.
  - (* A *)
    split; [lia|]. intros st2 Hpath.
    assert (HR : ((Z.of_nat (S n) <= pc st2 <= Z.of_nat k)%Z \/ pc st2 = Z.of_nat m) /\
                 prog st2 = prog st).
    { eapply (path_inv js_eval new_RegExp Hkeep
               (fun z => (Z.of_nat (S n) <= z <= Z.of_nat k)%Z \/ z = Z.of_nat m)
               (Z.of_nat (S n)) (Z.of_nat (S k)) (prog st) _ _); [| exact Hpath | exact Hprog' | cbn; lia].
      intros i ins Hi Hfi.
      destruct (Z.eq_dec i (Z.of_nat k)) as [->|Hik].
      - assert (Hj : prog st = (pre ++ JMP_FALSE (Z.of_nat (S k)) e :: c1) ++
                               [JMP (Z.of_nat m)] ++ (c2 ++ post)).
        { rewrite <- Hp, Hc. app_norm. }
        pose proof (fetch_mid (pre ++ JMP_FALSE (Z.of_nat (S k)) e :: c1) [JMP (Z.of_nat m)]
                      (c2 ++ post) 0 ltac:(cbn; lia)) as Hk.
        replace (Z.of_nat (List.length (pre ++ JMP_FALSE (Z.of_nat (S k)) e :: c1) + 0))
          with (Z.of_nat k) in Hk by (rewrite length_app; cbn; unfold k; lia).
        assert (Hk' : fetch (prog st) (Z.of_nat k) = Some (JMP (Z.of_nat m)))
          by (rewrite Hj; exact Hk).
        rewrite Hfi in Hk'. injection Hk' as ->.
        cbn [succs]. constructor; [right; reflexivity | constructor].
      - assert (Hj : prog st = (pre ++ [JMP_FALSE (Z.of_nat (S k)) e]) ++ c1 ++
                               (JMP (Z.of_nat m) :: c2 ++ post)).
        { rewrite <- Hp, Hc. app_norm. }
        rewrite Hj in Hfi.
        assert (Hl : List.length (pre ++ [JMP_FALSE (Z.of_nat (S k)) e]) = S n)
          by (rewrite length_app; cbn; lia).
        eapply Forall_impl; [|apply (code_succs (pre ++ [JMP_FALSE (Z.of_nat (S k)) e]) c1 (JMP (Z.of_nat m) :: c2 ++ post) i ins); [rewrite Hl; exact Hd1 | rewrite Hl; unfold k in *; lia | exact Hfi]].
        intros z Hz. cbv beta in *. rewrite Hl in Hz. unfold k. lia. }
    destruct HR as [HR _]. split; [exact HR | unfold m in *; lia].
  - (* B *)
    split; [lia|]. intros st2 Hpath.
    assert (Hj : prog st = (pre ++ JMP_FALSE (Z.of_nat (S k)) e :: c1 ++ [JMP (Z.of_nat m)]) ++ c2 ++ post).
    { rewrite <- Hp, Hc. app_norm. }
    assert (Hl : List.length (pre ++ JMP_FALSE (Z.of_nat (S k)) e :: c1 ++ [JMP (Z.of_nat m)]) = S k)
      by (rewrite length_app; cbn; rewrite length_app; cbn; unfold k; lia).
    assert (HR : (Z.of_nat (S k) <= pc st2 <= Z.of_nat m)%Z /\ prog st2 = prog st).
    { eapply (path_inv js_eval new_RegExp Hkeep
               (fun z => (Z.of_nat (S k) <= z <= Z.of_nat m)%Z)
               (Z.of_nat (S k)) (Z.of_nat m) (prog st) _ _); [| exact Hpath | exact Hprog' | cbn; lia].
      intros i ins Hi Hfi. rewrite Hj in Hfi.
      eapply Forall_impl; [|apply (code_succs (pre ++ JMP_FALSE (Z.of_nat (S k)) e :: c1 ++ [JMP (Z.of_nat m)]) c2 post i ins); [rewrite Hl; exact Hd2 | rewrite Hl; unfold m in *; lia | exact Hfi]].
      intros z Hz. cbv beta in *. rewrite Hl in Hz. unfold m. lia. }
    destruct HR as [HR _]. split; [exact HR | unfold k in *; lia].
Qed.

Lemma if_else_exactly_one_witness :
  body_ok ex_ifelse = true /\
  In (0%nat, ex_ifelse_stmt) (layout_body 0 ex_ifelse) /\
  compile_tokens (script_tokens ex_ifelse) = Js.Normal (prog ex_ifelse_vm) /\
  pc ex_ifelse_vm = Z.of_nat 0 /\
  eval_keeps_control text_eval /\
  vm_step text_eval Js.regexp_of_key ex_ifelse_vm (set_pc 1 ex_ifelse_vm) /\
  exists v st', vm_eval text_eval Js.regexp_of_key ex_ifelse_vm ["1"] = Js.Normal (v, st') /\
   (Js.truthy v = true ->
      pc (set_pc 1 ex_ifelse_vm) = Z.of_nat (then_start 0) /\
      forall st2,
        path text_eval Js.regexp_of_key (Z.of_nat (then_start 0))
          (Z.of_nat (else_start 0 (BCons SStage BNil))) (set_pc 1 ex_ifelse_vm) st2 ->
        ((Z.of_nat (then_start 0) <= pc st2 <= Z.of_nat (else_jump 0 (BCons SStage BNil)))%Z \/
         pc st2 = Z.of_nat (if_end 0 (BCons SStage BNil) (BCons SClear BNil))) /\
        ~ (Z.of_nat (else_start 0 (BCons SStage BNil)) <= pc st2 <
           Z.of_nat (if_end 0 (BCons SStage BNil) (BCons SClear BNil)))%Z) /\
   (Js.truthy v = false ->
      pc (set_pc 1 ex_ifelse_vm) = Z.of_nat (else_start 0 (BCons SStage BNil)) /\
      forall st2,
        path text_eval Js.regexp_of_key (Z.of_nat (else_start 0 (BCons SStage BNil)))
          (Z.of_nat (if_end 0 (BCons SStage BNil) (BCons SClear BNil))) (set_pc 1 ex_ifelse_vm) st2 ->
        (Z.of_nat (else_start 0 (BCons SStage BNil)) <= pc st2 <=
         Z.of_nat (if_end 0 (BCons SStage BNil) (BCons SClear BNil)))%Z /\
        ~ (Z.of_nat (then_start 0) <= pc st2 <= Z.of_nat (else_jump 0 (BCons SStage BNil)))%Z).
Proof.
  assert (Hs : vm_step text_eval Js.regexp_of_key ex_ifelse_vm (set_pc 1 ex_ifelse_vm))
    by (split; [cbn; lia | vm_compute; reflexivity]).
  split; [reflexivity|]. split; [cbn; auto|].
  split; [vm_compute; reflexivity|]. split; [reflexivity|]. split; [exact text_eval_keeps|]. split; [exact Hs|].
  apply (if_else_exactly_one text_eval Js.regexp_of_key ex_ifelse); try exact Hs.
  - reflexivity.
  - cbn; auto.
  - vm_compute; reflexivity.
  - reflexivity.
  - exact text_eval_keeps.
Defined.

(** C3.  Whatever the machine state, [dt], [eval] and [RegExp], one call of
    [tick] runs at most 20 instructions (jumps included): the trace of the
    positions its loop executes, whether the call returns or throws, has at
    most [step_budget] = 20 entries. *)
Theorem tick_at_most_20 : forall js_eval new_RegExp dt st,
  match tick js_eval new_RegExp dt st with
  | Done _ tr | Raised _ _ tr => (List.length tr <= step_budget)%nat
  end.
Proof.
  intros js_eval new_RegExp dt st. unfold tick.
  destruct (negb (running st)); [cbn; lia|].
  destruct (Js.lt Js.zero (waitTimer st)); [cbn; lia|].
  pose proof (batch_trace js_eval new_RegExp step_budget st []) as Ht.
  destruct (batch js_eval new_RegExp step_budget st []) as [st' tr|e st' tr];
    destruct Ht as (new & -> & Hl); cbn [app].
  - destruct (_ && _); exact Hl.
  - exact Hl.
Qed.

(** ** The compiler around a [WAIT UNTIL] *)

(** The shapes of one iteration of the compiler's loop. *)
Lemma compile_step_cases : forall ts st d st',
  compile_step ts st = Js.Normal (d, st') ->
  st' = st \/
  (exists i, st' = emit i st) \/
  (exists a b c, st' = emit c (emit b (emit a st))) \/
  (exists bl i, (bl = IfBlock (pc_of st) \/ bl = UntilBlock (pc_of st) (pc_of st)) /\
     st' = set_stack (bl :: stack st) (emit i st)) \/
  (exists info k, lastClosedIf st = Some info /\
     st' = set_last None (set_stack (ElseBlock (pc_of st) :: stack st)
                            (patch_at (block_idx info) k (emit (JMP (-1)) st)))) \/
  (exists idx start rest k, stack st = UntilBlock idx start :: rest /\
     st' = patch_at idx k (emit (JMP (Z.of_nat start)) (emit YIELD (set_stack rest st)))) \/
  (exists idx rest k, stack st = IfBlock idx :: rest /\
     st' = set_last (Some (IfBlock idx)) (patch_at idx k (set_stack rest st))) \/
  (exists idx rest k, stack st = ElseBlock idx :: rest /\
     st' = patch_at idx k (set_stack rest st)).
Proof.
  intros ts st d st' H. unfold compile_step in H.
  destruct ts as [|t r]; [injection H as _ <-; left; reflexivity|].
  repeat match type of H with
  | context [if ?b then _ else _] => destruct b
  | context [match ?x with pair _ _ => _ end] => destruct x
  | context [match ?x with Some _ => _ | None => _ end] => destruct x eqn:?
  | context [match ?x with Js.Normal _ => _ | Js.Throw _ => _ end] => destruct x
  | context [match ?x with [] => _ | _ :: _ => _ end] => destruct x eqn:?
  | context [match ?x with IfBlock _ => _ | _ => _ end] => destruct x
  end; try discriminate H; injection H as _ <-.
  all: first
    [ left; reflexivity
    | right; left; eexists; reflexivity
    | right; right; left; do 3 eexists; reflexivity
    | right; right; right; left; do 2 eexists; split; [left; reflexivity | reflexivity]
    | right; right; right; left; do 2 eexists; split; [right; reflexivity | reflexivity]
    | right; right; right; right; left; do 2 eexists; split; [first [eassumption | reflexivity] | reflexivity]
    | right; right; right; right; right; left; do 4 eexists; split; [first [eassumption | reflexivity] | reflexivity]
    | right; right; right; right; right; right; left; do 3 eexists; split; [first [eassumption | reflexivity] | reflexivity]
    | right; right; right; right; right; right; right; do 3 eexists; split; [first [eassumption | reflexivity] | reflexivity] ].
Qed.

Lemma nth_error_patch_other : forall k d l j, k <> j ->
  nth_error (patch k d l) j = nth_error l j.
Proof.
  induction k as [|k IH]; intros d l j Hkj; destruct l as [|i r]; destruct j;
    cbn; try reflexivity; try lia.
  apply IH. lia.
Qed.

Lemma nth_error_emit : forall i st j, (j < pc_of st)%nat ->
  nth_error (instructions (emit i st)) j = nth_error (instructions st) j.
Proof. intros i st j Hj. cbn. apply nth_error_app1. exact Hj. Qed.

Lemma pc_of_emit : forall i st, pc_of (emit i st) = S (pc_of st).
Proof. intros i st. unfold pc_of. cbn. rewrite length_app. cbn. lia. Qed.

Lemma pc_of_patch : forall k d st, pc_of (patch_at k d st) = pc_of st.
Proof. intros k d st. unfold pc_of. cbn. apply length_patch. Qed.

Lemma triple_emit : forall s e i st, triple_at s e st -> triple_at s e (emit i st).
Proof.
  intros s e i st (Hp & H0 & H1 & H2 & Hs & Hl). unfold triple_at.
  rewrite pc_of_emit, !nth_error_emit by lia. cbn [stack lastClosedIf emit].
  repeat split; auto.
Qed.


Lemma triple_patch : forall s e k d st, triple_at s e st ->
  (k < s \/ s + 3 <= k)%nat -> triple_at s e (patch_at k d st).
Proof.
  intros s e k d st (Hp & H0 & H1 & H2 & Hs & Hl) Hk. unfold triple_at.
  rewrite pc_of_patch. cbn [instructions stack lastClosedIf patch_at].
  rewrite !nth_error_patch_other by lia. repeat split; auto.
Qed.

Lemma triple_step : forall s e ts st d st',
  compile_step ts st = Js.Normal (d, st') -> triple_at s e st -> triple_at s e st'.
Proof.
  intros s e ts st d st' H Ht.
  destruct (compile_step_cases _ _ _ _ H) as
    [->|[[i ->]|[(a & b & c & ->)|[(bl & i & Hbl & ->)|[(info & k & Hi & ->)|
     [(idx & start & rest & k & Hst & ->)|[(idx & rest & k & Hst & ->)|(idx & rest & k & Hst & ->)]]]]]]].
  - exact Ht.
  - apply triple_emit, Ht.
  - apply triple_emit, triple_emit, triple_emit, Ht.
  - pose proof (triple_emit s e i st Ht) as (Hp & H0 & H1 & H2 & Hs & Hl).
    destruct Ht as (Hp' & _).
    repeat split; auto. cbn [stack set_stack]. constructor; [|exact Hs].
    unfold outside. destruct Hbl as [-> | ->]; cbn; lia.
  - pose proof Ht as (Hp' & _ & _ & _ & _ & Hl').
    pose proof (Hl' _ Hi) as Hk.
    pose proof (triple_patch s e (block_idx info) k _ (triple_emit s e (JMP (-1)) st Ht) Hk)
      as (Hp & H0 & H1 & H2 & Hs & Hl).
    repeat split; auto; [| discriminate].
    cbn [stack set_stack set_last]. constructor; [|exact Hs]. unfold outside; cbn; lia.
  - destruct Ht as (Hp & H0 & H1 & H2 & Hs & Hl). rewrite Hst in Hs.
    inversion Hs as [|? ? Hidx Hrest]; subst.
    apply triple_patch; [|exact Hidx].
    apply triple_emit, triple_emit. repeat split; auto.
  - destruct Ht as (Hp & H0 & H1 & H2 & Hs & Hl). rewrite Hst in Hs.
    inversion Hs as [|? ? Hidx Hrest]; subst.
    assert (Ht : triple_at s e (patch_at idx k (set_stack rest st)))
      by (apply triple_patch; [repeat split; auto | exact Hidx]).
    destruct Ht as (Hp' & H0' & H1' & H2' & Hs' & _).
    repeat split; auto. intros b Hb. injection Hb as <-. exact Hidx.
  - destruct Ht as (Hp & H0 & H1 & H2 & Hs & Hl). rewrite Hst in Hs.
    inversion Hs as [|? ? Hidx Hrest]; subst.
    apply triple_patch; [repeat split; auto | exact Hidx].
Qed.

Lemma triple_loop : forall s e f ts st fin,
  compile_loop f ts st = Js.Normal fin -> triple_at s e st -> triple_at s e fin.
Proof.
  induction f as [|f IH]; intros ts st fin H Ht; cbn [compile_loop] in H.
  - injection H as <-. exact Ht.
  - destruct ts as [|t r]; [injection H as <-; exact Ht|].
    destruct (compile_step (t :: r) st) as [[d st']|err] eqn:E; [|discriminate H].
    exact (IH _ _ _ H (triple_step s e _ _ _ _ E Ht)).
Qed.

(** Where the loop is after some iterations, it finishes as it would have
    from the start. *)
Lemma reaches_loop : forall ts st ts' st',
  reaches ts st ts' st' -> forall f fin, (List.length ts <= f)%nat ->
  compile_loop f ts st = Js.Normal fin ->
  compile_loop (List.length ts') ts' st' = Js.Normal fin.
Proof.
  induction 1 as [ts st|t r st d st' ts'' st'' Hs Hr IH]; intros f fin Hf H.
  - rewrite (compile_loop_fuel _ f) by lia. exact H.
  - destruct f as [|f]; [cbn in Hf; lia|].
    cbn [compile_loop] in H. rewrite Hs in H.
    apply (IH f); [rewrite length_skipn; cbn in *; lia | exact H].
Qed.

Ltac bb_norm :=
  unfold blocks_below, pc_of in *;
  cbn [stack lastClosedIf emit set_stack set_last patch_at instructions block_idx] in *;
  rewrite ?length_patch, ?length_app in *; cbn [List.length] in *.

Lemma blocks_below_step : forall ts st d st',
  compile_step ts st = Js.Normal (d, st') -> blocks_below st -> blocks_below st'.
Proof.
  intros ts st d st' H [Hs Hl].
  destruct (compile_step_cases _ _ _ _ H) as
    [->|[[i ->]|[(a & b & c & ->)|[(bl & i & Hbl & ->)|[(info & k & Hi & ->)|
     [(idx & start & rest & k & Hst & ->)|[(idx & rest & k & Hst & ->)|(idx & rest & k & Hst & ->)]]]]]]];
    bb_norm.
  - split; assumption.
  - split; [eapply Forall_impl; [|exact Hs]; cbv beta; intros; lia | intros b0 Hb0; specialize (Hl _ Hb0); lia].
  - split; [eapply Forall_impl; [|exact Hs]; cbv beta; intros; lia | intros b0 Hb0; specialize (Hl _ Hb0); lia].
  - split; [constructor; [destruct Hbl as [-> | ->]; cbn; lia|] | intros b0 Hb0; specialize (Hl _ Hb0); lia].
    eapply Forall_impl; [|exact Hs]; cbv beta; intros; lia.
  - split; [constructor; [cbn; lia|] | discriminate].
    eapply Forall_impl; [|exact Hs]; cbv beta; intros; lia.
  - rewrite Hst in Hs. inversion Hs; subst.
    split; [eapply Forall_impl; [|eassumption]; cbv beta; intros; lia|].
    intros b0 Hb0. specialize (Hl _ Hb0). lia.
  - rewrite Hst in Hs. inversion Hs; subst.
    split; [eassumption|]. intros b0 Hb0. injection Hb0 as <-. cbn. assumption.
  - rewrite Hst in Hs. inversion Hs; subst.
    split; [eassumption|]. exact Hl.
Qed.

Lemma blocks_below_reaches : forall ts st ts' st',
  reaches ts st ts' st' -> blocks_below st -> blocks_below st'.
Proof.
  induction 1 as [|t r st d st' ts'' st'' Hs Hr IH]; intros Hb; [exact Hb|].
  exact (IH (blocks_below_step _ _ _ _ Hs Hb)).
Qed.

Lemma blocks_below_cinit : blocks_below cinit.
Proof. split; [constructor | discriminate]. Qed.

(** The iteration at a [WAIT UNTIL]. *)
Lemma compile_step_wait_until : forall u rest st,
  val u = "UNTIL" ->
  compile_step (mk_token "WAIT" :: u :: rest) st =
  Js.Normal (2 + snd (gather rest),
    emit (JMP (Z.of_nat (pc_of st)))
      (emit YIELD (emit (JMP_TRUE (Z.of_nat (pc_of st + 3)) (fst (gather rest))) st)))%nat.
Proof.
  intros u rest st Hu. unfold compile_step. cbn -[gather pc_of emit]. rewrite Hu. cbn -[gather pc_of emit].
  destruct (gather rest); reflexivity.
Qed.

Lemma compile_loop_cons : forall f t r st,
  compile_loop (S f) (t :: r) st =
  (x <- compile_step (t :: r) st ;; let '(d, st') := x in compile_loop f (skipn (S d) (t :: r)) st').
Proof. reflexivity. Qed.

Lemma fetch_nat : forall p k, fetch p (Z.of_nat k) = nth_error p k.
Proof.
  intros p k. unfold fetch. destruct (Z.of_nat k <? 0)%Z eqn:E; [apply Z.ltb_lt in E; lia|].
  rewrite Nat2Z.id. reflexivity.
Qed.

(** C2, the counterexample.  In [ex_spin_src] the wait occupies positions
    19, 20 and 21.  The first [tick] runs positions 0 to 19 and spends its
    budget on the guard, which is false: it stops before the [YIELD], at 20.
    The next [tick] runs the [YIELD] alone and returns without evaluating
    the condition: a re-entry that does not poll it. *)
Lemma wait_until_unpolled_tick :
  let st0 := run ex_spin_src vm0 in
  fetch (prog st0) 19 = Some (JMP_TRUE 22 ["0"]) /\
  fetch (prog st0) 20 = Some YIELD /\
  fetch (prog st0) 21 = Some (JMP 19) /\
  match tick text_eval Js.regexp_of_key Js.one st0 with
  | Done st1 tr1 =>
      tr1 = map Z.of_nat (seq 0 20) /\ pc st1 = 20%Z /\
      match tick text_eval Js.regexp_of_key Js.one st1 with
      | Done st2 tr2 => tr2 = [20%Z] /\ pc st2 = 21%Z /\ running st2 = true
      | Raised _ _ _ => False
      end
  | Raised _ _ _ => False
  end.
Proof. vm_compute. repeat split; reflexivity. Qed.

(** C2, as the code behaves.  Take a [WAIT UNTIL cond .] that the
    compiler's loop reaches as a statement, with [s] the number of
    instructions emitted before it and [cond] the tokens it gathers.  The
    program has [JMP_TRUE (s+3) cond], [YIELD] and [JMP s] at [s], [s+1]
    and [s+2].  When evaluations keep [pc] and the program: an instruction
    run from one of these positions evaluates [cond] only at [s], and leaves
    the three positions only from [s] to [s+3], when the value is truthy; a
    falsy value leads to the [YIELD]; and a [tick] that runs the [YIELD]
    ends with it, at [s+2].  (A [tick] can also return without evaluating
    [cond], see the counterexample.) *)
Theorem wait_until_construct :
  forall js_eval new_RegExp source p u rest st,
  compile source = Js.Normal p ->
  reaches (tokenize source) cinit (mk_token "WAIT" :: u :: rest) st ->
  val u = "UNTIL" ->
  let s := pc_of st in
  let e := fst (gather rest) in
  fetch p (Z.of_nat s) = Some (JMP_TRUE (Z.of_nat (s + 3)) e) /\
  fetch p (Z.of_nat (s + 1)) = Some YIELD /\
  fetch p (Z.of_nat (s + 2)) = Some (JMP (Z.of_nat s)) /\
  (eval_keeps_control js_eval ->
   forall vst vst', prog vst = p -> vm_step js_eval new_RegExp vst vst' ->
     (Z.of_nat s <= pc vst <= Z.of_nat (s + 2))%Z ->
     (pc vst = Z.of_nat s /\
      exists v vst1, vm_eval js_eval new_RegExp vst e = Js.Normal (v, vst1) /\
                     pc vst' = Z.of_nat (if Js.truthy v then s + 3 else s + 1)) \/
     (pc vst = Z.of_nat (s + 1) /\ pc vst' = Z.of_nat (s + 2)) \/
     (pc vst = Z.of_nat (s + 2) /\ pc vst' = Z.of_nat s)) /\
  (eval_keeps_control js_eval ->
   forall dt vst vst' tr, prog vst = p ->
     tick js_eval new_RegExp dt vst = Done vst' tr -> In (Z.of_nat (s + 1)) tr ->
     (exists pre, tr = pre ++ [Z.of_nat (s + 1)]) /\ pc vst' = Z.of_nat (s + 2)).
Proof.
  intros js_eval new_RegExp source p u rest st Hc Hr Hu s e.
  unfold compile, compile_tokens, compile_tokens_state in Hc.
  destruct (compile_loop _ _ cinit) as [fin|err] eqn:Hfin; [|discriminate Hc].
  injection Hc as <-.
  pose proof (reaches_loop _ _ _ _ Hr _ _ (le_n _) Hfin) as Hl.
  pose proof (blocks_below_reaches _ _ _ _ Hr blocks_below_cinit) as [Hbs Hbl].
  change (List.length (mk_token "WAIT" :: u :: rest)) with (S (S (List.length rest))) in Hl.
  rewrite compile_loop_cons, compile_step_wait_until in Hl by exact Hu.
  cbv zeta in Hl. fold s e in Hl.
  assert (Ht : triple_at s e (emit (JMP (Z.of_nat s)) (emit YIELD
                 (emit (JMP_TRUE (Z.of_nat (s + 3)) e) st)))).
  { unfold triple_at. rewrite !pc_of_emit. cbn [instructions stack lastClosedIf emit].
    rewrite <- !app_assoc. cbn [app].
    assert (Hlen : List.length (instructions st) = s) by reflexivity.
    rewrite !nth_error_app2 by lia. rewrite Hlen, !Nat.sub_diag.
    replace (s + 1 - s)%nat with 1%nat by lia. replace (s + 2 - s)%nat with 2%nat by lia.
    repeat split; [lia | |].
    - eapply Forall_impl; [|exact Hbs]. cbv beta. intros b Hb. left. exact Hb.
    - intros b Hb. left. exact (Hbl _ Hb). }
  destruct (triple_loop s e _ _ _ _ Hl Ht) as (_ & H0 & H1 & H2 & _).
  rewrite <- !fetch_nat in H0, H1, H2.
  split; [exact H0|]. split; [exact H1|]. split; [exact H2|]. split.
  - intros Hkeep vst vst' Hprog Hstep Hrange.
    assert (Hcase : pc vst = Z.of_nat s \/ pc vst = Z.of_nat (s + 1) \/
                    pc vst = Z.of_nat (s + 2)) by lia.
    destruct Hcase as [Hpc|[Hpc|Hpc]].
    + left. split; [exact Hpc|].
      rewrite <- Hprog, <- Hpc in H0.
      destruct (jmp_true_step js_eval new_RegExp vst vst' _ _ H0 Hstep)
        as (v & vst1 & Hv & ->).
      destruct (vm_eval_control js_eval new_RegExp Hkeep _ _ _ _ Hv) as [Hp1 _].
      exists v, vst1. split; [exact Hv|]. cbn [pc set_pc]. rewrite Hp1, Hpc.
      destruct (Js.truthy v); lia.
    + right; left. split; [exact Hpc|].
      destruct Hstep as [_ Hs]. rewrite Hprog, Hpc, H1 in Hs. subst vst'.
      cbn. lia.
    + right; right. split; [exact Hpc|].
      destruct Hstep as [_ Hs]. rewrite Hprog, Hpc, H2 in Hs. cbn [exec] in Hs.
      injection Hs as <-. reflexivity.
  - intros Hkeep dt vst vst' tr Hprog Ht' Hi. unfold tick in Ht'.
    destruct (negb (running vst)); [injection Ht' as _ <-; contradiction|].
    destruct (Js.lt Js.zero (waitTimer vst)); [injection Ht' as _ <-; contradiction|].
    rewrite <- Hprog in H1.
    pose proof (batch_yield js_eval new_RegExp Hkeep step_budget vst [] _ H1) as Hy.
    destruct (batch js_eval new_RegExp step_budget vst []) as [st1 tr1|]; [|discriminate].
    assert (Htr : tr = tr1 /\ pc vst' = pc st1)
      by (destruct (_ && _); injection Ht' as <- <-; split; reflexivity).
    destruct Htr as [-> Hpc']. destruct (Hy tr1 eq_refl Hi) as [Hpre Hpc1].
    split; [exact Hpre | rewrite Hpc', Hpc1; lia].
Qed.

Lemma wait_until_construct_witness :
  compile ex_wait_src = Js.Normal (ccomp_body 0 ex_wait) /\
  reaches (tokenize ex_wait_src) cinit
    (mk_token "WAIT" :: mk_token "UNTIL" :: map mk_token ["ALTITUDE"; ">"; "1000"; "."]) cinit /\
  val (mk_token "UNTIL") = "UNTIL" /\
  fetch (ccomp_body 0 ex_wait) 0 = Some (JMP_TRUE 3 ["ALTITUDE"; ">"; "1000"]).
Proof.
  split; [vm_compute; reflexivity|]. split; [vm_compute; apply reaches_here|].
  split; [reflexivity|].
  refine (proj1 (wait_until_construct text_eval Js.regexp_of_key ex_wait_src
    (ccomp_body 0 ex_wait) (mk_token "UNTIL") (map mk_token ["ALTITUDE"; ">"; "1000"; "."])
    cinit _ _ _)).
  - vm_compute; reflexivity.
  - vm_compute; apply reaches_here.
  - reflexivity.
Defined.

(** C4, the counterexamples.  [IF 1 .] has no braces at all, so its
    braces are balanced; yet the compiler returns with the [IF] block still
    on its stack and the guard's destination still the placeholder [-1].
    In [IF 1 { LOCK THROTTLE . }], which lacks the [TO], the [LOCK] gathers
    its expression from the third token after it, the closing brace: the
    [IF] is again left open. *)
Lemma unclosed_if_kept :
  compile_tokens_state (tokenize "IF 1 .") =
    Js.Normal {| instructions := [JMP_FALSE (-1) ["1"]]; stack := [IfBlock 0];
                 lastClosedIf := None |} /\
  compile_tokens_state (tokenize "IF 1 { LOCK THROTTLE . }") =
    Js.Normal {| instructions := [JMP_FALSE (-1) ["1"]; LOCK "THROTTLE" ["}"]];
                 stack := [IfBlock 0]; lastClosedIf := None |}.
Proof. vm_compute. split; reflexivity. Qed.

(** C4, as the code behaves.  For a token sequence of the grammar of
    [render_body] (statements [PRINT e .], [PRINT e AT ( x , y )],
    [LOCK x TO e .], [SET x TO e .], [DECLARE PARAMETER x .], [WAIT t .]
    with [t] other than [UNTIL], [WAIT UNTIL e .], [STAGE .],
    [CLEARSCREEN .], [IF e { S }], [IF e { S } ELSE { S }] and
    [UNTIL e { S }], each expression free of [{], [.] and [AT]), the
    compiler returns with an empty block stack, and every destination of a
    jump lies in [[0, len]], [len] being the program's length: no
    placeholder [-1] is left. *)
Theorem script_compiles_closed : forall b st,
  body_ok b = true ->
  compile_tokens_state (script_tokens b) = Js.Normal st ->
  stack st = [] /\
  dests_within 0 (Z.of_nat (List.length (instructions st))) (instructions st).
Proof.
  intros b st Hok Hc.
  destruct (compile_script_state b Hok) as (l & Hs).
  rewrite Hs in Hc. injection Hc as <-. cbn [stack instructions].
  split; [reflexivity|].
  exact (proj2 ccomp_dests b 0%nat).
Qed.

Lemma script_compiles_closed_witness :
  body_ok ex_ifelse = true /\
  compile_tokens_state (script_tokens ex_ifelse) =
    Js.Normal {| instructions := [JMP_FALSE 3 ["1"]; STAGE; JMP 4; CLEAR]; stack := [];
                 lastClosedIf := None |} /\
  stack {| instructions := [JMP_FALSE 3 ["1"]; STAGE; JMP 4; CLEAR]; stack := [];
           lastClosedIf := None |} = [] /\
  dests_within 0 (Z.of_nat 4) [JMP_FALSE 3 ["1"]; STAGE; JMP 4; CLEAR].
Proof.
  assert (Hc : compile_tokens_state (script_tokens ex_ifelse) =
    Js.Normal {| instructions := [JMP_FALSE 3 ["1"]; STAGE; JMP 4; CLEAR]; stack := [];
                 lastClosedIf := None |}) by (vm_compute; reflexivity).
  split; [reflexivity|]. split; [exact Hc|].
  exact (script_compiles_closed ex_ifelse _ eq_refl Hc).
Defined.

(** C5.  Running [STAGE] advances [pc] by one.  When the stage count is
    greater than 0 it decrements the count, sets the fuel to [fuelStart]
    and multiplies the dry mass by [0.6]; otherwise, in particular when the
    count is 0, the physics is left as it was.  From two stages, one is
    left. *)
Theorem stage_effect : forall js_eval new_RegExp st st',
  fetch (prog st) (pc st) = Some STAGE ->
  vm_step js_eval new_RegExp st st' ->
  pc st' = (pc st + 1)%Z /\
  (Js.lt Js.zero (stages (phys st)) = true ->
     stages (phys st') = Js.sub (stages (phys st)) Js.one /\
     fuel (phys st') = fuelStart (phys st) /\
     massDry (phys st') = Js.mul (massDry (phys st)) retention) /\
  (Js.lt Js.zero (stages (phys st)) = false -> phys st' = phys st) /\
  (stages (phys st) = Js.zero -> phys st' = phys st) /\
  (stages (phys st) = Js.of_Z 2 ->
     stages (phys st') = Js.of_Z 1 /\ fuel (phys st') = fuelStart (phys st) /\
     massDry (phys st') = Js.mul (massDry (phys st)) retention).
Proof.
  intros js_eval new_RegExp st st' Hf [_ Hs]. rewrite Hf in Hs. cbn [exec] in Hs.
  destruct (Js.lt Js.zero (stages (phys st))) eqn:Hlt; injection Hs as <-.
  - split; [reflexivity|]. split; [auto|]. split; [discriminate|]. split.
    + intros Hz. rewrite Hz in Hlt. discriminate.
    + intros H2. cbn. rewrite H2. split; [vm_compute; reflexivity | auto].
  - split; [reflexivity|]. split; [discriminate|]. split; [reflexivity|]. split.
    + reflexivity.
    + intros H2. rewrite H2 in Hlt. discriminate.
Qed.

Lemma stage_effect_witness :
  fetch (prog ex_stage_vm) (pc ex_stage_vm) = Some STAGE /\
  vm_step text_eval Js.regexp_of_key ex_stage_vm ex_stage_next /\
  pc ex_stage_next = (pc ex_stage_vm + 1)%Z /\
  (Js.lt Js.zero (stages (phys ex_stage_vm)) = true ->
     stages (phys ex_stage_next) = Js.sub (stages (phys ex_stage_vm)) Js.one /\
     fuel (phys ex_stage_next) = fuelStart (phys ex_stage_vm) /\
     massDry (phys ex_stage_next) = Js.mul (massDry (phys ex_stage_vm)) retention) /\
  (Js.lt Js.zero (stages (phys ex_stage_vm)) = false -> phys ex_stage_next = phys ex_stage_vm) /\
  (stages (phys ex_stage_vm) = Js.zero -> phys ex_stage_next = phys ex_stage_vm) /\
  (stages (phys ex_stage_vm) = Js.of_Z 2 ->
     stages (phys ex_stage_next) = Js.of_Z 1 /\
     fuel (phys ex_stage_next) = fuelStart (phys ex_stage_vm) /\
     massDry (phys ex_stage_next) = Js.mul (massDry (phys ex_stage_vm)) retention).
Proof.
  assert (Hf : fetch (prog ex_stage_vm) (pc ex_stage_vm) = Some STAGE) by reflexivity.
  assert (Hs : vm_step text_eval Js.regexp_of_key ex_stage_vm ex_stage_next)
    by (split; [cbn; lia | vm_compute; reflexivity]).
  split; [exact Hf|]. split; [exact Hs|].
  exact (stage_effect text_eval Js.regexp_of_key ex_stage_vm ex_stage_next Hf Hs).
Defined.

(** C6, the counterexample.  A division by zero raises nothing in
    JavaScript: [1 / 0] is [Infinity], and [VM.eval] returns [Infinity],
    not 0. *)
Lemma division_by_zero_infinity :
  vm_subst Js.regexp_of_key vm0 ["1"; "/"; "0"] = Js.Normal "1 / 0"%string /\
  Js.js_fragment "1 / 0" = Some (Js.Normal (Js.VNum (S754_infinity false))) /\
  vm_eval text_eval Js.regexp_of_key vm0 ["1"; "/"; "0"] =
    Js.Normal (Js.VNum (S754_infinity false), vm0).
Proof. vm_compute. repeat split; reflexivity. Qed.

(** C6, as the code behaves.  When every variable holds a primitive other
    than a Symbol (the values of the model) and the [RegExp] of every
    variable name can be built, [VM.eval] raises nothing: it builds a text,
    and returns what [eval] returns on it, or 0 when [eval] throws (a
    syntax error, an unresolved name, ...), with the machine [eval] left.
    A division by zero does not throw and gives [Infinity], [-Infinity] or
    [NaN]. *)
Theorem eval_throw_gives_zero : forall js_eval new_RegExp st tokens,
  (forall key, In key (map fst (own (vars st))) -> exists m, new_RegExp key = Js.Normal m) ->
  exists str, vm_subst new_RegExp st tokens = Js.Normal str /\
   vm_eval js_eval new_RegExp st tokens =
     match js_eval str st with
     | (Js.Normal v, st') => Js.Normal (v, st')
     | (Js.Throw _, st') => Js.Normal (Js.VNum Js.zero, st')
     end.
Proof.
  intros js_eval new_RegExp st tokens Hre.
  assert (Hk : forall key, In key (keys_in_order (vars st)) -> exists m, new_RegExp key = Js.Normal m)
    by (intros key Hin; apply Hre, keys_in_order_keys, Hin).
  enough (E : exists str, vm_subst new_RegExp st tokens = Js.Normal str)
    by (destruct E as [str Hs]; exists str; split; [exact Hs | unfold vm_eval; rewrite Hs; reflexivity]).
  unfold vm_subst. cbv zeta.
  revert Hk. generalize (keys_in_order (vars st)) as ks.
  match goal with |- context [Js.replace Js.round ?x ?y] =>
    generalize (Js.replace Js.round x y) as s0 end.
  intros s0 ks. revert s0.
  induction ks as [|key ks IH]; intros s0 Hk.
  - exists s0. reflexivity.
  - destruct (Hk key (or_introl eq_refl)) as [m Hm]. cbn [app]. rewrite Hm.
    apply IH. intros k Hin. apply Hk. right. exact Hin.
Qed.

Lemma eval_throw_gives_zero_witness :
  let st := set_vars (store_of [("x"%string, Js.VNum (Js.of_Z 5))]) vm0 in
  (forall key, In key (map fst (own (vars st))) -> exists m, Js.regexp_of_key key = Js.Normal m) /\
  exists str, vm_subst Js.regexp_of_key st ["x"; "+"; "1"] = Js.Normal str /\
   vm_eval text_eval Js.regexp_of_key st ["x"; "+"; "1"] =
     match text_eval str st with
     | (Js.Normal v, st') => Js.Normal (v, st')
     | (Js.Throw _, st') => Js.Normal (Js.VNum Js.zero, st')
     end.
Proof.
  intros st.
  assert (H : forall key, In key (map fst (own (vars st))) -> exists m, Js.regexp_of_key key = Js.Normal m).
  { intros key [<-|[]]. eexists. reflexivity. }
  split; [exact H|].
  exact (eval_throw_gives_zero text_eval Js.regexp_of_key st ["x"; "+"; "1"] H).
Defined.

(** C7.  The symbol substitutions of [VM.eval] replace names inside
    longer tokens.  The telemetry patterns have no word boundaries:
    [ALTITUDE] is replaced inside the token [MAXALTITUDE], and [APOAPSIS]
    inside the token [ETA:APOAPSIS], which therefore never reaches its own
    substitution.  The word boundary [\b] of the variable patterns counts
    only [[A-Za-z0-9_]] as word characters, while the tokenizer makes [:]
    part of a token: the variable [a] is replaced inside the token [a:b]
    (it is left alone inside [apple]). *)
Theorem substring_substituted :
  vm_subst Js.regexp_of_key vm0 ["ETA:APOAPSIS"] = Js.Normal "ETA:200"%string /\
  vm_subst Js.regexp_of_key vm0 ["MAXALTITUDE"] = Js.Normal "MAX100"%string /\
  vm_subst Js.regexp_of_key (set_vars (store_of [("a"%string, Js.VNum Js.one)]) vm0) ["a:b"] =
    Js.Normal "1:b"%string /\
  vm_subst Js.regexp_of_key (set_vars (store_of [("a"%string, Js.VNum Js.one)]) vm0) ["apple"] =
    Js.Normal "apple"%string /\
  tokenize "PRINT ETA:APOAPSIS + MAXALTITUDE + a:b ." =
    map mk_token ["PRINT"; "ETA:APOAPSIS"; "+"; "MAXALTITUDE"; "+"; "a:b"; "."].
Proof. vm_compute. repeat split; reflexivity. Qed.



(** C8.  [PRINT ROUND(3.7) .] does not print 4.  The tokenizer splits
    [3.7] at the [.], which is a token of its own; [gather] stops the
    expression at that [.], so the instruction is [PRINT] of
    [ROUND ( 3].  Joined with spaces the text no longer matches the
    pattern [ROUND\(...\)], and [eval] throws a syntax error on it, so the
    value printed is 0. *)
Theorem round_literal_prints_zero :
  compile "PRINT ROUND(3.7) ." = Js.Normal [PRINT ["ROUND"; "("; "3"] None] /\
  vm_subst Js.regexp_of_key (run "PRINT ROUND(3.7) ." vm0) ["ROUND"; "("; "3"] =
    Js.Normal "ROUND ( 3"%string /\
  (exists err, Js.js_fragment "ROUND ( 3" = Some (Js.Throw err)) /\
  vm_eval text_eval Js.regexp_of_key (run "PRINT ROUND(3.7) ." vm0) ["ROUND"; "("; "3"] =
    Js.Normal (Js.VNum Js.zero, run "PRINT ROUND(3.7) ." vm0) /\
  match tick text_eval Js.regexp_of_key Js.one (run "PRINT ROUND(3.7) ." vm0) with
  | Done st _ =>
      map msg (logs st) =
        [Js.VStr "Program Loaded."; Js.VNum Js.zero; Js.VStr "Program Ended."]
  | Raised _ _ _ => False
  end.
Proof.
  split; [vm_compute; reflexivity|]. split; [vm_compute; reflexivity|].
  split; [eexists; vm_compute; reflexivity|].
  split; vm_compute; reflexivity.
Qed.

(** C9, the counterexample.  [LOCK THROTTLE .] has no [TO], yet it compiles
    without error (to a [LOCK] with an empty expression).  And a
    compile error does not stop a running machine: after [run "LOCK"] on a
    running machine, [running] is still true. *)
Lemma missing_to_compiles :
  compile "LOCK THROTTLE ." = Js.Normal [LOCK "THROTTLE" []] /\
  compile "LOCK" = Js.Throw undefined_val /\
  running (run "LOCK" (set_running true vm0)) = true.
Proof. vm_compute. repeat split; reflexivity. Qed.

(** C9, as the code behaves.  The only error compilation raises is the
    [TypeError] of reading [.val] of a missing token (a statement cut short
    at the end of the script, as [LOCK] with nothing after it); it carries
    no position.  [run] catches it: it logs ["Compile Error: "] followed by
    its message at level ["err"], after resetting the variables, and
    changes nothing else; in particular [running] keeps its value. *)
Theorem compile_error_caught : forall code st e,
  compile code = Js.Throw e ->
  e = undefined_val /\
  run code st = log (Js.VStr ("Compile Error: " ++ Js.message e)%string) (Some "err") None
                  (set_vars empty_store st) /\
  running (run code st) = running st.
Proof.
  intros code st e H.
  assert (He : e = undefined_val).
  { unfold compile, compile_tokens, compile_tokens_state in H.
    destruct (compile_loop _ _ cinit) as [cs|e'] eqn:E; [discriminate H|].
    injection H as <-. exact (compile_loop_error _ _ _ _ E). }
  split; [exact He|]. unfold run. rewrite H. split; reflexivity.
Qed.

Lemma compile_error_caught_witness :
  compile "LOCK" = Js.Throw undefined_val /\
  undefined_val = undefined_val /\
  run "LOCK" (set_running true vm0) =
    log (Js.VStr ("Compile Error: " ++ Js.message undefined_val)%string) (Some "err") None
      (set_vars empty_store (set_running true vm0)) /\
  running (run "LOCK" (set_running true vm0)) = running (set_running true vm0).
Proof.
  assert (H : compile "LOCK" = Js.Throw undefined_val) by (vm_compute; reflexivity).
  split; [exact H|].
  exact (compile_error_caught "LOCK" (set_running true vm0) undefined_val H).
Defined.

(** C10.  When compilation throws, [run] has already emptied the variable
    store, and the program, [pc], [running] and [waitTimer] keep their
    values: a machine running its previous program goes on running it,
    with no variables. *)
Theorem run_compile_error_state : forall code st e,
  compile code = Js.Throw e ->
  vars (run code st) = empty_store /\
  prog (run code st) = prog st /\
  pc (run code st) = pc st /\
  running (run code st) = running st /\
  waitTimer (run code st) = waitTimer st.
Proof.
  intros code st e H. unfold run. rewrite H. cbn. repeat split.
Qed.

Lemma run_compile_error_state_witness :
  let st := set_running true (set_vars (store_of [("x"%string, Js.VNum Js.one)])
              (set_prog [STAGE] vm0)) in
  compile "LOCK" = Js.Throw undefined_val /\
  vars (run "LOCK" st) = empty_store /\
  prog (run "LOCK" st) = prog st /\
  pc (run "LOCK" st) = pc st /\
  running (run "LOCK" st) = running st /\
  waitTimer (run "LOCK" st) = waitTimer st.
Proof.
  intros st.
  assert (H : compile "LOCK" = Js.Throw undefined_val) by (vm_compute; reflexivity).
  split; [exact H|].
  exact (run_compile_error_state "LOCK" st undefined_val H).
Defined.

(** ** Further properties of the code *)

(** *** The variable store *)




Lemma set_own_keys_has : forall k v l, In k (map fst (set_own k v l)).
Proof.
  intros k v l. induction l as [|[k' v'] r IH]; cbn; [auto|].
  destruct (String.eqb k k'); cbn; auto.
Qed.


Lemma get_set_own : forall k v l k',
  get_own k' (set_own k v l) = if String.eqb k' k then v else get_own k' l.
Proof.
  intros k v l k'. induction l as [|[k0 v0] r IH]; cbn.
  - destruct (String.eqb k' k); reflexivity.
  - destruct (String.eqb k k0) eqn:E; cbn.
    + apply String.eqb_eq in E. subst. destruct (String.eqb k' k0); reflexivity.
    + rewrite IH. destruct (String.eqb k' k) eqn:E1; [|reflexivity].
      apply String.eqb_eq in E1. subst. rewrite E. reflexivity.
Qed.

(** [obj[k] = v] keeps the own keys, or adds [k]; it adds [__proto__] only
    once the prototype is [null]. *)
Lemma store_set_cases : forall k v s,
  (String.eqb k "__proto__" && negb (proto_null s) = true /\
   own (store_set k v s) = own s /\
   (proto_null (store_set k v s) = true \/ store_set k v s = s)) \/
  (String.eqb k "__proto__" && negb (proto_null s) = false /\
   store_set k v s = {| own := set_own k v (own s); proto_null := proto_null s |}).
Proof.
  intros k v s. unfold store_set.
  destruct (String.eqb k "__proto__" && negb (proto_null s)) eqn:E; [left|right; auto].
  split; [reflexivity|]. destruct v; cbn; auto.
Qed.


Lemma insert_index_perm : forall k i l,
  Permutation (map fst (insert_index k i l)) (k :: map fst l).
Proof.
  intros k i l. induction l as [|[k' i'] r IH]; cbn; [reflexivity|].
  destruct (i <? i')%Z; cbn; [reflexivity|].
  etransitivity; [apply perm_skip, IH|]. apply perm_swap.
Qed.

Lemma keys_fold_perm : forall (s : list (string * Js.value)) acc,
  Permutation
    (map fst (fold_left (fun acc '(k, _) =>
       match array_index k with Some i => insert_index k i acc | None => acc end) s acc))
    (map fst acc ++
     map fst (filter (fun '(k, _) => match array_index k with Some _ => true | None => false end) s)).
Proof.
  intros s. induction s as [|[k v] r IH]; intros acc; cbn.
  - rewrite app_nil_r. reflexivity.
  - destruct (array_index k) as [i|]; cbn.
    + etransitivity; [apply IH|].
      etransitivity; [apply Permutation_app_tail, insert_index_perm|].
      cbn. apply Permutation_middle.
    + apply IH.
Qed.

Lemma filter_split_perm : forall {A} (f : A -> bool) (l : list A),
  Permutation (filter f l ++ filter (fun x => negb (f x)) l) l.
Proof.
  intros A f l. induction l as [|x r IH]; cbn; [reflexivity|].
  destruct (f x); cbn.
  - apply perm_skip, IH.
  - etransitivity; [symmetry; apply Permutation_middle|]. apply perm_skip, IH.
Qed.

(** [this.vars[k] = v] then [this.vars[k]]: a name other than [__proto__]
    reads back the value set, and so does [__proto__] once the prototype is
    [null]; every other name reads what it read before. *)
Theorem store_set_lookup : forall k v s,
  (k <> "__proto__"%string \/ proto_null s = true -> store_get k (store_set k v s) = v) /\
  (forall k', k' <> k -> store_get k' (store_set k v s) = store_get k' s).
Proof.
  intros k v s. unfold store_get.
  destruct (store_set_cases k v s) as [(E & Ho & _)|(E & ->)].
  - split.
    + intros Hk. apply andb_true_iff in E. destruct E as [E1 E2].
      apply String.eqb_eq in E1. destruct Hk as [Hk|Hk]; [contradiction|].
      rewrite Hk in E2. discriminate E2.
    + intros k' _. rewrite Ho. reflexivity.
  - cbn [own]. split.
    + intros _. rewrite get_set_own, String.eqb_refl. reflexivity.
    + intros k' Hk'. rewrite get_set_own.
      destruct (String.eqb k' k) eqn:E1; [apply String.eqb_eq in E1; contradiction|reflexivity].
Qed.

(** [for (let key in this.vars)] in [VM.eval] visits every own key of the
    store, each as often as the store holds it: the keys it visits are a
    permutation of the own keys.  (The prototype, [Object.prototype] or
    [null] while the store holds primitives, has no enumerable key.) *)
Theorem keys_in_order_perm : forall s, Permutation (keys_in_order s) (map fst (own s)).
Proof.
  intros s. unfold keys_in_order.
  etransitivity; [apply Permutation_app_tail, keys_fold_perm|]. cbn.
  etransitivity; [|apply (Permutation_map fst (filter_split_perm
    (fun '(k, _) => match array_index k with Some _ => true | None => false end) (own s)))].
  rewrite map_app. apply Permutation_app_head.
  erewrite filter_ext; [reflexivity|]. intros [k v]. cbn.
  destruct (array_index k); reflexivity.
Qed.









(** *** [VM.tick] at the edges of the program *)

Lemma batch_S : forall js_eval new_RegExp b st tr,
  batch js_eval new_RegExp (S b) st tr =
  if (pc st <? Z.of_nat (List.length (prog st)))%Z then
    let tr' := tr ++ [pc st] in
    match fetch (prog st) (pc st) with
    | None => Raised op_error st tr'
    | Some YIELD => Done (advance st) tr'
    | Some (WAIT t) => Done (advance (set_waitTimer t st)) tr'
    | Some cmd =>
        match exec js_eval new_RegExp cmd st with
        | Js.Normal st' => batch js_eval new_RegExp b st' tr'
        | Js.Throw e => Raised e st tr'
        end
    end
  else Done st tr.
Proof. reflexivity. Qed.

(** A running machine that is not waiting and whose [pc] is negative (where
    the [-1] placeholder of an unpatched jump leads) throws at once:
    [this.instructions[pc]] is [undefined] and reading [.op] of it is a
    [TypeError]; the trace holds that one position. *)
Theorem tick_negative_pc : forall js_eval new_RegExp dt st,
  running st = true -> Js.lt Js.zero (waitTimer st) = false -> (pc st < 0)%Z ->
  tick js_eval new_RegExp dt st = Raised op_error st [pc st].
Proof.
  intros js_eval new_RegExp dt st Hr Hw Hp. unfold tick. rewrite Hr, Hw.
  cbn [negb]. unfold step_budget. rewrite batch_S.
  replace (pc st <? Z.of_nat (List.length (prog st)))%Z with true
    by (symmetry; apply Z.ltb_lt; lia).
  unfold fetch. replace (pc st <? 0)%Z with true by (symmetry; apply Z.ltb_lt; lia). reflexivity.
Qed.

(** When evaluations keep [pc] and the program, and a call of [tick]
    returns with the machine still running, the program is the same and
    either [pc] is below the program's length or the call only counted
    down a wait and left [pc] where it was. *)
Theorem tick_running_in_range : forall js_eval new_RegExp dt st,
  eval_keeps_control js_eval ->
  match tick js_eval new_RegExp dt st with
  | Done st' _ =>
      running st' = true ->
      prog st' = prog st /\
      ((pc st' < Z.of_nat (List.length (prog st')))%Z \/
       (Js.lt Js.zero (waitTimer st) = true /\ pc st' = pc st))
  | Raised _ _ _ => True
  end.
Proof.
  intros js_eval new_RegExp dt st Hkeep. unfold tick.
  destruct (running st) eqn:Hr; cbn [negb].
  - destruct (Js.lt Js.zero (waitTimer st)) eqn:Hw.
    + intros _. cbn. auto.
    + pose proof (batch_prog js_eval new_RegExp Hkeep step_budget st []) as Hp.
      destruct (batch js_eval new_RegExp step_budget st []) as [st' tr|e st' tr]; [|exact I].
      destruct ((Z.of_nat (List.length (prog st')) <=? pc st')%Z && running st') eqn:Hc.
      * cbn. discriminate.
      * intros Hr'. rewrite Hr', andb_true_r in Hc. split; [exact Hp|]. left. lia.
  - intros H. rewrite Hr in H. discriminate.
Qed.

Lemma tick_running_in_range_witness :
  eval_keeps_control text_eval /\
  match tick text_eval Js.regexp_of_key Js.one ex_ifelse_vm with
  | Done st' _ =>
      running st' = true ->
      prog st' = prog ex_ifelse_vm /\
      ((pc st' < Z.of_nat (List.length (prog st')))%Z \/
       (Js.lt Js.zero (waitTimer ex_ifelse_vm) = true /\ pc st' = pc ex_ifelse_vm))
  | Raised _ _ _ => True
  end.
Proof.
  split; [exact text_eval_keeps|].
  exact (tick_running_in_range text_eval Js.regexp_of_key Js.one ex_ifelse_vm text_eval_keeps).
Defined.

(** A call of [tick] on a running machine that is not waiting, starting at
    a [WAIT t] that is the program's last instruction, does not wait: it
    runs the [WAIT] alone, sets [waitTimer] to [t], then finds [pc] past the
    end and stops the machine with "Program Ended.". *)
Theorem tick_trailing_wait : forall js_eval new_RegExp dt st t,
  running st = true -> Js.lt Js.zero (waitTimer st) = false ->
  (0 <= pc st)%Z -> pc st = (Z.of_nat (List.length (prog st)) - 1)%Z ->
  fetch (prog st) (pc st) = Some (WAIT t) ->
  tick js_eval new_RegExp dt st =
  Done (log (Js.VStr "Program Ended.") (Some "sys") None
          (set_running false (advance (set_waitTimer t st)))) [pc st].
Proof.
  intros js_eval new_RegExp dt st t Hr Hw H0 Hl Hf. unfold tick. rewrite Hr, Hw.
  cbn [negb]. unfold step_budget. rewrite batch_S.
  replace (pc st <? Z.of_nat (List.length (prog st)))%Z with true
    by (symmetry; apply Z.ltb_lt; lia).
  rewrite Hf. cbn [app advance set_waitTimer set_pc prog pc running]. rewrite Hr.
  replace (Z.of_nat (List.length (prog st)) <=? pc st + 1)%Z with true
    by (symmetry; apply Z.leb_le; lia).
  reflexivity.
Qed.

(** The host's frame time [0.02]. *)
Lemma tick_negative_pc_witness :
  let st := set_pc (-1) ex_ifelse_vm in
  running st = true /\ Js.lt Js.zero (waitTimer st) = false /\ (pc st < 0)%Z /\
  tick text_eval Js.regexp_of_key (Js.of_decimal 2 (-2)) st = Raised op_error st [pc st].
Proof.
  intros st. split; [reflexivity|]. split; [vm_compute; reflexivity|].
  split; [cbn; lia|].
  apply tick_negative_pc; [reflexivity | vm_compute; reflexivity | cbn; lia].
Defined.

Lemma tick_trailing_wait_witness :
  let st := set_running true (set_prog [WAIT (Js.of_Z 5)] vm0) in
  running st = true /\ Js.lt Js.zero (waitTimer st) = false /\
  (0 <= pc st)%Z /\ pc st = (Z.of_nat (List.length (prog st)) - 1)%Z /\
  fetch (prog st) (pc st) = Some (WAIT (Js.of_Z 5)) /\
  tick text_eval Js.regexp_of_key (Js.of_decimal 2 (-2)) st =
  Done (log (Js.VStr "Program Ended.") (Some "sys") None
          (set_running false (advance (set_waitTimer (Js.of_Z 5) st)))) [pc st].
Proof.
  intros st. split; [reflexivity|]. split; [vm_compute; reflexivity|].
  split; [cbn; lia|]. split; [reflexivity|]. split; [reflexivity|].
  apply tick_trailing_wait;
    [reflexivity | vm_compute; reflexivity | cbn; lia | reflexivity | reflexivity].
Defined.

(** *** [LOCK THROTTLE] *)

Lemma SFcompare_swap : forall a b : Js.number,
  SFcompare b a = option_map CompOpp (SFcompare a b).
Proof.
  intros [sa|sa| |sa ma ea] [sb|sb| |sb mb eb]; cbn; try reflexivity;
    try (destruct sa; reflexivity); try (destruct sb; reflexivity);
    try (destruct sa, sb; reflexivity).
  assert (Hp : Pos.compare_cont Eq mb ma = CompOpp (Pos.compare_cont Eq ma mb))
    by (rewrite Pos.compare_cont_antisym; reflexivity).
  rewrite (Z.compare_antisym eb ea), Hp.
  destruct sa, sb; cbn; try reflexivity;
    destruct (Z.compare eb ea); cbn; try reflexivity;
    destruct (Pos.compare_cont Eq ma mb); reflexivity.
Qed.

Lemma le_of_not_lt : forall a b : Js.number,
  Js.is_nan a = false -> Js.is_nan b = false -> Js.lt a b = false -> Js.le b a = true.
Proof.
  intros a b Ha Hb H. unfold Js.lt, Js.le in *. rewrite SFcompare_swap.
  destruct a, b; cbn in Ha, Hb; try discriminate;
    destruct (SFcompare _ _) as [[]|] eqn:E; cbn; try reflexivity; try discriminate;
    cbn in E; discriminate.
Qed.

(** [Math.min(Math.max(v, 0), 1)] is [NaN] or lies in [[0, 1]]. *)
Lemma clamp_unit : forall x : Js.number,
  let t := Js.math_min (Js.math_max x Js.zero) Js.one in
  Js.is_nan t = true \/ (Js.le Js.zero t = true /\ Js.le t Js.one = true).
Proof.
  intros x t. unfold t.
  assert (Hz : Js.math_min Js.zero Js.one = Js.zero) by (vm_compute; reflexivity).
  assert (H0 : Js.le Js.zero Js.zero = true /\ Js.le Js.zero Js.one = true)
    by (split; vm_compute; reflexivity).
  destruct x as [s|s| |s m e] eqn:Ex.
  - right. destruct s; split; vm_compute; reflexivity.
  - rewrite <- Ex.
    replace (Js.math_max x Js.zero) with (if Js.lt x Js.zero then Js.zero else x)
      by (subst x; reflexivity).
    destruct (Js.lt x Js.zero) eqn:Hl; [rewrite Hz; auto|].
    replace (Js.math_min x Js.one) with (if Js.lt Js.one x then Js.one else x)
      by (subst x; reflexivity).
    destruct (Js.lt Js.one x) eqn:H1; [right; split; vm_compute; reflexivity|].
    subst x. right. split; apply le_of_not_lt; solve [reflexivity | assumption].
  - left. reflexivity.
  - rewrite <- Ex.
    replace (Js.math_max x Js.zero) with (if Js.lt x Js.zero then Js.zero else x)
      by (subst x; reflexivity).
    destruct (Js.lt x Js.zero) eqn:Hl; [rewrite Hz; auto|].
    replace (Js.math_min x Js.one) with (if Js.lt Js.one x then Js.one else x)
      by (subst x; reflexivity).
    destruct (Js.lt Js.one x) eqn:H1; [right; split; vm_compute; reflexivity|].
    subst x. right. split; apply le_of_not_lt; solve [reflexivity | assumption].
Qed.

(** [LOCK THROTTLE TO expr]: the throttle the machine sets is [NaN] (an
    expression whose value converts to [NaN]) or lies between [0] and [1]. *)
Theorem lock_throttle_clamped : forall js_eval new_RegExp e st st',
  exec js_eval new_RegExp (LOCK "THROTTLE" e) st = Js.Normal st' ->
  Js.is_nan (throttle (phys st')) = true \/
  (Js.le Js.zero (throttle (phys st')) = true /\ Js.le (throttle (phys st')) Js.one = true).
Proof.
  intros js_eval new_RegExp e st st' H. cbn [exec] in H.
  destruct (vm_eval js_eval new_RegExp st e) as [[v st1]|]; [|discriminate H].
  injection H as <-. cbn. apply clamp_unit.
Qed.

Lemma lock_throttle_clamped_witness :
  exec text_eval Js.regexp_of_key (LOCK "THROTTLE" ["2"]) vm0 = Js.Normal ex_lock_next /\
  throttle (phys ex_lock_next) = Js.one /\
  (Js.is_nan (throttle (phys ex_lock_next)) = true \/
   (Js.le Js.zero (throttle (phys ex_lock_next)) = true /\
    Js.le (throttle (phys ex_lock_next)) Js.one = true)).
Proof.
  assert (H : exec text_eval Js.regexp_of_key (LOCK "THROTTLE" ["2"]) vm0 =
              Js.Normal ex_lock_next) by (vm_compute; reflexivity).
  split; [exact H|]. split; [vm_compute; reflexivity|].
  exact (lock_throttle_clamped text_eval Js.regexp_of_key _ vm0 ex_lock_next H).
Defined.

(** *** [UNTIL cond { B }] *)

(** An [UNTIL] loop of a well-formed script, compiled at [s], occupies
    [[s, fin)].  When evaluations keep [pc] and the program, runs that
    execute instructions only from there stay within [[s, fin]], and the
    only instruction that reaches [fin] is the guard at [s] on a truthy
    condition: B's code, nested statements included, never jumps out of the
    loop. *)
Theorem until_exits_by_guard : forall js_eval new_RegExp b e cb s p,
  body_ok b = true ->
  In (s, SUntil e cb) (layout_body 0 b) ->
  compile_tokens (script_tokens b) = Js.Normal p ->
  eval_keeps_control js_eval ->
  let fin := (S s + List.length (ccomp_body (S s) cb) + 2)%nat in
  (forall st st', prog st = p -> (Z.of_nat s <= pc st < Z.of_nat fin)%Z ->
     path js_eval new_RegExp (Z.of_nat s) (Z.of_nat fin) st st' ->
     (Z.of_nat s <= pc st' <= Z.of_nat fin)%Z) /\
  (forall st st', prog st = p -> (Z.of_nat s <= pc st < Z.of_nat fin)%Z ->
     vm_step js_eval new_RegExp st st' -> pc st' = Z.of_nat fin ->
     pc st = Z.of_nat s /\
     exists v st1, vm_eval js_eval new_RegExp st e = Js.Normal (v, st1) /\ Js.truthy v = true).
Proof.
  intros js_eval new_RegExp b e cb s p Hok Hin Hcomp Hkeep fin.
  destruct (proj2 layout_code b 0 s _ Hin) as (pre & post & Hc & Hn). cbn in Hn.
  rewrite compile_script in Hcomp by exact Hok. injection Hcomp as Hp.
  rewrite Hp in Hc.
  pose proof (proj1 ccomp_dests (SUntil e cb) s) as Hd.
  pose proof (proj2 ccomp_dests cb (S s)) as Hdb.
  set (cbc := ccomp_body (S s) cb) in *.
  assert (Hlen : List.length (ccomp s (SUntil e cb)) = (List.length cbc + 3)%nat)
    by (cbn [ccomp]; fold cbc; cbn [List.length]; rewrite length_app; cbn [List.length]; lia).
  assert (Hfin : fin = (s + List.length (ccomp s (SUntil e cb)))%nat)
    by (unfold fin; lia).
  assert (Hcl : forall i ins, (Z.of_nat s <= i < Z.of_nat fin)%Z -> fetch p i = Some ins ->
            Forall (fun z => Z.of_nat s <= z <= Z.of_nat fin)%Z (succs i ins)).
  { intros i ins Hi Hf. rewrite Hc in Hf. rewrite Hfin.
    pose proof (code_succs pre (ccomp s (SUntil e cb)) post i ins) as Hcs.
    rewrite <- Hn in Hcs. apply Hcs; [exact Hd | rewrite <- Hfin; exact Hi | exact Hf]. }
  assert (Hat : forall j, (j < List.length cbc + 3)%nat ->
            fetch p (Z.of_nat (s + j)) = nth_error (ccomp s (SUntil e cb)) j).
  { intros j Hj. rewrite Hc. replace (s + j)%nat with (List.length pre + j)%nat by lia.
    apply fetch_mid. rewrite Hlen. exact Hj. }
  split.
  - intros st st' Hprog Hr Hpath.
    refine (proj1 (path_inv js_eval new_RegExp Hkeep _ _ _ p st st' Hcl Hpath Hprog _)).
    cbv beta. lia.
  - intros st st' Hprog Hr Hs Hend.
    destruct (vm_step_succs js_eval new_RegExp Hkeep st st' Hs) as (ins & Hf & Hsu & _).
    rewrite Hprog in Hf.
    assert (Hcase : pc st = Z.of_nat s \/
                    (Z.of_nat (S s) <= pc st < Z.of_nat (S s + List.length cbc))%Z \/
                    pc st = Z.of_nat (S s + List.length cbc) \/
                    pc st = Z.of_nat (S s + List.length cbc + 1)) by lia.
    destruct Hcase as [H0|[H1|[H2|H3]]].
    + split; [exact H0|].
      assert (Hg : fetch (prog st) (pc st) =
                   Some (JMP_TRUE (Z.of_nat (S s + List.length cbc + 2)) e)).
      { pose proof (Hat 0%nat ltac:(lia)) as H. rewrite Nat.add_0_r in H.
        rewrite Hprog, H0, H. reflexivity. }
      destruct (jmp_true_step js_eval new_RegExp st st' _ _ Hg Hs) as (v & st1 & Hv & ->).
      destruct (vm_eval_control js_eval new_RegExp Hkeep _ _ _ _ Hv) as [Hp1 _].
      exists v, st1. split; [exact Hv|]. cbn [pc set_pc] in Hend.
      destruct (Js.truthy v); [reflexivity|]. rewrite Hp1 in Hend. unfold fin in Hend. lia.
    + exfalso.
      assert (Hp' : p = (pre ++ [JMP_TRUE (Z.of_nat (S s + List.length cbc + 2)) e]) ++
                        cbc ++ ([YIELD; JMP (Z.of_nat s)] ++ post)).
      { rewrite Hc. cbn [ccomp]. fold cbc. rewrite <- !app_assoc. cbn [app].
        rewrite <- !app_assoc. reflexivity. }
      rewrite Hp' in Hf.
      assert (Hd' : dests_within (Z.of_nat (List.length (pre ++ [JMP_TRUE (Z.of_nat (S s + List.length cbc + 2)) e])))
                      (Z.of_nat (List.length (pre ++ [JMP_TRUE (Z.of_nat (S s + List.length cbc + 2)) e]) + List.length cbc)) cbc).
      { rewrite length_app. cbn [List.length].
        replace (List.length pre + 1)%nat with (S s) by lia. exact Hdb. }
      pose proof (code_succs _ cbc ([YIELD; JMP (Z.of_nat s)] ++ post) (pc st) ins Hd') as Hsc.
      rewrite length_app in Hsc. cbn [List.length] in Hsc.
      specialize (Hsc ltac:(lia) Hf). rewrite Forall_forall in Hsc.
      specialize (Hsc _ Hsu). unfold fin in Hend. lia.
    + exfalso.
      assert (Hy : fetch p (pc st) = Some YIELD).
      { rewrite H2. replace (S s + List.length cbc)%nat
          with (s + S (List.length cbc))%nat by lia.
        rewrite Hat by lia. cbn [ccomp]. fold cbc. cbn [nth_error]. rewrite nth_error_app2 by lia.
        rewrite Nat.sub_diag. reflexivity. }
      rewrite Hy in Hf. injection Hf as <-. cbn [succs In] in Hsu.
      unfold fin in Hend. lia.
    + exfalso.
      assert (Hj : fetch p (pc st) = Some (JMP (Z.of_nat s))).
      { rewrite H3. replace (S s + List.length cbc + 1)%nat
          with (s + S (S (List.length cbc)))%nat by lia.
        rewrite Hat by lia. cbn [ccomp]. fold cbc. rewrite nth_cons_S, nth_error_app2 by lia.
        replace (S (List.length cbc) - List.length cbc)%nat with 1%nat by lia.
        reflexivity. }
      rewrite Hj in Hf. injection Hf as <-. cbn [succs In] in Hsu.
      unfold fin in Hend. lia.
Qed.

Lemma until_exits_by_guard_witness :
  body_ok ex_until = true /\
  In (0%nat, ex_until_stmt) (layout_body 0 ex_until) /\
  compile_tokens (script_tokens ex_until) = Js.Normal (ccomp_body 0 ex_until) /\
  eval_keeps_control text_eval /\
  let e := ["ALTITUDE"; ">"; "1000"] in
  let p := ccomp_body 0 ex_until in
  let fin := (S 0 + List.length (ccomp_body (S 0) (BCons (SIf ["1"] (BCons SStage BNil)) BNil)) + 2)%nat in
  (forall st st', prog st = p -> (Z.of_nat 0 <= pc st < Z.of_nat fin)%Z ->
     path text_eval Js.regexp_of_key (Z.of_nat 0) (Z.of_nat fin) st st' ->
     (Z.of_nat 0 <= pc st' <= Z.of_nat fin)%Z) /\
  (forall st st', prog st = p -> (Z.of_nat 0 <= pc st < Z.of_nat fin)%Z ->
     vm_step text_eval Js.regexp_of_key st st' -> pc st' = Z.of_nat fin ->
     pc st = Z.of_nat 0 /\
     exists v st1, vm_eval text_eval Js.regexp_of_key st e = Js.Normal (v, st1) /\ Js.truthy v = true).
Proof.
  split; [reflexivity|]. split; [cbn; auto|]. split; [vm_compute; reflexivity|].
  split; [exact text_eval_keeps|].
  apply (until_exits_by_guard text_eval Js.regexp_of_key ex_until).
  - reflexivity.
  - cbn; auto.
  - vm_compute; reflexivity.
  - exact text_eval_keeps.
Defined.

(** *** The terminal *)

(** Decimal digits. *)
Lemma digits_app : forall f z a b,
  Js.digits_of_pos_aux f z (a ++ b) = (Js.digits_of_pos_aux f z a ++ b)%string.
Proof.
  induction f as [|f IH]; intros z a b; cbn [Js.digits_of_pos_aux]; [reflexivity|].
  change (String (Js.digit_char (z mod 10)) (a ++ b)) with
    ((String (Js.digit_char (z mod 10)) a) ++ b)%string.
  destruct (z <? 10)%Z; [reflexivity|]. apply IH.
Qed.

Lemma digits_fuel : forall f1 f2 z acc, (1 <= f1)%nat -> (1 <= f2)%nat -> (0 <= z)%Z ->
  (z < 10 ^ Z.of_nat f1)%Z -> (z < 10 ^ Z.of_nat f2)%Z ->
  Js.digits_of_pos_aux f1 z acc = Js.digits_of_pos_aux f2 z acc.
Proof.
  induction f1 as [|f1 IH]; intros f2 z acc H1 H2 H0 Hz1 Hz2; [lia|].
  destruct f2 as [|f2]; [lia|]. cbn [Js.digits_of_pos_aux].
  destruct (z <? 10)%Z eqn:E; [reflexivity|]. apply Z.ltb_ge in E.
  rewrite Nat2Z.inj_succ, Z.pow_succ_r in Hz1, Hz2 by lia.
  destruct f1 as [|f1']; [cbn in Hz1; lia|]. destruct f2 as [|f2']; [cbn in Hz2; lia|].
  apply IH; [lia | lia | apply Z.div_pos; lia | apply Z.div_lt_upper_bound; lia
    | apply Z.div_lt_upper_bound; lia].
Qed.

Lemma pos_digits10_bound : forall f z, (0 <= z < 2 ^ Z.of_nat f)%Z ->
  (1 <= Js.pos_digits10_aux (S f) z /\ z < 10 ^ Js.pos_digits10_aux (S f) z)%Z.
Proof.
  induction f as [|f IH]; intros z Hz.
  - cbn in Hz. cbn. replace (z <? 10)%Z with true by (symmetry; apply Z.ltb_lt; lia). lia.
  - change (Js.pos_digits10_aux (S (S f)) z) with
      (if (z <? 10)%Z then 1 else 1 + Js.pos_digits10_aux (S f) (z / 10))%Z.
    destruct (z <? 10)%Z eqn:E; [apply Z.ltb_lt in E; cbn; lia|].
    apply Z.ltb_ge in E.
    rewrite Nat2Z.inj_succ, Z.pow_succ_r in Hz by lia.
    destruct (IH (z / 10)%Z) as [Ha Hb].
    { pose proof (Z.pow_nonneg 2 (Z.of_nat f) ltac:(lia)).
      split; [apply Z.div_pos; lia|]. apply Z.div_lt_upper_bound; lia. }
    split; [lia|]. rewrite Z.pow_add_r by lia. rewrite Z.pow_1_r.
    assert (z < 10 * (z / 10 + 1))%Z by (pose proof (Z.mul_succ_div_gt z 10); lia).
    nia.
Qed.

Lemma string_of_nonneg_fuel : forall z f, (0 <= z)%Z -> (1 <= f)%nat -> (z < 10 ^ Z.of_nat f)%Z ->
  Js.string_of_nonneg z = Js.digits_of_pos_aux f z EmptyString.
Proof.
  intros z f H0 Hf Hz. unfold Js.string_of_nonneg, Js.digits10.
  destruct (pos_digits10_bound (Pos.to_nat (Pos.size (Z.to_pos z))) z) as [Ha Hb].
  { split; [exact H0|]. rewrite positive_nat_Z.
    destruct z as [|p|p]; [cbn; lia| |lia]. cbn [Z.to_pos].
    rewrite <- (Pos2Z.inj_pow 2 (Pos.size p)). exact (Pos.size_gt p). }
  apply digits_fuel; try lia.
  rewrite Nat2Z.inj_succ, Z2Nat.id by lia.
  apply (Z.lt_le_trans _ _ _ Hb). apply Z.pow_le_mono_r; lia.
Qed.

Lemma pow10_above : forall z, (0 <= z)%Z -> (z < 10 ^ Z.of_nat (S (Z.to_nat z)))%Z.
Proof.
  intros z Hz. rewrite Nat2Z.inj_succ, Z2Nat.id by lia.
  apply (Z.lt_trans _ (10 ^ z)); [apply Z.pow_gt_lin_r; lia|].
  apply Z.pow_lt_mono_r; lia.
Qed.

Lemma string_of_nonneg_split : forall n, (100 <= n)%Z ->
  Js.string_of_nonneg n = (Js.string_of_nonneg (n / 100) ++ two_digits (n mod 100))%string.
Proof.
  intros n Hn. set (f := S (Z.to_nat (n / 100))).
  assert (Hq : (n / 100 < 10 ^ Z.of_nat f)%Z) by (apply pow10_above; apply Z.div_pos; lia).
  rewrite (string_of_nonneg_fuel n (S (S f))); try lia.
  2:{ rewrite !Nat2Z.inj_succ, !Z.pow_succ_r by lia.
      assert (n < 100 * (n / 100 + 1))%Z by (pose proof (Z.mul_succ_div_gt n 100); lia).
      nia. }
  rewrite (string_of_nonneg_fuel (n / 100) f); try lia; [|apply Z.div_pos; lia].
  cbn [Js.digits_of_pos_aux].
  replace (n <? 10)%Z with false by (symmetry; apply Z.ltb_ge; lia).
  replace (n / 10 <? 10)%Z with false by (symmetry; apply Z.ltb_ge; apply Z.div_le_lower_bound; lia).
  replace (n / 10 / 10)%Z with (n / 100)%Z by (rewrite Z.div_div by lia; reflexivity).
  rewrite <- digits_app. unfold two_digits. cbn [append].
  replace (n mod 100 / 10)%Z with (n / 10 mod 10)%Z by (Z.div_mod_to_equations; lia).
  replace (n mod 100 mod 10)%Z with (n mod 10)%Z by (Z.div_mod_to_equations; lia).
  reflexivity.
Qed.

Lemma substring_full : forall b, substring 0 (String.length b) b = b.
Proof. induction b as [|c b IH]; [reflexivity|]. cbn. rewrite IH. reflexivity. Qed.

Lemma substring_app_l : forall a b, substring 0 (String.length a) (a ++ b) = a.
Proof. induction a as [|c a IH]; intros b; [destruct b; reflexivity|]. cbn. rewrite IH. reflexivity. Qed.

Lemma substring_app_r : forall a b,
  substring (String.length a) (String.length b) (a ++ b) = b.
Proof. induction a as [|c a IH]; intros b; [apply substring_full|]. cbn. apply IH. Qed.

Lemma length_string_app : forall a b, String.length (a ++ b) = (String.length a + String.length b)%nat.
Proof. induction a as [|c a IH]; intros b; [reflexivity|]. cbn. rewrite IH. reflexivity. Qed.

Lemma frac_of_pos : forall m e num den, Js.frac_of m e = (num, den) -> (0 < num /\ 0 < den)%Z.
Proof.
  intros m e num den H. unfold Js.frac_of in H.
  destruct (0 <=? e)%Z eqn:E; injection H as <- <-.
  - apply Z.leb_le in E. split; [|lia].
    exact (Z.mul_pos_pos (Z.pos m) (2 ^ e) eq_refl (Z.pow_pos_nonneg 2 e eq_refl E)).
  - apply Z.leb_gt in E. split; [lia|]. apply Z.pow_pos_nonneg; lia.
Qed.

Lemma digits_length_ge : forall f q s0,
  (String.length s0 <= String.length (Js.digits_of_pos_aux f q s0))%nat.
Proof.
  induction f as [|f IH]; intros q s0; [cbn; lia|]. cbn [Js.digits_of_pos_aux].
  destruct (q <? 10)%Z; [cbn; lia|].
  etransitivity; [|apply IH]. cbn. lia.
Qed.

Lemma string_of_nonneg_nonempty : forall z, (0 <= z)%Z ->
  (1 <= String.length (Js.string_of_nonneg z))%nat.
Proof.
  intros z Hz. rewrite (string_of_nonneg_fuel z (S (Z.to_nat z))) by (try apply pow10_above; lia).
  cbn [Js.digits_of_pos_aux]. destruct (z <? 10)%Z; [cbn; lia|].
  etransitivity; [|apply digits_length_ge]. cbn. lia.
Qed.

(** [PRINT] of a number shows [toFixed(2)] of it: [0] and [-0] as
    ["0.00"]; for a nonzero finite value below [10 ^ 21] in magnitude, the
    sign, then the integer [n] nearest to 100 times the magnitude (the
    larger one on a tie) with a point before its last two digits; the shown
    decimal is within half a hundredth of the value. *)
Theorem to_fixed2_rounds :
  (forall b, to_fixed2 (S754_zero b) = "0.00"%string) /\
  forall neg m e num den,
  Js.frac_of m e = (num, den) ->
  (num < 10 ^ 21 * den)%Z ->
  exists n, (- den < 2 * n * den - 200 * num <= den)%Z /\
    to_fixed2 (S754_finite neg m e) =
    ((if neg then "-" else EmptyString) ++ Js.string_of_nonneg (n / 100) ++ "." ++
     two_digits (n mod 100))%string.
Proof.
  split; [intros b; vm_compute; reflexivity|].
  intros neg m e num den Hf Hb. destruct (frac_of_pos m e num den Hf) as [Hn0 Hd0].
  unfold to_fixed2. rewrite Hf. unfold fixed2_of.
  replace (10 ^ 21 * den <=? num)%Z with false by (symmetry; apply Z.leb_gt; lia).
  set (n := ((200 * num + den) / (2 * den))%Z).
  assert (Hlo : (2 * den * n <= 200 * num + den)%Z) by (apply Z.mul_div_le; lia).
  assert (Hhi : (200 * num + den < 2 * den * Z.succ n)%Z) by (apply Z.mul_succ_div_gt; lia).
  assert (Hn : (0 <= n)%Z) by (apply Z.div_pos; lia).
  exists n. split; [lia|].
  f_equal.
  destruct (Z_lt_le_dec n 100) as [Hs|Hs].
  - rewrite (string_of_nonneg_fuel n 2) by (cbn; lia).
    replace (n / 100)%Z with 0%Z by (Z.div_mod_to_equations; lia).
    replace (n mod 100)%Z with n by (Z.div_mod_to_equations; lia).
    cbn [Js.digits_of_pos_aux]. unfold two_digits.
    destruct (n <? 10)%Z eqn:E.
    + apply Z.ltb_lt in E. cbn.
      replace (n / 10)%Z with 0%Z by (Z.div_mod_to_equations; lia). reflexivity.
    + apply Z.ltb_ge in E.
      replace (n / 10 <? 10)%Z with true by (symmetry; apply Z.ltb_lt; Z.div_mod_to_equations; lia).
      replace (n / 10 mod 10)%Z with (n / 10)%Z by (Z.div_mod_to_equations; lia).
      reflexivity.
  - rewrite string_of_nonneg_split by exact Hs.
    pose proof (string_of_nonneg_nonempty (n / 100) ltac:(apply Z.div_pos; lia)) as Hne.
    set (a := Js.string_of_nonneg (n / 100)) in *.
    rewrite length_string_app. cbn [String.length two_digits].
    replace (String.length a + 2 <=? 2)%nat with false by (symmetry; apply Nat.leb_gt; lia).
    replace (String.length a + 2 - 2)%nat with (String.length a) by lia.
    rewrite substring_app_l.
    change 2%nat with (String.length (two_digits (n mod 100))). rewrite substring_app_r.
    reflexivity.
Qed.

Lemma show_logs_app : forall a b term, show_logs (a ++ b) term = show_logs b (show_logs a term).
Proof. intros a b term. unfold show_logs. apply fold_left_app. Qed.

(** [PRINT expr] through the frontend's log sink, for a value that is a
    primitive other than a Symbol: a value [undefined] or [null] (an empty
    expression) adds nothing to the lines the evaluation left, the string
    ["CLEAR"] empties the terminal as [CLEARSCREEN] does, and any other
    value adds one line of class [log-info] with ["> "] and its text. *)
Theorem print_terminal : forall js_eval new_RegExp st st' e a,
  vm_step js_eval new_RegExp st st' ->
  fetch (prog st) (pc st) = Some (PRINT e a) ->
  exists v st1, vm_eval js_eval new_RegExp st e = Js.Normal (v, st1) /\
  forall term,
    ((v = Js.VUndef \/ v = Js.VNull) -> show_logs (logs st') term = show_logs (logs st1) term) /\
    (v = Js.VStr "CLEAR" -> show_logs (logs st') term = []) /\
    (v <> Js.VUndef -> v <> Js.VNull -> v <> Js.VStr "CLEAR" ->
     show_logs (logs st') term =
     show_logs (logs st1) term ++ [("term-line log-info", ("> " ++ log_text v)%string)]).
Proof.
  intros js_eval new_RegExp st st' e a [_ H] Hf. rewrite Hf in H. cbn [exec] in H.
  destruct (vm_eval js_eval new_RegExp st e) as [[v st1]|]; [|discriminate H].
  injection H as <-. exists v, st1. split; [reflexivity|]. intros term.
  cbn [logs advance set_pc log]. rewrite show_logs_app. cbn [show_logs fold_left msg level].
  generalize (show_logs (logs st1) term) as t. intros t.
  split; [|split].
  - intros [-> | ->]; reflexivity.
  - intros ->. reflexivity.
  - intros H1 H2 H3. unfold logTerminal.
    destruct v; try reflexivity; try contradiction.
    destruct (String.eqb s "CLEAR") eqn:E; [|reflexivity].
    apply String.eqb_eq in E. subst. contradiction.
Qed.

(** [CLEARSCREEN] empties the terminal whatever it showed before. *)
Theorem clearscreen_empties : forall js_eval new_RegExp st st',
  vm_step js_eval new_RegExp st st' ->
  fetch (prog st) (pc st) = Some CLEAR ->
  forall term, show_logs (logs st') term = [].
Proof.
  intros js_eval new_RegExp st st' [_ H] Hf term. rewrite Hf in H. cbn [exec] in H.
  injection H as <-. cbn [logs advance set_pc log]. rewrite show_logs_app. reflexivity.
Qed.

Lemma to_fixed2_rounds_witness :
  S754_finite false 4526117625507348 (-52) = Js.of_decimal 1005 (-3) /\
  to_fixed2 (S754_finite false 4526117625507348 (-52)) = "1.00" /\
  Js.frac_of 4526117625507348 (-52) = (4526117625507348%Z, (2 ^ 52)%Z) /\
  (4526117625507348 < 10 ^ 21 * 2 ^ 52)%Z /\
  exists n, (- 2 ^ 52 < 2 * n * 2 ^ 52 - 200 * 4526117625507348 <= 2 ^ 52)%Z /\
    to_fixed2 (S754_finite false 4526117625507348 (-52)) =
    ((if false then "-" else EmptyString) ++ Js.string_of_nonneg (n / 100) ++ "." ++
     two_digits (n mod 100))%string.
Proof.
  split; [vm_compute; reflexivity|]. split; [vm_compute; reflexivity|].
  split; [reflexivity|]. split; [reflexivity|].
  apply (proj2 to_fixed2_rounds false 4526117625507348%positive (-52)%Z); reflexivity.
Defined.

Lemma print_terminal_witness :
  vm_step text_eval Js.regexp_of_key ex_print_vm ex_print_next /\
  fetch (prog ex_print_vm) (pc ex_print_vm) = Some (PRINT [clear_lit] None) /\
  exists v st1, vm_eval text_eval Js.regexp_of_key ex_print_vm [clear_lit] = Js.Normal (v, st1) /\
  forall term,
    ((v = Js.VUndef \/ v = Js.VNull) ->
       show_logs (logs ex_print_next) term = show_logs (logs st1) term) /\
    (v = Js.VStr "CLEAR" -> show_logs (logs ex_print_next) term = []) /\
    (v <> Js.VUndef -> v <> Js.VNull -> v <> Js.VStr "CLEAR" ->
     show_logs (logs ex_print_next) term =
     show_logs (logs st1) term ++ [("term-line log-info", ("> " ++ log_text v)%string)]).
Proof.
  assert (Hs : vm_step text_eval Js.regexp_of_key ex_print_vm ex_print_next)
    by (split; [cbn; lia | vm_compute; reflexivity]).
  split; [exact Hs|]. split; [reflexivity|].
  exact (print_terminal text_eval Js.regexp_of_key ex_print_vm ex_print_next _ _ Hs eq_refl).
Defined.

Lemma clearscreen_empties_witness :
  vm_step text_eval Js.regexp_of_key ex_clear_vm ex_clear_next /\
  fetch (prog ex_clear_vm) (pc ex_clear_vm) = Some CLEAR /\
  forall term, show_logs (logs ex_clear_next) term = [].
Proof.
  assert (Hs : vm_step text_eval Js.regexp_of_key ex_clear_vm ex_clear_next)
    by (split; [cbn; lia | vm_compute; reflexivity]).
  split; [exact Hs|]. split; [reflexivity|].
  exact (clearscreen_empties text_eval Js.regexp_of_key ex_clear_vm ex_clear_next Hs eq_refl).
Defined.

(** *** The physics engine and the frontend's loop *)

Lemma wrap_down_inf (s : bool) (n : nat) :
  Physics.wrap_down n (S754_infinity s) = if s then Some (S754_infinity true) else None.
Proof.
  induction n as [|n IH]; destruct s; cbn [Physics.wrap_down];
    try (vm_compute; reflexivity).
  replace (Js.lt (Js.of_Z 180) (S754_infinity false)) with true by (vm_compute; reflexivity).
  replace (Js.sub (S754_infinity false) (Js.of_Z 360)) with (S754_infinity false)
    by (vm_compute; reflexivity).
  exact IH.
Qed.

Lemma wrap_up_ninf (n : nat) : Physics.wrap_up n (S754_infinity true) = None.
Proof.
  induction n as [|n IH]; cbn [Physics.wrap_up]; [vm_compute; reflexivity|].
  replace (Js.lt (S754_infinity true) (Js.neg (Js.of_Z 180))) with true by (vm_compute; reflexivity).
  replace (Js.add (S754_infinity true) (Js.of_Z 360)) with (S754_infinity true)
    by (vm_compute; reflexivity).
  exact IH.
Qed.

Lemma steer_inf (n : nat) (dt : Js.number) (p : Physics.state) (s : bool) :
  Js.to_number (Physics.steeringTarget p) = S754_infinity s ->
  Js.is_nan (Js.to_number (Physics.angle p)) = false ->
  Js.to_number (Physics.angle p) <> S754_infinity s ->
  Physics.steer n dt p = None.
Proof.
  intros Ht Hn Hi. unfold Physics.steer. rewrite Ht.
  replace (Js.sub (S754_infinity s) (Js.to_number (Physics.angle p))) with (S754_infinity s).
  2:{ destruct (Js.to_number (Physics.angle p)) as [s'|s'| |s' m e];
      try discriminate; try reflexivity.
      destruct s, s'; try reflexivity; congruence. }
  rewrite wrap_down_inf. destruct s; [rewrite wrap_up_ninf|]; reflexivity.
Qed.

Lemma wrap_down_nan (n : nat) : Physics.wrap_down n S754_nan = Some S754_nan.
Proof. destruct n; reflexivity. Qed.
Lemma wrap_up_nan (n : nat) : Physics.wrap_up n S754_nan = Some S754_nan.
Proof. destruct n; reflexivity. Qed.

Lemma steer_nan (n : nat) (dt a : Js.number) (p : Physics.state) :
  Physics.angle p = Js.VNum a ->
  Js.is_nan (Js.sub (Js.to_number (Physics.steeringTarget p)) a) = true ->
  Physics.steer n dt p = Some (Js.VNum Js.nan).
Proof.
  intros Ha Hn. unfold Physics.steer. rewrite Ha. cbn [Js.to_number].
  destruct (Js.sub (Js.to_number (Physics.steeringTarget p)) a); try discriminate.
  rewrite wrap_down_nan, wrap_up_nan. cbn. destruct a; reflexivity.
Qed.
Section PhysicsStep.
Variables exp cos sin : Js.number -> Js.number.

Lemma step_none n rnd dt p :
  Physics.crashed p = false -> Physics.steer n dt p = None ->
  Physics.step exp cos sin n rnd dt p = None.
Proof. intros Hc Hs. unfold Physics.step. rewrite Hc, Hs. reflexivity. Qed.

Lemma step_some n rnd dt p a :
  Physics.crashed p = false -> Physics.steer n dt p = Some a ->
  exists p', Physics.step exp cos sin n rnd dt p = Some p' /\ Physics.angle p' = a.
Proof.
  intros Hc Hs. unfold Physics.step. rewrite Hc, Hs. cbv zeta.
  repeat match goal with |- context [match ?e with pair _ _ => _ end] => destruct e end.
  eexists; split; reflexivity.
Qed.

Lemma step_trail n rnd dt p p' :
  Physics.step exp cos sin n rnd dt p = Some p' ->
  (List.length (Physics.trail p') <= Nat.max 500 (List.length (Physics.trail p)))%nat.
Proof.
  intros H. unfold Physics.step in H. destruct (Physics.crashed p).
  { injection H as <-. lia. }
  destruct (Physics.steer n dt p) as [a|]; [|discriminate]. cbv zeta in H.
  repeat match type of H with context [match ?e with pair _ _ => _ end] => destruct e end.
  injection H as <-. cbn [Physics.trail].
  destruct (Js.lt rnd (Js.of_decimal 1 (-1))); [|lia].
  destruct (500 <? List.length (Physics.trail p ++ [_]))%nat eqn:E.
  - apply Nat.ltb_lt in E. destruct (Physics.trail p); cbn [tl app] in *;
      rewrite ?length_app in *; cbn [List.length] in *; lia.
  - apply Nat.ltb_ge in E. lia.
Qed.
End PhysicsStep.

Lemma sync_view (p : Physics.state) : sync (view p) p = p.
Proof. destruct p; reflexivity. Qed.

Lemma or_default_truthy (v : option Js.number) (d : Js.number) :
  Js.truthy (Js.VNum d) = true -> Js.truthy (Js.VNum (Physics.or_default v d)) = true.
Proof.
  intros Hd. destruct v as [n|]; cbn [Physics.or_default]; [|exact Hd].
  destruct (Js.truthy (Js.VNum n)) eqn:E; assumption.
Qed.

Lemma getNum_not_nan el id def :
  Js.is_nan def = false -> Js.is_nan (getNum el id def) = false.
Proof.
  intros Hd. unfold getNum. destruct (el id); [|exact Hd].
  cbv zeta. destruct (Js.is_nan (Js.parse_float s)) eqn:E; assumption.
Qed.

(** For a rocket that has not crashed, a steering target that converts to
    an infinite number, with an angle that converts to a number other than
    NaN and that infinity, keeps one of the two steering loops of [step]
    running forever: no number of iterations lets [step] finish. *)
Theorem step_infinite_target_hangs (exp cos sin : Js.number -> Js.number)
    (rnd dt : Js.number) (p : Physics.state) (s : bool) :
  Physics.crashed p = false ->
  Js.to_number (Physics.steeringTarget p) = S754_infinity s ->
  Js.is_nan (Js.to_number (Physics.angle p)) = false ->
  Js.to_number (Physics.angle p) <> S754_infinity s ->
  forall n, Physics.step exp cos sin n rnd dt p = None.
Proof.
  intros Hc Ht Hn Hi n. apply step_none; [exact Hc|]. eapply steer_inf; eassumption.
Qed.

Lemma step_infinite_target_hangs_witness :
  Physics.crashed (ph_target (Js.VNum (S754_infinity false))) = false /\
  Js.to_number (Physics.steeringTarget (ph_target (Js.VNum (S754_infinity false))))
    = S754_infinity false /\
  Js.is_nan (Js.to_number (Physics.angle (ph_target (Js.VNum (S754_infinity false))))) = false /\
  Js.to_number (Physics.angle (ph_target (Js.VNum (S754_infinity false))))
    <> S754_infinity false /\
  Physics.step fn_one fn_one fn_one 1000 Js.zero dt_frame
    (ph_target (Js.VNum (S754_infinity false))) = None.
Proof.
  assert (Ha : Js.to_number (Physics.angle (ph_target (Js.VNum (S754_infinity false))))
               <> S754_infinity false) by (vm_compute; discriminate).
  split; [reflexivity|]. split; [reflexivity|]. split; [vm_compute; reflexivity|].
  split; [exact Ha|].
  apply (step_infinite_target_hangs fn_one fn_one fn_one Js.zero dt_frame
           (ph_target (Js.VNum (S754_infinity false))) false);
    [reflexivity | reflexivity | vm_compute; reflexivity | exact Ha].
Defined.

(** For a rocket that has not crashed and whose angle is a number, when
    the steering error [steeringTarget - angle] is NaN (a target such as
    [undefined] or a non-numeric string, or an angle already NaN), [step]
    finishes and leaves the angle NaN; so once NaN, the angle stays NaN
    while the rocket has not crashed. *)
Theorem step_nan_error_poisons_angle (exp cos sin : Js.number -> Js.number)
    (rnd dt a : Js.number) (p : Physics.state) :
  Physics.crashed p = false ->
  Physics.angle p = Js.VNum a ->
  Js.is_nan (Js.sub (Js.to_number (Physics.steeringTarget p)) a) = true ->
  forall n, exists p', Physics.step exp cos sin n rnd dt p = Some p' /\
                       Physics.angle p' = Js.VNum Js.nan.
Proof.
  intros Hc Ha Hn n. apply (step_some exp cos sin n rnd dt p (Js.VNum Js.nan)); [exact Hc|].
  apply (steer_nan n dt a p); assumption.
Qed.

Lemma step_nan_error_poisons_angle_witness :
  Physics.crashed (ph_target Js.VUndef) = false /\
  Physics.angle (ph_target Js.VUndef) = Js.VNum (Js.of_Z 90) /\
  Js.is_nan (Js.sub (Js.to_number (Physics.steeringTarget (ph_target Js.VUndef)))
                    (Js.of_Z 90)) = true /\
  exists p', Physics.step fn_one fn_one fn_one 0 Js.zero dt_frame (ph_target Js.VUndef)
               = Some p' /\ Physics.angle p' = Js.VNum Js.nan.
Proof.
  split; [reflexivity|]. split; [reflexivity|]. split; [vm_compute; reflexivity|].
  apply (step_nan_error_poisons_angle fn_one fn_one fn_one Js.zero dt_frame (Js.of_Z 90));
    [reflexivity | reflexivity | vm_compute; reflexivity].
Defined.

(** [step] keeps the trail at 500 points at most: it never makes the trail
    longer than 500, or than it already was. *)
Theorem step_trail_bounded (exp cos sin : Js.number -> Js.number)
    (n : nat) (rnd dt : Js.number) (p p' : Physics.state) :
  Physics.step exp cos sin n rnd dt p = Some p' ->
  (List.length (Physics.trail p') <= Nat.max 500 (List.length (Physics.trail p)))%nat.
Proof. apply step_trail. Qed.

Lemma step_trail_bounded_witness :
  Physics.step fn_one fn_one fn_one 10 Js.zero dt_frame ph_new
    = Some (step_or ph_new (Physics.step fn_one fn_one fn_one 10 Js.zero dt_frame ph_new)) /\
  (List.length (Physics.trail (step_or ph_new
     (Physics.step fn_one fn_one fn_one 10 Js.zero dt_frame ph_new)))
   <= Nat.max 500 (List.length (Physics.trail ph_new)))%nat.
Proof.
  split; [vm_compute; reflexivity|].
  apply (step_trail_bounded fn_one fn_one fn_one 10 Js.zero dt_frame ph_new).
  vm_compute; reflexivity.
Defined.

(** For a rocket that has not crashed, a step taken from below the surface
    ([|pos| < radius] before moving) ends landed with zero velocity; and
    such a step is the only one in which [step] sets [crashed]. *)
Theorem step_collision (exp cos sin : Js.number -> Js.number)
    (n : nat) (rnd dt : Js.number) (p p' : Physics.state) :
  Physics.crashed p = false ->
  Physics.step exp cos sin n rnd dt p = Some p' ->
  (Js.lt (Physics.mag (Physics.pos p)) Physics.radius = true ->
     Physics.landed p' = true /\ Physics.vel p' = Physics.vzero) /\
  (Physics.crashed p' = true ->
     Js.lt (Physics.mag (Physics.pos p)) Physics.radius = true).
Proof.
  intros Hc H. unfold Physics.step in H. rewrite Hc in H.
  destruct (Physics.steer n dt p) as [a|]; [|discriminate]. cbv zeta in H.
  destruct (Js.lt (Physics.mag (Physics.pos p)) Physics.radius) eqn:El;
    cbv iota in H;
    repeat match type of H with context [match ?e with pair _ _ => _ end] => destruct e end;
    injection H as <-; cbn [Physics.landed Physics.vel Physics.crashed].
  - split; intros _; [split|]; reflexivity.
  - split; intros; discriminate.
Qed.

Lemma step_collision_witness :
  Physics.crashed ph_below = false /\
  Physics.step fn_one fn_one fn_one 10 Js.zero dt_frame ph_below
    = Some (step_or ph_below (Physics.step fn_one fn_one fn_one 10 Js.zero dt_frame ph_below)) /\
  (Js.lt (Physics.mag (Physics.pos ph_below)) Physics.radius = true ->
     Physics.landed (step_or ph_below (Physics.step fn_one fn_one fn_one 10 Js.zero dt_frame ph_below)) = true /\
     Physics.vel (step_or ph_below (Physics.step fn_one fn_one fn_one 10 Js.zero dt_frame ph_below)) = Physics.vzero) /\
  (Physics.crashed (step_or ph_below (Physics.step fn_one fn_one fn_one 10 Js.zero dt_frame ph_below)) = true ->
     Js.lt (Physics.mag (Physics.pos ph_below)) Physics.radius = true).
Proof.
  split; [reflexivity|]. split; [vm_compute; reflexivity|].
  apply (step_collision fn_one fn_one fn_one 10 Js.zero dt_frame ph_below);
    [reflexivity | vm_compute; reflexivity].
Defined.

(** A rocket that is landed, not below the surface and not throttled up
    ([throttle > 0] false) does not move in [step]: position, velocity and
    fuel stay as they are and it stays landed, whatever gravity says. *)
Theorem step_landed_idle (exp cos sin : Js.number -> Js.number)
    (n : nat) (rnd dt : Js.number) (p p' : Physics.state) :
  Physics.crashed p = false ->
  Physics.landed p = true ->
  Js.lt Js.zero (Physics.throttle p) = false ->
  Js.lt (Physics.mag (Physics.pos p)) Physics.radius = false ->
  Physics.step exp cos sin n rnd dt p = Some p' ->
  Physics.pos p' = Physics.pos p /\ Physics.vel p' = Physics.vel p /\
  Physics.fuel p' = Physics.fuel p /\ Physics.landed p' = true /\
  Physics.crashed p' = false.
Proof.
  intros Hc Hl Ht Hr H. unfold Physics.step in H. rewrite Hc in H.
  destruct (Physics.steer n dt p) as [a|]; [|discriminate]. cbv zeta in H.
  rewrite Hl, Ht, Hr, Bool.andb_false_r in H. cbn [negb orb] in H. cbv iota in H.
  repeat match type of H with context [match ?e with pair _ _ => _ end] => destruct e end.
  injection H as <-. rewrite <- Hl, <- Hc. repeat split.
Qed.

Lemma step_landed_idle_witness :
  Physics.crashed ph_new = false /\ Physics.landed ph_new = true /\
  Js.lt Js.zero (Physics.throttle ph_new) = false /\
  Js.lt (Physics.mag (Physics.pos ph_new)) Physics.radius = false /\
  Physics.step fn_one fn_one fn_one 10 Js.zero dt_frame ph_new
    = Some (step_or ph_new (Physics.step fn_one fn_one fn_one 10 Js.zero dt_frame ph_new)) /\
  (let p' := step_or ph_new (Physics.step fn_one fn_one fn_one 10 Js.zero dt_frame ph_new) in
   Physics.pos p' = Physics.pos ph_new /\ Physics.vel p' = Physics.vel ph_new /\
   Physics.fuel p' = Physics.fuel ph_new /\ Physics.landed p' = true /\
   Physics.crashed p' = false).
Proof.
  split; [reflexivity|]. split; [reflexivity|]. split; [vm_compute; reflexivity|].
  split; [vm_compute; reflexivity|]. split; [vm_compute; reflexivity|].
  apply (step_landed_idle fn_one fn_one fn_one 10 Js.zero dt_frame ph_new);
    [reflexivity | reflexivity | vm_compute; reflexivity | vm_compute; reflexivity
    | vm_compute; reflexivity].
Defined.

(** [resetSim()] stops the machine and leaves the terminal with its two
    lines; whatever the inputs hold, the physics object gets a full tank, a
    [fuelStart] that is neither [0] nor NaN (an input of [0] or a missing
    one gives [600]) and a stage count that is not NaN. *)
Theorem resetSim_ready (el : string -> option string) (st : vm) :
  let '(p, st', term) := resetSim el st in
  running st' = false /\
  Js.truthy (Js.VNum (Physics.fuelStart p)) = true /\
  Physics.fuel p = Physics.fuelStart p /\
  Js.is_nan (Physics.stages p) = false /\
  term = [("term-line log-sys", "System Ready.");
          ("term-line log-sys", "> Simulation Reset.")].
Proof.
  cbn [resetSim]. cbv zeta. cbn [Physics.reset Physics.fuelStart Physics.fuel
    Physics.stages Physics.cfg_fuel Physics.cfg_stages running set_running].
  split; [reflexivity|]. split.
  { apply or_default_truthy. vm_compute. reflexivity. }
  split; [reflexivity|]. split.
  { apply getNum_not_nan. vm_compute. reflexivity. }
  reflexivity.
Qed.

(** While the machine is stopped, a frame of [loop()] leaves it as it is and
    runs exactly one [step] of the physics object. *)
Theorem frame_stopped_vm js_eval new_RegExp (exp cos sin : Js.number -> Js.number)
    (n : nat) (rnd : Js.number) (st : vm) (p : Physics.state) :
  running st = false ->
  frame js_eval new_RegExp exp cos sin n rnd st p =
  match Physics.step exp cos sin n rnd (Js.of_decimal 2 (-2)) p with
  | Some p' => Some (set_phys (view p) st, p')
  | None => None
  end.
Proof.
  intros Hr. unfold frame, tick. cbv zeta. cbn [running set_phys]. rewrite Hr.
  cbn [negb phys set_phys].
  rewrite sync_view. reflexivity.
Qed.

Lemma frame_stopped_vm_witness :
  running vm0 = false /\
  frame text_eval Js.regexp_of_key fn_one fn_one fn_one 10 Js.zero vm0 ph_new =
  match Physics.step fn_one fn_one fn_one 10 Js.zero (Js.of_decimal 2 (-2)) ph_new with
  | Some p' => Some (set_phys (view ph_new) vm0, p')
  | None => None
  end.
Proof.
  split; [reflexivity|]. apply frame_stopped_vm. reflexivity.
Defined.


